(** * RI pilot pipeline: span matching, chunking and deduplication

    A shallow embedding of the span logic of the repository
    ([models.py], [semantic_search.py], [keyword_search.py],
    [deduplication.py], [activity_classifier.py]), of the batching of the
    classification requests ([bedrock_classifier.py]) and of the mapping of
    the classifications to the chunks ([run_results_processing.py]), with
    the properties of it that the specification states and further
    properties of the code.

    Conventions of the embedding:
    - a Python [str] is a list of characters; characters are the code
      points 0..255 ([ascii]);
    - a Python [int] is a [Z]; [len] returns a [Z];
    - a Python [float] that is only stored and compared (similarity scores,
      thresholds, overlap ratios) is a rational [Q]; the quotient of two
      integers is the exact rational;
    - the collaborators of the pipeline that live outside the repository
      (NLTK tokenizers and lemmatizer, the regular-expression engine, the
      embedding model, [difflib.SequenceMatcher], the iteration order of a
      Python [set]) are fields of interface classes, so that every
      statement holds for each implementation of them. *)

From Stdlib Require Import List ZArith QArith Qminmax Ascii Bool Lia.
From Stdlib Require Import Permutation Sorted DecimalString.
From Stdlib Require String DecimalNat FinFun.
Import ListNotations.
Import String.StringSyntax.
Delimit Scope string_scope with string.

Set Implicit Arguments.

Open Scope Z_scope.

(** ** Python strings and slices *)

Module Py.

Definition str := list ascii.

Definition of_string (s : String.string) : str :=
  String.list_ascii_of_string s.

Arguments of_string s%_string.

Definition len {A : Type} (l : list A) : Z := Z.of_nat (length l).

Fixpoint str_eqb (a b : str) : bool :=
  match a, b with
  | [], [] => true
  | x :: a', y :: b' => Ascii.eqb x y && str_eqb a' b'
  | _, _ => false
  end.

(** [str.isspace] on the code points below 256. *)
Definition isspace (c : ascii) : bool :=
  let n := N_of_ascii c in
  ((9 <=? n) && (n <=? 13) || (28 <=? n) && (n <=? 32)
   || (n =? 133) || (n =? 160))%N.

Fixpoint lstrip (s : str) : str :=
  match s with
  | [] => []
  | c :: r => if isspace c then lstrip r else s
  end.

Definition rstrip (s : str) : str := rev (lstrip (rev s)).

(** [s.strip()] *)
Definition strip (s : str) : str := rstrip (lstrip s).

(** Index normalisation of a slice bound: a negative bound counts from the
    end, and every bound is clamped to [0, n]. *)
Definition slice_index (n i : Z) : Z :=
  if i <? 0 then Z.max 0 (n + i) else Z.min i n.

(** [s[lo:hi]] *)
Definition slice {A : Type} (s : list A) (lo hi : Z) : list A :=
  let a := slice_index (len s) lo in
  let b := slice_index (len s) hi in
  firstn (Z.to_nat (b - a)) (skipn (Z.to_nat a) s).

(** [s[lo:]] *)
Definition slice_from {A : Type} (s : list A) (lo : Z) : list A :=
  skipn (Z.to_nat (slice_index (len s) lo)) s.

(** [s[:hi]] *)
Definition slice_to {A : Type} (s : list A) (hi : Z) : list A :=
  firstn (Z.to_nat (slice_index (len s) hi)) s.

Definition newline : ascii := "010"%char.

Definition push_front (c : ascii) (ps : list str) : list str :=
  match ps with
  | p :: rest => (c :: p) :: rest
  | [] => [[c]]
  end.

(** [s.split('\n\n')]: the pieces between the leftmost non-overlapping
    occurrences of two consecutive newlines. *)
Fixpoint split_paragraphs (s : str) : list str :=
  match s with
  | [] => [[]]
  | c :: rest =>
      match rest with
      | c' :: rest' =>
          if Ascii.eqb c newline && Ascii.eqb c' newline
          then [] :: split_paragraphs rest'
          else push_front c (split_paragraphs rest)
      | [] => [[c]]
      end
  end.

(** [sep.join(parts)] for the separator [" "]. *)
Fixpoint join_space (parts : list str) : str :=
  match parts with
  | [] => []
  | [p] => p
  | p :: rest => p ++ " "%char :: join_space rest
  end.

(** [f"{n:04d}"] for a non-negative [n]. *)
Definition format_04d (n : nat) : str :=
  let digits := of_string (NilZero.string_of_uint (Nat.to_uint n)) in
  repeat "0"%char (4 - length digits) ++ digits.

(** [sorted(l, key=key)] and [l.sort(key=key)]: a stable sort, ascending. *)
Fixpoint insert_by {A : Type} (key : A -> Z) (x : A) (l : list A) : list A :=
  match l with
  | [] => [x]
  | y :: l' => if key x <=? key y then x :: l else y :: insert_by key x l'
  end.

Fixpoint sort_by {A : Type} (key : A -> Z) (l : list A) : list A :=
  match l with
  | [] => []
  | x :: l' => insert_by key x (sort_by key l')
  end.

Definition nonempty {A : Type} (l : list A) : bool :=
  match l with [] => false | _ :: _ => true end.

(** [c.lower()] on the code points below 256. *)
Definition lower_char (c : ascii) : ascii :=
  let n := N_of_ascii c in
  if ((65 <=? n) && (n <=? 90)
      || (192 <=? n) && (n <=? 222) && negb (n =? 215))%N
  then ascii_of_N (n + 32) else c.

(** [s.lower()] *)
Definition lower (s : str) : str := map lower_char s.

(** [s.split()]: the maximal runs of non-whitespace characters; [cur] is
    the run being read, last character first. *)
Fixpoint split_whitespace_from (s : str) (cur : str) : list str :=
  match s with
  | [] => if nonempty cur then [rev cur] else []
  | c :: r =>
      if isspace c
      then (if nonempty cur then rev cur :: split_whitespace_from r []
            else split_whitespace_from r [])
      else split_whitespace_from r (c :: cur)
  end.

Definition split_whitespace (s : str) : list str :=
  split_whitespace_from s [].

Fixpoint startswith (s sub : str) : bool :=
  match sub, s with
  | [], _ => true
  | x :: sub', y :: s' => Ascii.eqb x y && startswith s' sub'
  | _ :: _, [] => false
  end.

Fixpoint find_in (sub s : str) (i : Z) : Z :=
  if startswith s sub then i
  else match s with
       | [] => -1
       | _ :: r => find_in sub r (i + 1)
       end.

(** [s.find(sub, start)] *)
Definition find (s sub : str) (start : Z) : Z :=
  if start >? len s then -1
  else let a := slice_index (len s) start in
       find_in sub (skipn (Z.to_nat a) s) a.

(** [sum(len(w) + 1 for w in ws)] *)
Definition sum_len_plus_1 (ws : list str) : Z :=
  fold_left (fun acc w => acc + (len w + 1)) ws 0.

(** [x in l] for a list of strings. *)
Definition str_in (x : str) (l : list str) : bool :=
  existsb (str_eqb x) l.

(** [str(n)], and [n] in an f-string, for a non-negative [n]. *)
Definition str_of_nat (n : nat) : str :=
  of_string (NilZero.string_of_uint (Nat.to_uint n)).

(** [sub in s] for two strings. *)
Fixpoint contains (s sub : str) : bool :=
  startswith s sub
  || match s with
     | [] => false
     | _ :: r => contains r sub
     end.

(** [len(range(0, stop, step))] for a step that is not 0. *)
Definition range_len (stop step : Z) : Z :=
  if 0 <? step then (if 0 <? stop then (stop - 1) / step + 1 else 0)
  else (if stop <? 0 then (- stop - 1) / (- step) + 1 else 0).

(** [range(0, stop, step)]; [None] is the [ValueError] of a step of 0. *)
Definition range_from_0 (stop step : Z) : option (list Z) :=
  if step =? 0 then None
  else Some (map (fun k => Z.of_nat k * step)
                 (seq 0 (Z.to_nat (range_len stop step)))).


(** [d[key] = d.get(key, 0) + 1] on a dict of counts, which keeps its keys
    in the order of their first insertion. *)
Fixpoint count_add (key : str) (d : list (str * Z)) : list (str * Z) :=
  match d with
  | [] => [(key, 1)]
  | (k, n) :: rest =>
      if str_eqb k key then (k, n + 1) :: rest
      else (k, n) :: count_add key rest
  end.

(** [d[key] = value] and [d.get(key)] on a dict with string keys. *)
Fixpoint dict_set {V : Type} (key : str) (value : V) (d : list (str * V))
    : list (str * V) :=
  match d with
  | [] => [(key, value)]
  | (k, v) :: rest =>
      if str_eqb k key then (k, value) :: rest
      else (k, v) :: dict_set key value rest
  end.

Fixpoint dict_get {V : Type} (key : str) (d : list (str * V)) : option V :=
  match d with
  | [] => None
  | (k, v) :: rest => if str_eqb k key then Some v else dict_get key rest
  end.


End Py.

(** ** models.py *)

(** The three dataclasses; the fields of [KeywordMatch] and of
    [SemanticMatch] carry the prefixes [km_] and [sm_]. [L] is the
    representation of the [matched_keywords] list: the list itself where
    nothing shares it, a location of the store where the list object is
    shared. *)

Record KeywordMatch (L : Type) : Type := mkKeywordMatch {
  km_chunk_id : Py.str;
  km_text : Py.str;
  km_matched_keywords : L;
  km_char_start : Z;
  km_char_end : Z;
  km_source : Py.str;
  km_section_name : Py.str;
  km_page_number : Z
}.

Record SemanticMatch : Type := mkSemanticMatch {
  sm_chunk_id : Py.str;
  sm_text : Py.str;
  sm_similarity_score : Q;
  sm_matched_query : Py.str;
  sm_sector : Py.str;
  sm_char_start : Z;
  sm_char_end : Z;
  sm_source : Py.str
}.

Record CombinedMatch (L : Type) : Type := mkCombinedMatch {
  chunk_id : Py.str;
  text : Py.str;
  char_start : Z;
  char_end : Z;
  sources : list Py.str;
  matched_keywords : L;
  similarity_score : Q;
  matched_query : Py.str;
  sector : Py.str;
  found_by : Py.str
}.

Definition keyword_search : Py.str := Py.of_string "keyword_search".
Definition semantic_search : Py.str := Py.of_string "semantic_search".
Definition keyword_only : Py.str := Py.of_string "keyword_only".
Definition semantic_only : Py.str := Py.of_string "semantic_only".
Definition both : Py.str := Py.of_string "both".

(** Comparisons of Python floats. *)
Definition Qgeb (a b : Q) : bool := Qle_bool b a.
Definition Qgtb (a b : Q) : bool := negb (Qle_bool a b).

(** ** semantic_search.py *)

(** The embedding collaborator: [similarities query chunk_texts] is the
    vector [cosine_similarity(encode(query), encode(chunk_texts))], one
    score per chunk; [argsort_descending] is
    [torch.argsort(_, descending=True)]. *)
Class Embedder : Type := {
  similarities : Py.str -> list Py.str -> list Q;
  argsort_descending : list Q -> list nat
}.

Module SemanticSearcher.

(** A chunk is the tuple [(chunk_text, start_pos, end_pos)]. *)
Definition chunk : Type := Py.str * Z * Z.

(** The local variables of [_create_chunks]. *)
Record chunker : Type := mkChunker {
  chunks : list chunk;
  current_chunk : Py.str;
  chunk_start : Z;
  current_pos : Z
}.

(** One iteration of [for para in paragraphs]. *)
Definition chunk_step (chunk_size overlap : Z) (st : chunker)
    (para0 : Py.str) : chunker :=
  let para := Py.strip para0 in
  if negb (Py.nonempty para) then
    mkChunker (chunks st) (current_chunk st) (chunk_start st)
              (current_pos st + 2)
  else if (Py.len (current_chunk st) + Py.len para >? chunk_size)
          && Py.nonempty (current_chunk st) then
    let overlap_text :=
      if Py.len (current_chunk st) >? overlap
      then Py.slice_from (current_chunk st) (- overlap)
      else current_chunk st in
    mkChunker
      (chunks st
       ++ [(Py.strip (current_chunk st), chunk_start st, current_pos st)])
      (overlap_text ++ " "%char :: para)
      (current_pos st - Py.len overlap_text)
      (current_pos st + (Py.len para + 2))
  else if Py.nonempty (current_chunk st) then
    mkChunker (chunks st) (current_chunk st ++ " "%char :: para)
              (chunk_start st) (current_pos st + (Py.len para + 2))
  else
    mkChunker (chunks st) para (current_pos st)
              (current_pos st + (Py.len para + 2)).

Definition chunker_init : chunker := mkChunker [] [] 0 0.

Definition chunker_finish (st : chunker) : list chunk :=
  if Py.nonempty (current_chunk st)
  then chunks st
       ++ [(Py.strip (current_chunk st), chunk_start st, current_pos st)]
  else chunks st.

Definition _create_chunks (text : Py.str) (chunk_size overlap : Z)
    : list chunk :=
  chunker_finish
    (fold_left (chunk_step chunk_size overlap)
               (Py.split_paragraphs text) chunker_init).

Definition position (m : SemanticMatch) : Z * Z :=
  (sm_char_start m, sm_char_end m).

Definition position_eqb (a b : Z * Z) : bool :=
  (fst a =? fst b) && (snd a =? snd b).

(** [position_map]: a dict, which keeps its keys in the order of their
    first insertion. One iteration of [for match in matches]. *)
Fixpoint position_map_update (m : SemanticMatch)
    (position_map : list (Z * Z * SemanticMatch))
    : list (Z * Z * SemanticMatch) :=
  match position_map with
  | [] => [(position m, m)]
  | (key, held) :: rest =>
      if position_eqb key (position m) then
        if Qgtb (sm_similarity_score m) (sm_similarity_score held)
        then (key, m) :: rest
        else (key, held) :: rest
      else (key, held) :: position_map_update m rest
  end.

Definition _deduplicate_by_position (matches : list SemanticMatch)
    : list SemanticMatch :=
  map snd (fold_left (fun pm m => position_map_update m pm) matches []).

Section Search.

Context {E : Embedder}.

(** The body of [for idx in top_indices]; [None] is the [IndexError] of
    [similarities[idx]] or [chunks[idx]]. *)
Definition add_match (chs : list chunk) (sims : list Q)
    (sector query : Py.str) (all_matches : option (list SemanticMatch))
    (idx : nat) : option (list SemanticMatch) :=
  match all_matches, nth_error sims idx, nth_error chs idx with
  | Some ms, Some score, Some (chunk_text, start, end_) =>
      Some (ms ++ [mkSemanticMatch
                     (Py.of_string "semantic_" ++ Py.format_04d (length ms))
                     chunk_text score
                     (Py.slice_to query 100 ++ Py.of_string "...")
                     sector start end_ semantic_search])
  | _, _, _ => None
  end.

(** The body of [for query_info in queries]; a query is the pair of its
    ['sector'] and ['query'] entries. *)
Definition add_query (chs : list chunk) (top_k : Z)
    (all_matches : option (list SemanticMatch))
    (query_info : Py.str * Py.str) : option (list SemanticMatch) :=
  let (sector, query) := query_info in
  let sims := similarities query (map (fun c => fst (fst c)) chs) in
  let top_indices := Py.slice_to (argsort_descending sims) top_k in
  fold_left (add_match chs sims sector query) top_indices all_matches.

Definition search (text : Py.str) (queries : list (Py.str * Py.str))
    (top_k : Z) : option (list SemanticMatch) :=
  let chs := _create_chunks text 500 100 in
  if negb (Py.nonempty chs) then Some []
  else option_map _deduplicate_by_position
         (fold_left (add_query chs top_k) queries (Some [])).

End Search.

End SemanticSearcher.

(** ** keyword_search.py *)

(** The part-of-speech readings [_lemmatize_word] tries. *)
Inductive pos : Type := pos_n | pos_v | pos_a.

(** The NLTK collaborator: [nltk.word_tokenize], [nltk.sent_tokenize] and
    [WordNetLemmatizer().lemmatize]. *)
Class NLTK : Type := {
  word_tokenize : Py.str -> list Py.str;
  sent_tokenize : Py.str -> list Py.str;
  lemmatize : Py.str -> pos -> Py.str
}.

(** [finditer_phrase pattern_words text] is the list of
    [(match.start(), match.end())] of
    [re.finditer(r'\b' + r'\s+'.join(re.escape(w) for w in pattern_words)
    + r'\b', text)]. *)
Class Regex : Type := {
  finditer_phrase : list Py.str -> Py.str -> list (Z * Z)
}.

(** [list_of_set l] is [list(set(l))]: the iteration order of a Python set
    of strings is not specified. *)
Class SetOrder : Type := {
  list_of_set : list Py.str -> list Py.str
}.

Module KeywordSearcher.

(** A window is the tuple [(context_text, context_start, context_end)]. *)
Definition window : Type := Py.str * Z * Z.

(** [patterns]: a dict from the lemmatized pattern to the keywords that
    have it, in the order of first insertion. *)
Definition patterns : Type := list (Py.str * list Py.str).

(** [patterns[key].append(keyword)], after [patterns[key] = []] when the
    key is new. *)
Fixpoint patterns_append (key keyword : Py.str) (p : patterns) : patterns :=
  match p with
  | [] => [(key, [keyword])]
  | (k, kws) :: rest =>
      if Py.str_eqb k key then (k, kws ++ [keyword]) :: rest
      else (k, kws) :: patterns_append key keyword rest
  end.

(** [min(l, key=len)]: the first element of minimal length. *)
Fixpoint min_by_len (best : Py.str) (l : list Py.str) : Py.str :=
  match l with
  | [] => best
  | x :: l' =>
      if Py.len x <? Py.len best then min_by_len x l' else min_by_len best l'
  end.

(** The loop of [_expand_context], with a bound on its iterations. *)
Fixpoint expand_loop (fuel : nat) (n start end_ : Z) : Z * Z :=
  match fuel with
  | O => (start, end_)
  | S fuel' =>
      if (end_ - start <? 200) && ((start >? 0) || (end_ <? n)) then
        let start' := if start >? 0 then Z.max 0 (start - 100) else start in
        let end' := if end_ <? n then Z.min n (end_ + 100) else end_ in
        expand_loop fuel' n start' end'
      else (start, end_)
  end.

(** Each iteration lowers [max 0 start + max 0 (n - end_)], so this many
    iterations reach the exit of the loop. *)
Definition expand_fuel (n start end_ : Z) : nat :=
  Z.to_nat (Z.max 0 start + Z.max 0 (n - end_)).

Definition _expand_context (text : Py.str) (start end_ : Z) : window :=
  let (s, e) :=
    expand_loop (expand_fuel (Py.len text) start end_) (Py.len text)
                start end_ in
  let expanded_text := Py.strip (Py.slice text s e) in
  (expanded_text, s, s + Py.len expanded_text).

(** The loop [for idx, sent in enumerate(sentences)] of
    [_extract_by_sentences]: the index of the first sentence whose
    approximate range holds [match_pos]. *)
Fixpoint find_target (sentences : list Py.str) (match_pos current_pos idx : Z)
    : option Z :=
  match sentences with
  | [] => None
  | sent :: rest =>
      let sent_end := current_pos + Py.len sent in
      if (current_pos <=? match_pos) && (match_pos <=? sent_end)
      then Some idx
      else find_target rest match_pos (sent_end + 1) (idx + 1)
  end.

Section Searcher.

Context {Tk : NLTK} {Re : Regex} {So : SetOrder}.

Definition _lemmatize_word (word0 : Py.str) : Py.str :=
  let word := Py.strip (Py.lower word0) in
  match list_of_set [lemmatize word pos_n; lemmatize word pos_v;
                     lemmatize word pos_a] with
  | [] => []
  | l :: ls => min_by_len l ls
  end.

Definition keyword_pattern (keyword : Py.str) : Py.str :=
  let words := Py.split_whitespace (Py.lower keyword) in
  match words with
  | [w] => _lemmatize_word w
  | _ => Py.join_space (map _lemmatize_word words)
  end.

Definition _create_keyword_patterns (keywords : list Py.str) : patterns :=
  fold_left (fun p keyword => patterns_append (keyword_pattern keyword)
                                              keyword p)
            keywords [].

(** [for i, word in enumerate(words)] of the single-word branch; [seen] is
    [words[:i]]. *)
Fixpoint scan_words (text_lower pattern representative : Py.str)
    (seen words : list Py.str) : list (Z * Z * Py.str) :=
  match words with
  | [] => []
  | word :: rest =>
      let here :=
        if Py.str_eqb (_lemmatize_word word) pattern then
          let start := Py.find text_lower word (Py.sum_len_plus_1 seen) in
          if start =? -1 then []
          else [(start, start + Py.len word, representative)]
        else [] in
      here ++ scan_words text_lower pattern representative
                         (seen ++ [word]) rest
  end.

(** The body of [for pattern, original_keywords in ...items()]. An entry
    of [patterns] never has an empty keyword list. *)
Definition pattern_positions (text_lower : Py.str)
    (entry : Py.str * list Py.str) : list (Z * Z * Py.str) :=
  let (pattern, original_keywords) := entry in
  let pattern_words := Py.split_whitespace pattern in
  let representative_keyword := hd [] original_keywords in
  match pattern_words with
  | [_] => scan_words text_lower pattern representative_keyword []
                      (word_tokenize text_lower)
  | _ => map (fun se => (fst se, snd se, representative_keyword))
             (finditer_phrase pattern_words text_lower)
  end.

Definition _find_keyword_positions (lemmatized_keywords : patterns)
    (text : Py.str) : list (Z * Z * Py.str) :=
  let text_lower := Py.lower text in
  flat_map (pattern_positions text_lower) lemmatized_keywords.

Definition _extract_by_sentences (text : Py.str) (match_pos : Z)
    (before after : Z) : window :=
  let sentences := sent_tokenize text in
  match find_target sentences match_pos 0 0 with
  | None =>
      let start := Z.max 0 (match_pos - 300) in
      let end_ := Z.min (Py.len text) (match_pos + 300) in
      (Py.slice text start end_, start, end_)
  | Some target_idx =>
      let start_idx := Z.max 0 (target_idx - before) in
      let end_idx := Z.min (Py.len sentences) (target_idx + after + 1) in
      let context_sents := Py.slice sentences start_idx end_idx in
      let context_text := Py.join_space context_sents in
      let char_start :=
        Py.sum_len_plus_1 (Py.slice_to sentences start_idx) in
      let char_end := char_start + Py.len context_text in
      if Py.len context_text <? 200 then
        _expand_context text char_start char_end
      else if Py.len context_text >? 1000 then
        let match_offset := match_pos - char_start in
        let half := 500 in
        let truncated :=
          Py.slice context_text (Z.max 0 (match_offset - half))
                   (match_offset + half) in
        (truncated, char_start, char_start + Py.len truncated)
      else (context_text, char_start, char_end)
  end.

(** The loop [for para in paragraphs] of [_extract_context]. *)
Fixpoint extract_from_paragraphs (text : Py.str) (match_start : Z)
    (paragraphs : list Py.str) (current_pos : Z) : window :=
  match paragraphs with
  | [] => _extract_by_sentences text match_start 3 3
  | para :: rest =>
      let para_end := current_pos + Py.len para in
      if (current_pos <=? match_start) && (match_start <=? para_end) then
        let para_clean := Py.strip para in
        if (200 <=? Py.len para_clean) && (Py.len para_clean <=? 1000)
        then (para_clean, current_pos, para_end)
        else if Py.len para_clean <? 200
        then _expand_context text current_pos para_end
        else _extract_by_sentences text match_start 3 3
      else extract_from_paragraphs text match_start rest (para_end + 2)
  end.

Definition _extract_context (text : Py.str) (match_start match_end : Z)
    : window :=
  extract_from_paragraphs text match_start (Py.split_paragraphs text) 0.

(** [overlap_start < overlap_end and overlap_ratio > 0.5] *)
Definition overlaps_enough (last current : KeywordMatch (list Py.str))
    : bool :=
  let overlap_start := Z.max (km_char_start last) (km_char_start current) in
  let overlap_end := Z.min (km_char_end last) (km_char_end current) in
  (overlap_start <? overlap_end)
  && Qgtb (inject_Z (overlap_end - overlap_start)
           / inject_Z (km_char_end last - km_char_start last)) (1 # 2).

(** The assignments to [last] under [if overlap_ratio > 0.5]. *)
Definition merge_into (last current : KeywordMatch (list Py.str))
    : KeywordMatch (list Py.str) :=
  mkKeywordMatch
    (km_chunk_id last)
    (if Py.len (km_text current) >? Py.len (km_text last)
     then km_text current else km_text last)
    (list_of_set (km_matched_keywords last ++ km_matched_keywords current))
    (km_char_start last)
    (Z.max (km_char_end last) (km_char_end current))
    (km_source last) (km_section_name last) (km_page_number last).

(** [for current in sorted_matches[1:]], where [merged] is
    [finished ++ [last]]. *)
Fixpoint merge_sweep (finished : list (KeywordMatch (list Py.str)))
    (last : KeywordMatch (list Py.str))
    (rest : list (KeywordMatch (list Py.str)))
    : list (KeywordMatch (list Py.str)) :=
  match rest with
  | [] => finished ++ [last]
  | current :: rest' =>
      if overlaps_enough last current
      then merge_sweep finished (merge_into last current) rest'
      else merge_sweep (finished ++ [last]) current rest'
  end.

Definition _merge_overlapping (matches : list (KeywordMatch (list Py.str)))
    : list (KeywordMatch (list Py.str)) :=
  match Py.sort_by (@km_char_start _) matches with
  | [] => []
  | first :: rest => merge_sweep [] first rest
  end.

(** [position_keywords]: a dict from [(start, end)] to the keywords found
    there, in the order of first insertion. *)
Fixpoint position_keywords_add (key : Z * Z) (keyword : Py.str)
    (d : list (Z * Z * list Py.str)) : list (Z * Z * list Py.str) :=
  match d with
  | [] => [(key, [keyword])]
  | (k, kws) :: rest =>
      if (fst k =? fst key) && (snd k =? snd key)
      then (k, kws ++ [keyword]) :: rest
      else (k, kws) :: position_keywords_add key keyword rest
  end.

(** The body of [for (start, end), keywords in position_keywords.items()];
    the state is [(matches, seen_positions)]. *)
Definition add_position (text section_name : Py.str) (page_number : Z)
    (st : list (KeywordMatch (list Py.str)) * list Z)
    (item : Z * Z * list Py.str)
    : list (KeywordMatch (list Py.str)) * list Z :=
  let '(matches, seen_positions) := st in
  let '(start, end_, keywords) := item in
  let unique_keywords := list_of_set keywords in
  if existsb (Z.eqb start) seen_positions then st
  else
    let '(context_text, context_start, context_end) :=
      _extract_context text start end_ in
    (matches ++ [mkKeywordMatch
                   (Py.of_string "keyword_"
                    ++ Py.format_04d (length matches))
                   context_text unique_keywords context_start context_end
                   keyword_search section_name page_number],
     start :: seen_positions).

Definition search (keywords : list Py.str) (text section_name : Py.str)
    (page_number : Z) : list (KeywordMatch (list Py.str)) :=
  let keyword_positions :=
    _find_keyword_positions (_create_keyword_patterns keywords) text in
  if negb (Py.nonempty keyword_positions) then []
  else
    let position_keywords :=
      fold_left (fun d p => position_keywords_add (fst (fst p), snd (fst p))
                                                  (snd p) d)
                keyword_positions [] in
    let matches :=
      fst (fold_left (add_position text section_name page_number)
                     position_keywords ([], [])) in
    _merge_overlapping matches.

End Searcher.

End KeywordSearcher.

(** ** deduplication.py *)

(** What a call does: it returns a value or raises an exception. *)
Inductive outcome (A : Type) : Type :=
| Returned (value : A)
| Raised (exception : Py.str).

Arguments Returned {A} value.
Arguments Raised {A} exception.

Module CrossStoreDeduplicator.

(** The [matched_keywords] of the matches given to [deduplicate] are list
    objects that the caller still holds: the store maps the address of
    each list object to its contents. *)
Definition loc : Type := nat.
Definition store : Type := list (list Py.str).

Definition load (h : store) (l : loc) : list Py.str := nth l h [].

Fixpoint store_set (h : store) (l : loc) (v : list Py.str) : store :=
  match h, l with
  | [], _ => []
  | _ :: h', O => v :: h'
  | x :: h', S l' => x :: store_set h' l' v
  end.

(** A new list object. *)
Definition alloc (h : store) (v : list Py.str) : loc * store :=
  (length h, h ++ [v]).

Record t : Type := mk { overlap_threshold : Q }.

(** The default value of the parameter [overlap_threshold]. *)
Definition default_overlap_threshold : Q := 1 # 2.

(** [CrossStoreDeduplicator(overlap_threshold)] *)
Definition __init__ (overlap_threshold : Q) : outcome t :=
  Returned (mk overlap_threshold).

Definition _calculate_overlap (start1 end1 start2 end2 : Z) : Q :=
  let overlap_start := Z.max start1 start2 in
  let overlap_end := Z.min end1 end2 in
  if overlap_start >=? overlap_end then 0%Q
  else
    let overlap_length := overlap_end - overlap_start in
    let span1_length := end1 - start1 in
    if span1_length >? 0
    then (inject_Z overlap_length / inject_Z span1_length)%Q
    else 0%Q.

(** [CombinedMatch(...)] of the loop [for kw_match in keyword_matches]:
    the new object holds the very list object of [kw_match]. *)
Definition seed (kw_match : KeywordMatch loc) : CombinedMatch loc :=
  mkCombinedMatch (km_chunk_id kw_match) (km_text kw_match)
    (km_char_start kw_match) (km_char_end kw_match)
    [keyword_search] (km_matched_keywords kw_match)
    0%Q [] [] keyword_only.

(** The assignments to [combined] under [if overlap >= ...]. *)
Definition absorb_into (combined : CombinedMatch loc) (sem_match : SemanticMatch)
    : CombinedMatch loc :=
  mkCombinedMatch (chunk_id combined)
    (if Py.len (sm_text sem_match) >? Py.len (text combined)
     then sm_text sem_match else text combined)
    (Z.min (char_start combined) (sm_char_start sem_match))
    (Z.max (char_end combined) (sm_char_end sem_match))
    (sources combined ++ [semantic_search])
    (matched_keywords combined)
    (sm_similarity_score sem_match)
    (sm_matched_query sem_match)
    (sm_sector sem_match)
    both.

(** The test of the loop [for combined in combined_matches]. *)
Definition absorbs (self : t) (sem_match : SemanticMatch)
    (combined : CombinedMatch loc) : bool :=
  Py.str_in keyword_search (sources combined)
  && Qgeb (_calculate_overlap (sm_char_start sem_match)
                              (sm_char_end sem_match)
                              (char_start combined) (char_end combined))
          (overlap_threshold self).

(** The loop [for combined in combined_matches], left at its [break];
    [None] when it ends with [found_overlap] still false. *)
Fixpoint absorb (self : t) (sem_match : SemanticMatch)
    (combined_matches : list (CombinedMatch loc))
    : option (list (CombinedMatch loc)) :=
  match combined_matches with
  | [] => None
  | combined :: rest =>
      if absorbs self sem_match combined
      then Some (absorb_into combined sem_match :: rest)
      else option_map (cons combined) (absorb self sem_match rest)
  end.

(** The body of [for sem_match in semantic_matches]. *)
Definition add_semantic (self : t)
    (st : list (CombinedMatch loc) * store) (sem_match : SemanticMatch)
    : list (CombinedMatch loc) * store :=
  let (combined_matches, h) := st in
  match absorb self sem_match combined_matches with
  | Some merged => (merged, h)
  | None =>
      let (fresh, h') := alloc h [] in
      (combined_matches
       ++ [mkCombinedMatch
             (Py.of_string "combined_"
              ++ Py.format_04d (length combined_matches))
             (sm_text sem_match)
             (sm_char_start sem_match) (sm_char_end sem_match)
             [semantic_search] fresh
             (sm_similarity_score sem_match)
             (sm_matched_query sem_match)
             (sm_sector sem_match)
             semantic_only],
       h')
  end.

(** [for source in current.sources: if source not in last.sources: ...] *)
Definition merge_sources (last_sources current_sources : list Py.str)
    : list Py.str :=
  fold_left (fun acc source =>
               if Py.str_in source acc then acc else acc ++ [source])
            current_sources last_sources.

Section FinalPass.

Context {So : SetOrder}.

(** The assignments to [last] under [if overlap >= ...] in
    [_final_dedup_pass]: [extend] writes to the list object [last] holds,
    [list(set(...))] makes a new one. *)
Definition merge_last (last current : CombinedMatch loc) (h : store)
    : CombinedMatch loc * store :=
  let new_sources := merge_sources (sources last) (sources current) in
  let h1 := store_set h (matched_keywords last)
              (load h (matched_keywords last)
               ++ load h (matched_keywords current)) in
  let (fresh, h2) := alloc h1 (list_of_set (load h1 (matched_keywords last))) in
  let higher :=
    Qgtb (similarity_score current) (similarity_score last) in
  (mkCombinedMatch (chunk_id last)
     (if Py.len (text current) >? Py.len (text last)
      then text current else text last)
     (Z.min (char_start last) (char_start current))
     (Z.max (char_end last) (char_end current))
     new_sources
     fresh
     (if higher then similarity_score current else similarity_score last)
     (if higher then matched_query current else matched_query last)
     (if higher then sector current else sector last)
     (if Py.len new_sources >? 1 then both else found_by last),
   h2).

(** The test [overlap >= self.overlap_threshold] of [_final_dedup_pass]. *)
Definition merges (self : t) (last current : CombinedMatch loc) : bool :=
  Qgeb (_calculate_overlap (char_start current) (char_end current)
                           (char_start last) (char_end last))
       (overlap_threshold self).

(** [for current in matches[1:]], where [deduplicated] is
    [finished ++ [last]]. *)
Fixpoint final_sweep (self : t) (finished : list (CombinedMatch loc))
    (last : CombinedMatch loc) (rest : list (CombinedMatch loc))
    (h : store) : list (CombinedMatch loc) * store :=
  match rest with
  | [] => (finished ++ [last], h)
  | current :: rest' =>
      if merges self last current then
        let (last', h') := merge_last last current h in
        final_sweep self finished last' rest' h'
      else final_sweep self (finished ++ [last]) current rest' h
  end.

Definition _final_dedup_pass (self : t) (matches : list (CombinedMatch loc))
    (h : store) : list (CombinedMatch loc) * store :=
  match matches with
  | [] => ([], h)
  | first :: rest => final_sweep self [] first rest h
  end.

(** [deduplicate] up to [final_matches]. *)
Definition reconcile (self : t) (h : store)
    (keyword_matches : list (KeywordMatch loc))
    (semantic_matches : list SemanticMatch)
    : list (CombinedMatch loc) * store :=
  let (combined_matches, h1) :=
    fold_left (add_semantic self) semantic_matches
              (map seed keyword_matches, h) in
  _final_dedup_pass self (Py.sort_by (@char_start _) combined_matches) h1.

(** [deduplicate]: the statistics it prints divide by
    [len(final_matches)]. *)
Definition deduplicate (self : t) (h : store)
    (keyword_matches : list (KeywordMatch loc))
    (semantic_matches : list SemanticMatch)
    : outcome (list (CombinedMatch loc)) * store :=
  let (final_matches, h') :=
    reconcile self h keyword_matches semantic_matches in
  if Py.nonempty final_matches then (Returned final_matches, h')
  else (Raised (Py.of_string "ZeroDivisionError"), h').

End FinalPass.

End CrossStoreDeduplicator.

(** ** activity_classifier.py: [deduplicate_excerpts] *)

(** [ratio a b] is [difflib.SequenceMatcher(None, a, b).ratio()]. *)
Class SequenceMatcher : Type := {
  ratio : Py.str -> Py.str -> Q
}.

Module ActivityClassifier.

(** A result dict: its ['chunk_id'], its ['text'] ([None] when the key is
    absent or the value is [None]) and its other entries. *)
Record result (P : Type) : Type := mkResult {
  r_chunk_id : Py.str;
  r_text : option Py.str;
  r_other : P
}.

Section Dedup.

Context {P : Type} {Sm : SequenceMatcher}.

(** [r['text']] *)
Definition text_of (r : result P) : Py.str :=
  match r_text r with Some t => t | None => [] end.

(** [r.get('text') and len(r['text'].strip()) > 0] *)
Definition has_text (r : result P) : bool :=
  match r_text r with
  | Some t => Py.nonempty t && (Py.len (Py.strip t) >? 0)
  | None => false
  end.

(** [result['text'].strip().lower()] *)
Definition normalized (r : result P) : Py.str :=
  Py.lower (Py.strip (text_of r)).

(** The loop [for unique in unique_results], left at its [break]. *)
Fixpoint is_duplicate (similarity_threshold : Q) (r : result P)
    (unique_results : list (result P)) : bool :=
  match unique_results with
  | [] => false
  | unique :: rest =>
      if Qgeb (ratio (normalized r) (normalized unique)) similarity_threshold
      then true
      else is_duplicate similarity_threshold r rest
  end.

(** The body of [for result in non_empty]. *)
Definition keep_unique (similarity_threshold : Q)
    (unique_results : list (result P)) (r : result P) : list (result P) :=
  if is_duplicate similarity_threshold r unique_results
  then unique_results
  else unique_results ++ [r].

Definition deduplicate_excerpts (results : list (result P))
    (similarity_threshold : Q) : list (result P) :=
  let non_empty := List.filter has_text results in
  if negb (Py.nonempty non_empty) then []
  else
    let sorted :=
      Py.sort_by (fun x => - Py.len (text_of x)) non_empty in
    fold_left (keep_unique similarity_threshold) sorted [].

End Dedup.

Section Padding.

Context {P : Type}.

(** AWS Bedrock requires this many records for a batch job. *)
Definition MIN_BATCH_SIZE : Z := 100.

(** The body of [for i in range(shortage)] of [prepare_activity_input]: a
    copy of [excerpts_to_process[i % len(excerpts_to_process)]] with a
    marked ['chunk_id']. [first] is the first excerpt of the list, which is
    not empty. *)
Definition duplicate (first : result P) (excerpts : list (result P))
    (i : nat) : result P :=
  let original := nth (i mod length excerpts) excerpts first in
  mkResult (r_chunk_id original ++ Py.of_string "_ACTIVITY_DUP_"
            ++ Py.str_of_nat (i + 1))
           (r_text original) (r_other original).

(** [excerpts_to_process] of [prepare_activity_input], from which the
    requests are made, one for each excerpt; [i % 0] raises. *)
Definition excerpts_to_process (extracted_excerpts : list (result P))
    : outcome (list (result P)) :=
  if Py.len extracted_excerpts <? MIN_BATCH_SIZE then
    let shortage := MIN_BATCH_SIZE - Py.len extracted_excerpts in
    match extracted_excerpts with
    | [] => Raised (Py.of_string "ZeroDivisionError")
    | first :: _ =>
        Returned
          (extracted_excerpts
           ++ map (duplicate first extracted_excerpts)
                  (seq 0 (Z.to_nat shortage)))
    end
  else Returned extracted_excerpts.

(** [[a for a in activities if '_ACTIVITY_DUP_' not in a['chunk_id']]] of
    [download_and_parse_results]; an activity is a record of its
    ['chunk_id'] and its other entries. *)
Definition original_activities (activities : list (result P))
    : list (result P) :=
  List.filter
    (fun a => negb (Py.contains (r_chunk_id a)
                                (Py.of_string "_ACTIVITY_DUP_")))
    activities.

End Padding.

End ActivityClassifier.

(** ** keyword_search.py and semantic_search.py: the summary of a document *)

Module KeywordSearch.





Section ProcessPad.

Context {Tk : NLTK} {Re : Regex} {So : SetOrder}.


End ProcessPad.

End KeywordSearch.

Module SemanticSearch.

(** The loop [for match in matches] of [process_pad_semantic_search]. *)
Definition count_sectors (ms : list SemanticMatch) : list (Py.str * Z) :=
  fold_left (fun counts m => Py.count_add (sm_sector m) counts) ms [].

End SemanticSearch.

(** ** deduplication.py: [process_pad_with_deduplication] *)

Module Deduplication.

(** The dicts that [json_to_keyword_matches] and [json_to_semantic_matches]
    return. *)
Record pad_matches (M : Type) : Type := mkPadMatches {
  pm_file_name : Py.str;
  pm_project_id : Py.str;
  pm_matches : list M
}.

(** The dict that [process_pad_with_deduplication] returns. *)
Record combined_result : Type := mkCombinedResult {
  file_name : Py.str;
  project_id : Py.str;
  total_matches : Z;
  found_by_keyword_only : Z;
  found_by_semantic_only : Z;
  found_by_both : Z;
  matches : list (CombinedMatch CrossStoreDeduplicator.loc)
}.

(** [len([m for m in combined_matches if m.found_by == tag])] *)
Definition count_found_by (tag : Py.str)
    (ms : list (CombinedMatch CrossStoreDeduplicator.loc)) : Z :=
  Py.len (List.filter (fun m => Py.str_eqb (found_by m) tag) ms).

Section ProcessPad.

Context {So : SetOrder}.

Definition process_pad_with_deduplication (h : CrossStoreDeduplicator.store)
    (keyword_results : pad_matches (KeywordMatch CrossStoreDeduplicator.loc))
    (semantic_results : pad_matches SemanticMatch)
    : outcome combined_result * CrossStoreDeduplicator.store :=
  match CrossStoreDeduplicator.__init__ (1 # 2) with
  | Raised e => (Raised e, h)
  | Returned deduplicator =>
      match CrossStoreDeduplicator.deduplicate deduplicator h
              (pm_matches keyword_results) (pm_matches semantic_results) with
      | (Returned combined_matches, h') =>
          (Returned
             (mkCombinedResult
                (pm_file_name keyword_results)
                (pm_project_id keyword_results)
                (Py.len combined_matches)
                (count_found_by keyword_only combined_matches)
                (count_found_by semantic_only combined_matches)
                (count_found_by both combined_matches)
                combined_matches),
           h')
      | (Raised e, h') => (Raised e, h')
      end
  end.

End ProcessPad.

End Deduplication.

(** ** bedrock_classifier.py: [prepare_batch_input] *)

Module BedrockBatchClassifier.

(** [f"batch_{batch_idx}"], the ['recordId'] of a request. *)
Definition record_id (batch_idx : nat) : Py.str :=
  Py.of_string "batch_" ++ Py.str_of_nat batch_idx.

Section Batches.

Context {A : Type}.

(** The loop [for i in range(0, len(chunks), batch_size)]. *)
Definition batches (chunks : list A) (batch_size : Z)
    : outcome (list (list A)) :=
  match Py.range_from_0 (Py.len chunks) batch_size with
  | None => Raised (Py.of_string "ValueError")
  | Some starts =>
      Returned (map (fun i => Py.slice chunks i (i + batch_size)) starts)
  end.

(** The requests of [prepare_batch_input], one for each batch: a request
    is the pair of its ['recordId'] and of the chunks that its prompt
    holds. *)
Definition requests (chunks : list A) (batch_size : Z)
    : outcome (list (Py.str * list A)) :=
  match batches chunks batch_size with
  | Returned bs => Returned (combine (map record_id (seq 0 (length bs))) bs)
  | Raised e => Raised e
  end.

End Batches.

End BedrockBatchClassifier.

(** ** run_results_processing.py *)

Module ResultsProcessing.

Section Mapping.

Context {A : Type}.

(** [batch_to_original]: the loop [for i, chunk in enumerate(all_chunks)];
    the state is the dict and the index. *)
Definition batch_to_original (all_chunks : list A) : list (Py.str * A) :=
  fst (fold_left
         (fun st chunk =>
            let '(d, i) := st in
            (Py.dict_set (Py.of_string "batch_" ++ Py.str_of_nat i) chunk d,
             S i))
         all_chunks ([], 0%nat)).

(** [batch_to_original[chunk_id]] under [if chunk_id in
    batch_to_original]. *)
Definition original_chunk (all_chunks : list A) (chunk_id : Py.str)
    : option A :=
  Py.dict_get chunk_id (batch_to_original all_chunks).

End Mapping.

End ResultsProcessing.

(** * Vocabulary of the statements *)

Module Spec.

(** The distinct elements of a list of positions, in the order of their
    first occurrence. *)
Fixpoint first_occurrences (ks : list (Z * Z)) : list (Z * Z) :=
  match ks with
  | [] => []
  | k :: rest =>
      k :: List.filter (fun k' => negb (SemanticSearcher.position_eqb k k'))
                       (first_occurrences rest)
  end.

(** [m] is, among the matches of [ms] at its position, the first one of
    maximal score. *)
Definition first_best (ms : list SemanticMatch) (m : SemanticMatch) : Prop :=
  exists pre post,
    ms = pre ++ m :: post
    /\ (forall m', In m' pre ->
          SemanticSearcher.position m' = SemanticSearcher.position m ->
          (sm_similarity_score m' < sm_similarity_score m)%Q)
    /\ (forall m', In m' post ->
          SemanticSearcher.position m' = SemanticSearcher.position m ->
          (sm_similarity_score m' <= sm_similarity_score m)%Q).

(** [l] keeps some elements of [l'], in their order. *)
Inductive subseq {A : Type} : list A -> list A -> Prop :=
| subseq_nil : subseq [] []
| subseq_skip x l l' : subseq l l' -> subseq l (x :: l')
| subseq_keep x l l' : subseq l l' -> subseq (x :: l) (x :: l').

(** The characters a list of ranges [[start, end)] covers. *)
Definition covered (ranges : list (Z * Z)) (x : Z) : Prop :=
  exists r, In r ranges /\ fst r <= x < snd r.

(** Every range of [inner] lies inside one range of [outer]. *)
Definition contained (inner outer : list (Z * Z)) : Prop :=
  forall r, In r inner ->
    exists r', In r' outer /\ fst r' <= fst r /\ snd r <= snd r'.

Definition combined_range {L : Type} (c : CombinedMatch L) : Z * Z :=
  (char_start c, char_end c).

Definition keyword_range {L : Type} (k : KeywordMatch L) : Z * Z :=
  (km_char_start k, km_char_end k).

Definition semantic_range (m : SemanticMatch) : Z * Z :=
  (sm_char_start m, sm_char_end m).

(** The overlap of two ranges, in characters (not positive when they are
    disjoint). *)
Definition overlap_length (a b : Z * Z) : Z :=
  Z.min (snd a) (snd b) - Z.max (fst a) (fst b).

(** The overlap ratio of the glossary: the overlap length divided by the
    length of the reference span, 0 when the spans are disjoint. *)
Definition overlap_ratio (reference other : Z * Z) : Q :=
  if 0 <? overlap_length reference other
  then (inject_Z (overlap_length reference other)
        / inject_Z (snd reference - fst reference))%Q
  else 0%Q.

(** A reconciled span that may absorb the semantic span [m]: it includes
    the keyword source and the overlap, as a ratio of the length of [m],
    meets the threshold. *)
Definition sufficient_overlap (threshold : Q) (m : SemanticMatch)
    (c : CombinedMatch nat) : Prop :=
  In keyword_search (sources c)
  /\ (threshold <= overlap_ratio (semantic_range m) (combined_range c))%Q.

(** Adjacent spans, in the order of their starts, overlap by less than
    half of the earlier span. *)
Definition no_residual_overlap (spans : list (Z * Z)) : Prop :=
  forall l1 a b l2,
    Py.sort_by fst spans = l1 ++ a :: b :: l2 ->
    (overlap_ratio a b < 1 # 2)%Q.

(** Simple collaborators, on which the embedding runs: words and
    sentences cut at whitespace and kept whole, no lemmatization, a phrase
    matched letter by letter with one space between its words, and an
    embedding for which every chunk is as similar to every query. *)
Definition plain_nltk : NLTK :=
  {| word_tokenize := Py.split_whitespace;
     sent_tokenize := fun t => if Py.nonempty t then [t] else [];
     lemmatize := fun w _ => w |}.

Fixpoint scan_phrase (phrase s : Py.str) (i : Z) (skip : nat)
    : list (Z * Z) :=
  match s with
  | [] => []
  | _ :: rest =>
      if Nat.eqb skip 0 && Py.nonempty phrase && Py.startswith s phrase
      then (i, i + Py.len phrase)
           :: scan_phrase phrase rest (i + 1) (length phrase - 1)
      else scan_phrase phrase rest (i + 1) (skip - 1)
  end.

Definition literal_regex : Regex :=
  {| finditer_phrase :=
       fun ws text_lower => scan_phrase (Py.join_space ws) text_lower 0 0 |}.

Definition uniform_embedder : Embedder :=
  {| similarities := fun _ chunk_texts => map (fun _ => 1 # 2) chunk_texts;
     argsort_descending := fun sims => seq 0 (length sims) |}.

(** The dict that [_deduplicate_by_position] has built from [ms]: its keys
    are the positions of [ms], in the order of first occurrence, and each
    key holds the first best match of [ms] at that position. *)
Definition position_map_of (ms : list SemanticMatch)
    (pm : list (Z * Z * SemanticMatch)) : Prop :=
  map fst pm = first_occurrences (map SemanticSearcher.position ms)
  /\ Forall (fun kv => fst kv = SemanticSearcher.position (snd kv)
                       /\ first_best ms (snd kv))
            pm.

(** The order of a sort by [key]. *)
Definition key_le {A : Type} (key : A -> Z) (x y : A) : Prop :=
  key x <= key y.

(** No record of [l] reaches the threshold against a record before it. *)
Definition no_duplicate {P : Type} {Sm : SequenceMatcher}
    (similarity_threshold : Q) (l : list (ActivityClassifier.result P))
    : Prop :=
  forall l1 r l2,
    l = l1 ++ r :: l2 ->
    ActivityClassifier.is_duplicate similarity_threshold r l1 = false.

(** [sum(len(p) + 2 for p in ps)] *)
Definition total_len (ps : list Py.str) : Z :=
  fold_right (fun p acc => Py.len p + 2 + acc) 0 ps.

(** A chunk has a non-empty text and a range, from a non-negative start,
    that is longer than the text. *)
Definition chunk_ok (c : SemanticSearcher.chunk) : Prop :=
  let '(t, s, e) := c in 0 <= s < e /\ 0 < Py.len t < e - s.

(** The invariant of the loop of [_create_chunks]. *)
Definition chunker_ok (st : SemanticSearcher.chunker) : Prop :=
  Forall chunk_ok (SemanticSearcher.chunks st)
  /\ 0 <= SemanticSearcher.current_pos st
  /\ (Py.nonempty (SemanticSearcher.current_chunk st) = true ->
      0 <= SemanticSearcher.chunk_start st
      /\ Py.len (SemanticSearcher.current_chunk st) + 1
         <= SemanticSearcher.current_pos st - SemanticSearcher.chunk_start st
      /\ Py.nonempty (Py.strip (SemanticSearcher.current_chunk st)) = true).

(** What the sweep of [_merge_overlapping] establishes between a returned
    span [a] and the next one [b]: [b] starts at an input match [m], not
    longer than [b], whose overlap with [a] is at most half of the length
    of [a]. *)
Definition seeded_after (matches : list (KeywordMatch (list Py.str)))
    (a b : KeywordMatch (list Py.str)) : Prop :=
  km_char_start a <= km_char_start b
  /\ exists m,
       In m matches
       /\ km_char_start m = km_char_start b
       /\ km_char_end m <= km_char_end b
       /\ (overlap_ratio (keyword_range a) (keyword_range m) <= 1 # 2)%Q.




(** Matches and documents of the examples. *)
Definition example_keyword (start end_ : Z) (kws : nat) : KeywordMatch nat :=
  mkKeywordMatch (Py.of_string "keyword_0000") (Py.of_string "lexical")
                 kws start end_ keyword_search [] 0.

Definition example_semantic (start end_ : Z) (score : Q) : SemanticMatch :=
  mkSemanticMatch (Py.of_string "semantic_0000") (Py.of_string "semantic")
                  score (Py.of_string "query...") (Py.of_string "sector")
                  start end_ semantic_search.

Definition example_match (start end_ : Z) (keyword : String.string)
    : KeywordMatch (list Py.str) :=
  mkKeywordMatch (Py.of_string "keyword_0000") (Py.of_string "excerpt")
                 [Py.of_string keyword] start end_ keyword_search [] 0.

Arguments example_match start end_ keyword%_string.

Definition example_record (chunk_id text : String.string)
    : ActivityClassifier.result unit :=
  ActivityClassifier.mkResult (Py.of_string chunk_id)
                              (Some (Py.of_string text)) tt.

Arguments example_record (chunk_id text)%_string.

(** Two paragraphs of 100 and 450 characters. *)
Definition two_paragraphs : Py.str :=
  repeat "a"%char 100 ++ [Py.newline; Py.newline] ++ repeat "b"%char 450.


(** A possible order of [list(set(l))]: the order of first occurrence. *)
Fixpoint distinct (l : list Py.str) : list Py.str :=
  match l with
  | [] => []
  | x :: rest =>
      x :: List.filter (fun y => negb (Py.str_eqb x y)) (distinct rest)
  end.

Definition first_occurrence_order : SetOrder :=
  {| list_of_set := distinct |}.

(** The provenance tag of a reconciled span agrees with its sources: a
    span found by the keywords only has the single source [keyword_search]
    and the default semantic fields; a span found by the semantic search
    only has the single source [semantic_search]; a span found by both
    lists both sources and no other. *)
Definition provenance_ok (c : CombinedMatch nat) : Prop :=
  (found_by c = keyword_only /\ sources c = [keyword_search]
   /\ similarity_score c = 0%Q /\ matched_query c = [] /\ sector c = [])
  \/ (found_by c = semantic_only /\ sources c = [semantic_search])
  \/ (found_by c = both
      /\ In keyword_search (sources c) /\ In semantic_search (sources c)
      /\ forall s, In s (sources c) ->
                   s = keyword_search \/ s = semantic_search).

(** [p] occurs in [t]. *)
Definition infix (p t : Py.str) : Prop :=
  exists before after, t = before ++ p ++ after.

(** The chunks follow one another: a chunk starts before the end of the
    one before it, by at most [overlap] characters, and ends after it. *)
Fixpoint chained (overlap : Z) (chs : list SemanticSearcher.chunk) : Prop :=
  match chs with
  | [] => True
  | c :: rest =>
      match rest with
      | [] => True
      | c' :: _ =>
          snd c - overlap <= snd (fst c') < snd c
          /\ snd (fst c) < snd (fst c')
          /\ snd c < snd c'
      end /\ chained overlap rest
  end.

(** [q] begins and ends with a character that is not whitespace. *)
Definition tight (q : Py.str) : Prop :=
  (exists c q', q = c :: q' /\ Py.isspace c = false)
  /\ (exists q' d, q = q' ++ [d] /\ Py.isspace d = false).

(** The chunker holds [q]: in the text of a chunk it has made, or in the
    chunk it is building. *)
Definition held (st : SemanticSearcher.chunker) (q : Py.str) : Prop :=
  (exists c, In c (SemanticSearcher.chunks st) /\ infix q (fst (fst c)))
  \/ infix q (SemanticSearcher.current_chunk st).

(** Each chunk begins with the whole text of the chunk before it. *)
Fixpoint cumulative (chs : list SemanticSearcher.chunk) : Prop :=
  match chs with
  | [] => True
  | c :: rest =>
      match rest with
      | [] => True
      | c' :: _ => exists more, fst (fst c') = fst (fst c) ++ " "%char :: more
      end /\ cumulative rest
  end.

(** The identifiers [ids] are [prefix] followed by the position in the
    list, on four digits. *)
Definition numbered (prefix : Py.str) (ids : list Py.str) : Prop :=
  ids = map (fun i => prefix ++ Py.format_04d i) (seq 0 (length ids)).

(** The sum of the counts of a dict of counts. *)
Definition count_total (counts : list (Py.str * Z)) : Z :=
  fold_right (fun kv acc => snd kv + acc) 0 counts.

(** How many times [s] occurs in [l]. *)
Definition occurrences (s : Py.str) (l : list Py.str) : Z :=
  Py.len (List.filter (Py.str_eqb s) l).

(** What a dict of counts holds for a key that was counted [n] times. *)
Definition counted (n : Z) : option Z :=
  if n =? 0 then None else Some n.

End Spec.

(** * Properties *)

(** ** Python strings *)

Module PyFacts.

Import Py.

Lemma len_nonneg {A : Type} (l : list A) : 0 <= len l.
Proof. unfold len. lia. Qed.

Lemma len_app {A : Type} (l1 l2 : list A) : len (l1 ++ l2) = len l1 + len l2.
Proof. unfold len. rewrite length_app. lia. Qed.

Lemma len_cons {A : Type} (x : A) (l : list A) : len (x :: l) = 1 + len l.
Proof. unfold len. simpl length. lia. Qed.

Lemma len_nil {A : Type} : len (@nil A) = 0.
Proof. reflexivity. Qed.

Lemma nonempty_len {A : Type} (l : list A) : nonempty l = true <-> 0 < len l.
Proof.
  destruct l; simpl; split; intro H; try discriminate; reflexivity.
Qed.

Lemma nonempty_false {A : Type} (l : list A) : nonempty l = false <-> l = [].
Proof. destruct l; simpl; split; congruence. Qed.

Lemma str_eqb_eq (a b : str) : str_eqb a b = true <-> a = b.
Proof.
  revert b. induction a as [|x a IH]; intros [|y b]; simpl;
    try (split; congruence).
  rewrite andb_true_iff, Ascii.eqb_eq, IH. split.
  - intros [-> ->]. reflexivity.
  - intros H. injection H as -> ->. auto.
Qed.

Lemma str_eqb_refl (a : str) : str_eqb a a = true.
Proof. apply str_eqb_eq. reflexivity. Qed.

(** [lstrip] removes a prefix made of whitespace only. *)
Lemma lstrip_split (s : str) :
  exists pre, s = pre ++ lstrip s /\ Forall (fun c => isspace c = true) pre.
Proof.
  induction s as [|c s [pre [E F]]]; simpl.
  - exists []. auto.
  - destruct (isspace c) eqn:Hc.
    + exists (c :: pre). split; [simpl; congruence | constructor; assumption].
    + exists []. auto.
Qed.

Lemma lstrip_head (s : str) :
  match lstrip s with
  | [] => True
  | c :: _ => isspace c = false
  end.
Proof.
  induction s as [|c s IH]; simpl; [exact I|].
  destruct (isspace c) eqn:Hc; [exact IH | exact Hc].
Qed.

Lemma lstrip_fixed (c : ascii) (s : str) :
  isspace c = false -> lstrip (c :: s) = c :: s.
Proof. intros H. simpl. rewrite H. reflexivity. Qed.

(** [rstrip] removes a suffix made of whitespace only. *)
Lemma rstrip_split (s : str) :
  exists post, s = rstrip s ++ post /\ Forall (fun c => isspace c = true) post.
Proof.
  unfold rstrip. destruct (lstrip_split (rev s)) as [pre [E F]].
  exists (rev pre). split.
  - rewrite <- rev_app_distr, <- E, rev_involutive. reflexivity.
  - apply Forall_rev. exact F.
Qed.

Lemma strip_split (s : str) :
  exists pre post,
    s = pre ++ strip s ++ post
    /\ Forall (fun c => isspace c = true) pre
    /\ Forall (fun c => isspace c = true) post.
Proof.
  destruct (lstrip_split s) as [pre [E F]].
  destruct (rstrip_split (lstrip s)) as [post [E' F']].
  exists pre, post. unfold strip. rewrite <- E'. auto.
Qed.

Lemma len_strip_le (s : str) : len (strip s) <= len s.
Proof.
  destruct (strip_split s) as [pre [post [E _]]].
  rewrite E at 2. rewrite !len_app.
  pose proof (len_nonneg pre). pose proof (len_nonneg post). lia.
Qed.

(** A string that holds a character that is not whitespace does not strip
    to the empty string. *)
Lemma strip_nonempty (s : str) (c : ascii) :
  In c s -> isspace c = false -> nonempty (strip s) = true.
Proof.
  intros Hin Hc. destruct (strip_split s) as [pre [post [E [Fpre Fpost]]]].
  destruct (strip s) as [|x r]; [|reflexivity].
  rewrite E in Hin. simpl in Hin. apply in_app_or in Hin.
  rewrite Forall_forall in Fpre, Fpost.
  destruct Hin as [H|H]; [apply Fpre in H | apply Fpost in H]; congruence.
Qed.

Lemma strip_head (s : str) :
  match strip s with
  | [] => True
  | c :: _ => isspace c = false
  end.
Proof.
  destruct (rstrip_split (lstrip s)) as [post [E F]].
  fold (strip s) in E. pose proof (lstrip_head s) as H.
  rewrite E in H. destruct (strip s); [exact I | exact H].
Qed.


Lemma slice_index_range (n i : Z) : 0 <= n -> 0 <= slice_index n i <= n.
Proof. unfold slice_index. destruct (i <? 0) eqn:E; lia. Qed.


Lemma len_skipn {A : Type} (l : list A) (k : nat) :
  len (skipn k l) = Z.max 0 (len l - Z.of_nat k).
Proof. unfold len. rewrite length_skipn. lia. Qed.

Lemma len_firstn {A : Type} (l : list A) (k : nat) :
  len (firstn k l) = Z.min (Z.of_nat k) (len l).
Proof. unfold len. rewrite length_firstn. lia. Qed.


Lemma len_slice_le {A : Type} (s : list A) (lo hi : Z) :
  0 <= lo -> len (slice s lo hi) <= Z.max 0 (len s - lo).
Proof.
  intros H. unfold slice. rewrite len_firstn, len_skipn.
  pose proof (len_nonneg s).
  pose proof (slice_index_range lo H0).
  pose proof (slice_index_range hi H0).
  unfold slice_index in *. destruct (lo <? 0) eqn:E; lia.
Qed.

(** [s[lo:]] is a suffix of [s]. *)
Lemma slice_from_suffix {A : Type} (s : list A) (lo : Z) :
  exists pre, s = pre ++ slice_from s lo.
Proof.
  unfold slice_from. eexists. symmetry. apply firstn_skipn.
Qed.

Lemma len_slice_from_le {A : Type} (s : list A) (lo : Z) :
  len (slice_from s lo) <= len s.
Proof.
  destruct (slice_from_suffix s lo) as [pre E]. rewrite E at 2.
  rewrite len_app. pose proof (len_nonneg pre). lia.
Qed.

End PyFacts.

(** ** Semantic matches deduplicated by position *)

Module SemanticFacts.

Import SemanticSearcher Spec.

Lemma position_eqb_eq (a b : Z * Z) : position_eqb a b = true <-> a = b.
Proof.
  destruct a as [a1 a2], b as [b1 b2]. unfold position_eqb. simpl.
  rewrite andb_true_iff, !Z.eqb_eq. split.
  - intros [-> ->]. reflexivity.
  - intros H. injection H as -> ->. auto.
Qed.

Lemma position_eqb_neq (a b : Z * Z) : position_eqb a b = false <-> a <> b.
Proof.
  rewrite <- position_eqb_eq. destruct (position_eqb a b); split; congruence.
Qed.

Lemma position_dec (a b : Z * Z) : {a = b} + {a <> b}.
Proof.
  destruct (position_eqb a b) eqn:E.
  - left. apply position_eqb_eq. exact E.
  - right. apply position_eqb_neq. exact E.
Defined.

Lemma first_occurrences_In (ks : list (Z * Z)) (k : Z * Z) :
  In k (first_occurrences ks) <-> In k ks.
Proof.
  induction ks as [|a ks IH]; simpl; [tauto|].
  rewrite filter_In, IH, negb_true_iff, position_eqb_neq.
  destruct (position_dec a k); intuition congruence.
Qed.

Lemma first_occurrences_NoDup (ks : list (Z * Z)) :
  NoDup (first_occurrences ks).
Proof.
  induction ks as [|a ks IH]; simpl; constructor.
  - rewrite filter_In, negb_true_iff, position_eqb_neq. intros [_ H].
    congruence.
  - apply NoDup_filter. exact IH.
Qed.

Lemma first_occurrences_snoc (ks : list (Z * Z)) (k : Z * Z) :
  first_occurrences (ks ++ [k])
  = if in_dec position_dec k ks then first_occurrences ks
    else first_occurrences ks ++ [k].
Proof.
  induction ks as [|a ks IH]; simpl; [reflexivity|].
  rewrite IH. destruct (position_dec a k) as [->|Hne].
  - destruct (in_dec position_dec k ks); [reflexivity|].
    rewrite filter_app. simpl.
    replace (position_eqb k k) with true
      by (symmetry; apply position_eqb_eq; reflexivity).
    simpl. rewrite app_nil_r. reflexivity.
  - destruct (in_dec position_dec k ks); [reflexivity|].
    rewrite filter_app. simpl.
    replace (position_eqb a k) with false
      by (symmetry; apply position_eqb_neq; exact Hne).
    reflexivity.
Qed.

(** A position that the dict does not hold is added at its end. *)
Lemma position_map_update_absent m pm :
  ~ In (position m) (map fst pm) ->
  position_map_update m pm = pm ++ [(position m, m)].
Proof.
  induction pm as [|[key held] pm IH]; simpl; intros H; [reflexivity|].
  replace (position_eqb key (position m)) with false
    by (symmetry; apply position_eqb_neq; tauto).
  rewrite IH by tauto. reflexivity.
Qed.

(** A position that the dict holds keeps its place; its match is replaced
    by a strictly better one only. *)
Lemma position_map_update_present m pm1 held pm2 :
  ~ In (position m) (map fst pm1) ->
  position_map_update m (pm1 ++ (position m, held) :: pm2)
  = pm1 ++ (position m,
            if Qgtb (sm_similarity_score m) (sm_similarity_score held)
            then m else held) :: pm2.
Proof.
  induction pm1 as [|[key v] pm1 IH]; simpl; intros H.
  - replace (position_eqb (position m) (position m)) with true
      by (symmetry; apply position_eqb_eq; reflexivity).
    destruct (Qgtb _ _); reflexivity.
  - replace (position_eqb key (position m)) with false
      by (symmetry; apply position_eqb_neq; tauto).
    rewrite IH by tauto. reflexivity.
Qed.

Lemma Qgtb_true (a b : Q) : Qgtb a b = true <-> (b < a)%Q.
Proof.
  unfold Qgtb. rewrite negb_true_iff. split.
  - intros H. apply Qnot_le_lt. intros Hle.
    apply Qle_bool_iff in Hle. congruence.
  - intros H. destruct (Qle_bool a b) eqn:E; [|reflexivity].
    apply Qle_bool_iff in E. exfalso. exact (Qlt_not_le _ _ H E).
Qed.

Lemma Qgtb_false (a b : Q) : Qgtb a b = false <-> (a <= b)%Q.
Proof.
  unfold Qgtb. rewrite negb_false_iff. apply Qle_bool_iff.
Qed.

Lemma Qgeb_true (a b : Q) : Qgeb a b = true <-> (b <= a)%Q.
Proof. unfold Qgeb. apply Qle_bool_iff. Qed.


Lemma first_best_later ms m v :
  first_best ms v ->
  (position m = position v ->
   (sm_similarity_score m <= sm_similarity_score v)%Q) ->
  first_best (ms ++ [m]) v.
Proof.
  intros [pre [post [E [Hpre Hpost]]]] Hm.
  exists pre, (post ++ [m]). split; [|split].
  - rewrite E, <- app_assoc. reflexivity.
  - exact Hpre.
  - intros m' Hin Hp. apply in_app_or in Hin. destruct Hin as [Hin|[<-|[]]].
    + apply Hpost; assumption.
    + apply Hm. exact Hp.
Qed.

Lemma first_best_max ms v m' :
  first_best ms v -> In m' ms -> position m' = position v ->
  (sm_similarity_score m' <= sm_similarity_score v)%Q.
Proof.
  intros [pre [post [E [Hpre Hpost]]]] Hin Hp. rewrite E in Hin.
  apply in_app_or in Hin. destruct Hin as [Hin|[<-|Hin]].
  - apply Qlt_le_weak. apply Hpre; assumption.
  - apply Qle_refl.
  - apply Hpost; assumption.
Qed.

Lemma position_map_step ms pm m :
  position_map_of ms pm ->
  position_map_of (ms ++ [m]) (position_map_update m pm).
Proof.
  intros [Hkeys Hall]. unfold position_map_of.
  rewrite map_app. simpl map. rewrite first_occurrences_snoc.
  assert (Hnd : NoDup (map fst pm))
    by (rewrite Hkeys; apply first_occurrences_NoDup).
  destruct (in_dec position_dec (position m) (map position ms)) as [Hin|Hnin].
  - assert (Hk : In (position m) (map fst pm))
      by (rewrite Hkeys; apply first_occurrences_In; exact Hin).
    apply in_map_iff in Hk. destruct Hk as [[key held] [Ekey Hkv]].
    simpl in Ekey. subst key.
    apply in_split in Hkv. destruct Hkv as [pm1 [pm2 Epm]]. subst pm.
    rewrite map_app in Hnd. simpl in Hnd.
    apply NoDup_remove_2 in Hnd.
    assert (H1 : ~ In (position m) (map fst pm1))
      by (intro; apply Hnd; apply in_or_app; left; assumption).
    assert (H2 : ~ In (position m) (map fst pm2))
      by (intro; apply Hnd; apply in_or_app; right; assumption).
    rewrite position_map_update_present by exact H1.
    split.
    + rewrite <- Hkeys, !map_app. reflexivity.
    + rewrite Forall_app in Hall. destruct Hall as [Hall1 Hall2].
      inversion Hall2 as [|? ? [Hheld Hbest] Hall2']; subst. simpl in *.
      apply Forall_app. split; [|constructor].
      * rewrite Forall_forall in Hall1 |- *. intros [k v] Hkv.
        destruct (Hall1 _ Hkv) as [Ek Hb]. simpl in *. split; [exact Ek|].
        apply first_best_later; [exact Hb|]. intros Hp. exfalso.
        apply H1. apply in_map_iff. exists (k, v). simpl. split; congruence.
      * destruct (Qgtb _ _) eqn:Hgt; simpl.
        -- split; [reflexivity|].
           exists ms, []. split; [reflexivity|split].
           ++ intros m' Hm' Hp. apply Qgtb_true in Hgt.
              eapply Qle_lt_trans; [|exact Hgt].
              apply first_best_max with (ms := ms); congruence.
           ++ intros m' [].
        -- split; [exact Hheld|].
           apply first_best_later; [exact Hbest|]. intros _.
           apply Qgtb_false. exact Hgt.
      * rewrite Forall_forall in Hall2' |- *. intros [k v] Hkv.
        destruct (Hall2' _ Hkv) as [Ek Hb]. simpl in *. split; [exact Ek|].
        apply first_best_later; [exact Hb|]. intros Hp. exfalso.
        apply H2. apply in_map_iff. exists (k, v). simpl. split; congruence.
  - assert (Hk : ~ In (position m) (map fst pm))
      by (rewrite Hkeys, first_occurrences_In; exact Hnin).
    rewrite position_map_update_absent by exact Hk. split.
    + rewrite map_app, Hkeys. reflexivity.
    + apply Forall_app. split.
      * rewrite Forall_forall in Hall |- *. intros [k v] Hkv.
        destruct (Hall _ Hkv) as [Ek Hb]. simpl in *. split; [exact Ek|].
        apply first_best_later; [exact Hb|]. intros Hp. exfalso.
        apply Hk. apply in_map_iff. exists (k, v). simpl. split; congruence.
      * constructor; [|constructor]. simpl. split; [reflexivity|].
        exists ms, []. split; [reflexivity|split].
        -- intros m' Hm' Hp. exfalso. apply Hnin. rewrite <- Hp.
           apply in_map. exact Hm'.
        -- intros m' [].
Qed.

Lemma position_map_fold ms :
  position_map_of ms (fold_left (fun pm m => position_map_update m pm) ms []).
Proof.
  induction ms as [|m ms IH] using rev_ind.
  - split; [reflexivity | constructor].
  - rewrite fold_left_app. simpl. apply position_map_step. exact IH.
Qed.

(** C10. [_deduplicate_by_position] returns one match for each distinct
    [(char_start, char_end)] of its input, in the order in which the
    positions first occur in the input (not sorted by offset); the match
    kept for a position is the first one, in input order, among those of
    maximal [similarity_score] at that position: the earlier matches at the
    position score strictly less, the later ones at most as much. *)
Theorem C10_deduplicate_by_position_first_best (ms : list SemanticMatch) :
  map position (_deduplicate_by_position ms)
  = first_occurrences (map position ms)
  /\ Forall (first_best ms) (_deduplicate_by_position ms).
Proof.
  unfold _deduplicate_by_position.
  destruct (position_map_fold ms) as [Hkeys Hall].
  set (pm := fold_left _ ms []) in *. split.
  - rewrite <- Hkeys. rewrite map_map. apply map_ext_in.
    intros kv Hin. rewrite Forall_forall in Hall.
    symmetry. apply (Hall kv Hin).
  - rewrite Forall_forall in Hall |- *. intros v Hin.
    apply in_map_iff in Hin. destruct Hin as [kv [<- Hkv]].
    apply (Hall kv Hkv).
Qed.

End SemanticFacts.

(** ** Sorting *)

Module SortFacts.

Import Py Spec.

Section Subseq.

Context {A : Type}.

Lemma subseq_In (l l' : list A) (x : A) : subseq l l' -> In x l -> In x l'.
Proof.
  induction 1; simpl; intros Hin; [assumption | tauto |].
  destruct Hin; [left; assumption | right; tauto].
Qed.


Lemma subseq_refl (l : list A) : subseq l l.
Proof. induction l; constructor; assumption. Qed.

Lemma subseq_app_skip (acc l : list A) (x : A) :
  subseq (acc ++ l) (acc ++ x :: l).
Proof.
  induction acc; simpl; constructor; [apply subseq_refl | assumption].
Qed.

Lemma subseq_trans (l1 l2 l3 : list A) :
  subseq l1 l2 -> subseq l2 l3 -> subseq l1 l3.
Proof.
  intros H12 H23. revert l1 H12.
  induction H23 as [|x l2 l3 H IH|x l2 l3 H IH]; intros l1 H12.
  - exact H12.
  - constructor. apply IH. exact H12.
  - inversion H12; subst; constructor; apply IH; assumption.
Qed.

End Subseq.

Section SortBy.

Context {A : Type} (key : A -> Z).

Lemma insert_by_perm (x : A) (l : list A) :
  Permutation (x :: l) (insert_by key x l).
Proof.
  induction l as [|y l IH]; simpl; [reflexivity|].
  destruct (key x <=? key y); [reflexivity|].
  rewrite perm_swap. constructor. exact IH.
Qed.

Lemma sort_by_perm (l : list A) : Permutation l (sort_by key l).
Proof.
  induction l as [|x l IH]; simpl; [constructor|].
  rewrite <- insert_by_perm. constructor. exact IH.
Qed.

Lemma insert_by_sorted (x : A) (l : list A) :
  StronglySorted (key_le key) l -> StronglySorted (key_le key) (insert_by key x l).
Proof.
  induction 1 as [|y l Hs IH Hall]; simpl.
  - constructor; constructor.
  - destruct (key x <=? key y) eqn:E.
    + apply Z.leb_le in E. constructor.
      * constructor; assumption.
      * constructor; [exact E|].
        rewrite Forall_forall in Hall |- *. intros z Hz.
        unfold key_le in *. specialize (Hall z Hz). lia.
    + apply Z.leb_gt in E. constructor; [exact IH|].
      rewrite Forall_forall in Hall |- *. intros z Hz.
      apply Permutation_in with (l' := x :: l) in Hz;
        [|symmetry; apply insert_by_perm].
      destruct Hz as [<-|Hz]; [unfold key_le; lia | apply Hall; exact Hz].
Qed.

Lemma sort_by_sorted (l : list A) : StronglySorted (key_le key) (sort_by key l).
Proof.
  induction l as [|x l IH]; simpl; [constructor|].
  apply insert_by_sorted. exact IH.
Qed.



End SortBy.

End SortFacts.

(** ** Text-similarity deduplication *)

Module ExcerptFacts.

Import ActivityClassifier Spec SortFacts.

Section Dedup.

Context {P : Type} {Sm : SequenceMatcher}.

Variable similarity_threshold : Q.

Local Abbreviation is_dup := (is_duplicate (P := P) similarity_threshold).
Local Abbreviation keep := (keep_unique (P := P) similarity_threshold).
Local Abbreviation no_dup := (no_duplicate (P := P) similarity_threshold).





Lemma sweep_subseq (l acc : list (result P)) :
  subseq (fold_left keep l acc) (acc ++ l).
Proof.
  revert acc. induction l as [|r l IH]; intros acc; simpl.
  - rewrite app_nil_r. apply subseq_refl.
  - unfold keep_unique. destruct (is_dup r acc).
    + eapply subseq_trans; [apply IH | apply subseq_app_skip].
    + specialize (IH (acc ++ [r])). rewrite <- app_assoc in IH. exact IH.
Qed.




End Dedup.


End ExcerptFacts.

(** ** Cross-store reconciliation *)

Module DedupFacts.

Import CrossStoreDeduplicator Spec SortFacts SemanticFacts.

Lemma str_in_In (x : Py.str) (l : list Py.str) :
  Py.str_in x l = true <-> In x l.
Proof.
  unfold Py.str_in. rewrite existsb_exists. split.
  - intros [y [Hy E]]. apply PyFacts.str_eqb_eq in E. congruence.
  - intros H. exists x. split; [exact H | apply PyFacts.str_eqb_refl].
Qed.

(** [_calculate_overlap] is the overlap ratio over its first span. *)
Lemma calculate_overlap_ratio (start1 end1 start2 end2 : Z) :
  _calculate_overlap start1 end1 start2 end2
  = overlap_ratio (start1, end1) (start2, end2).
Proof.
  unfold _calculate_overlap, overlap_ratio, overlap_length. simpl.
  destruct (Z.max start1 start2 >=? Z.min end1 end2) eqn:E1;
    destruct (0 <? Z.min end1 end2 - Z.max start1 start2) eqn:E2;
    try reflexivity; try lia.
  destruct (end1 - start1 >? 0) eqn:E3; [reflexivity | lia].
Qed.

Lemma overlap_ratio_positive (a b : Z * Z) (threshold : Q) :
  (0 < threshold)%Q -> (threshold <= overlap_ratio a b)%Q ->
  0 < overlap_length a b.
Proof.
  intros Hpos Hle. unfold overlap_ratio in Hle.
  destruct (0 <? overlap_length a b) eqn:E; [lia|].
  exfalso. exact (Qlt_not_le _ _ Hpos Hle).
Qed.

Lemma absorbs_iff (self : t) (m : SemanticMatch) (c : CombinedMatch loc) :
  absorbs self m c = true <-> sufficient_overlap (overlap_threshold self) m c.
Proof.
  unfold absorbs, sufficient_overlap.
  rewrite andb_true_iff, str_in_In, Qgeb_true, calculate_overlap_ratio.
  reflexivity.
Qed.

(** The scan stops at the first span that absorbs. *)
Lemma absorb_first (self : t) (m : SemanticMatch)
    (pre post : list (CombinedMatch loc)) (c : CombinedMatch loc) :
  (forall c', In c' pre -> absorbs self m c' = false) ->
  absorbs self m c = true ->
  absorb self m (pre ++ c :: post) = Some (pre ++ absorb_into c m :: post).
Proof.
  intros Hpre Hc. induction pre as [|c' pre IH]; simpl.
  - rewrite Hc. reflexivity.
  - rewrite (Hpre c' (or_introl eq_refl)).
    rewrite IH; [reflexivity|]. intros c'' Hin. apply Hpre. right. exact Hin.
Qed.

Lemma absorb_Some (self : t) (m : SemanticMatch)
    (cms cms' : list (CombinedMatch loc)) :
  absorb self m cms = Some cms' ->
  exists pre c post,
    cms = pre ++ c :: post /\ cms' = pre ++ absorb_into c m :: post
    /\ absorbs self m c = true.
Proof.
  revert cms'. induction cms as [|c cms IH]; simpl; intros cms' H;
    [discriminate|].
  destruct (absorbs self m c) eqn:E.
  - injection H as <-. exists [], c, cms. auto.
  - destruct (absorb self m cms) as [l|]; [|discriminate].
    injection H as <-. destruct (IH l eq_refl) as [pre [c' [post [-> [-> Hc]]]]].
    exists (c :: pre), c', post. auto.
Qed.

(** *** Covered characters *)

Lemma covered_nil (x : Z) : ~ covered [] x.
Proof. intros [r [[] _]]. Qed.

Lemma covered_cons (r : Z * Z) (l : list (Z * Z)) (x : Z) :
  covered (r :: l) x <-> fst r <= x < snd r \/ covered l x.
Proof.
  unfold covered. simpl. split.
  - intros [r' [[<-|Hin] Hx]]; [left; exact Hx | right; eauto].
  - intros [Hx|[r' [Hin Hx]]]; eauto.
Qed.

Lemma covered_app (l1 l2 : list (Z * Z)) (x : Z) :
  covered (l1 ++ l2) x <-> covered l1 x \/ covered l2 x.
Proof.
  unfold covered. split.
  - intros [r [Hin Hx]]. apply in_app_or in Hin. destruct Hin; eauto.
  - intros [[r [Hin Hx]]|[r [Hin Hx]]]; exists r; split; auto;
      apply in_or_app; auto.
Qed.

Lemma covered_perm (l1 l2 : list (Z * Z)) (x : Z) :
  Permutation l1 l2 -> (covered l1 x <-> covered l2 x).
Proof.
  intros Hp. unfold covered. split; intros [r [Hin Hx]]; exists r; split;
    try exact Hx.
  - eapply Permutation_in; eassumption.
  - eapply Permutation_in; [symmetry|]; eassumption.
Qed.

(** Two ranges that overlap cover, together, the range from the smaller
    start to the larger end. *)
Lemma hull_covers (a b : Z * Z) (x : Z) :
  0 < overlap_length a b ->
  (Z.min (fst b) (fst a) <= x < Z.max (snd b) (snd a)
   <-> fst a <= x < snd a \/ fst b <= x < snd b).
Proof. unfold overlap_length. lia. Qed.

Lemma contained_refl (l : list (Z * Z)) : contained l l.
Proof. intros r Hin. exists r. split; [exact Hin | lia]. Qed.

Lemma contained_trans (l1 l2 l3 : list (Z * Z)) :
  contained l1 l2 -> contained l2 l3 -> contained l1 l3.
Proof.
  intros H12 H23 r Hin.
  destruct (H12 r Hin) as [r' [Hin' [Hs He]]].
  destruct (H23 r' Hin') as [r'' [Hin'' [Hs' He']]].
  exists r''. split; [exact Hin'' | lia].
Qed.

Lemma contained_perm (l1 l2 : list (Z * Z)) :
  Permutation l1 l2 -> contained l1 l2.
Proof.
  intros Hp r Hin. exists r. split; [|lia].
  eapply Permutation_in; eassumption.
Qed.

(** Replacing one range and a further range by their hull loses
    nothing. *)
Lemma contained_hull (pre post : list (Z * Z)) (a b : Z * Z) :
  contained (pre ++ a :: post ++ [b])
            (pre ++ (Z.min (fst a) (fst b), Z.max (snd a) (snd b)) :: post).
Proof.
  intros r Hin. apply in_app_or in Hin. destruct Hin as [Hin|[<-|Hin]].
  - exists r. split; [apply in_or_app; left; exact Hin | lia].
  - eexists. split; [apply in_or_app; right; left; reflexivity|].
    simpl. lia.
  - apply in_app_or in Hin. destruct Hin as [Hin|[<-|[]]].
    + exists r. split; [apply in_or_app; right; right; exact Hin | lia].
    + eexists. split; [apply in_or_app; right; left; reflexivity|].
      simpl. lia.
Qed.

Abbreviation ranges := (map (combined_range (L := loc))).

(** *** A threshold above 1 *)

Lemma overlap_ratio_le_1 (a b : Z * Z) : (overlap_ratio a b <= 1)%Q.
Proof.
  unfold overlap_ratio.
  destruct (0 <? overlap_length a b) eqn:E; [|discriminate].
  apply Z.ltb_lt in E. unfold overlap_length in *.
  apply Qle_shift_div_r.
  - change 0%Q with (inject_Z 0). rewrite <- Zlt_Qlt. lia.
  - rewrite Qmult_1_l. rewrite <- Zle_Qle. lia.
Qed.

Lemma absorb_never (self : t) (m : SemanticMatch)
    (cms : list (CombinedMatch loc)) :
  (1 < overlap_threshold self)%Q -> absorb self m cms = None.
Proof.
  intros Hthr. induction cms as [|c cms IH]; simpl; [reflexivity|].
  destruct (absorbs self m c) eqn:E.
  - exfalso. apply absorbs_iff in E. destruct E as [_ E].
    apply (Qlt_not_le _ _ Hthr).
    eapply Qle_trans; [exact E | apply overlap_ratio_le_1].
  - rewrite IH. reflexivity.
Qed.

Lemma fold_add_semantic_length (self : t) (ms : list SemanticMatch)
    (st : list (CombinedMatch loc) * store) :
  (1 < overlap_threshold self)%Q ->
  length (fst (fold_left (add_semantic self) ms st))
  = (length (fst st) + length ms)%nat.
Proof.
  intros Hthr. revert st. induction ms as [|m ms IH]; intros [cms h];
    cbn [fold_left].
  - simpl. lia.
  - rewrite IH. unfold add_semantic. rewrite absorb_never by exact Hthr.
    simpl. rewrite length_app. simpl. lia.
Qed.

(** C6, as stated, fails: the threshold 3/2 lies outside [0, 1] and the
    construction does not raise. *)
Lemma C6_out_of_range_threshold_accepted :
  (1 < 3 # 2)%Q /\ ~ (exists e, __init__ (3 # 2) = Raised e).
Proof.
  split; [reflexivity|]. intros [e H]. discriminate.
Qed.

Section Reconcile.

Context {So : SetOrder}.

(** C3. A semantic span is absorbed by the first reconciled span, in the
    order of [combined_matches], that includes the keyword source and whose
    overlap with it, divided by the semantic span's own length, meets the
    threshold; the semantic spans are taken in input order, each one
    against the spans reconciled from the earlier ones. The spans before
    the absorbing one are left as they are, and the absorbing span
    gets [semantic_search] appended to its sources, the union of the two
    ranges, the score, query and sector of the semantic span, the longer of
    the two texts and [found_by = both]. With the default threshold 0.5, a
    keyword span [100, 200) and a semantic span [150, 250) are reconciled
    into one span [100, 250) tagged [both]. *)
Theorem C3_first_sufficient_keyword_span_absorbs :
  (forall (self : t) (m : SemanticMatch)
          (pre post : list (CombinedMatch loc)) (c : CombinedMatch loc)
          (h : store),
     (forall c', In c' pre ->
                 ~ sufficient_overlap (overlap_threshold self) m c') ->
     sufficient_overlap (overlap_threshold self) m c ->
     add_semantic self (pre ++ c :: post, h) m
     = (pre
        ++ mkCombinedMatch (chunk_id c)
             (if Py.len (sm_text m) >? Py.len (text c)
              then sm_text m else text c)
             (Z.min (char_start c) (sm_char_start m))
             (Z.max (char_end c) (sm_char_end m))
             (sources c ++ [semantic_search])
             (matched_keywords c)
             (sm_similarity_score m) (sm_matched_query m) (sm_sector m)
             both
        :: post, h))
  /\ (forall s1 e1 s2 e2,
        _calculate_overlap s1 e1 s2 e2 = overlap_ratio (s1, e1) (s2, e2))
  /\ (forall (self : t) (st : list (CombinedMatch loc) * store)
             (earlier : list SemanticMatch) (m : SemanticMatch),
        fold_left (add_semantic self) (earlier ++ [m]) st
        = add_semantic self (fold_left (add_semantic self) earlier st) m)
  /\ (forall (h : store) k_id k_text k_kws k_src k_sec k_page
             s_id s_text s_score s_query s_sector s_src,
        exists c,
          deduplicate (mk default_overlap_threshold) h
            [mkKeywordMatch k_id k_text k_kws 100 200 k_src k_sec k_page]
            [mkSemanticMatch s_id s_text s_score s_query s_sector 150 250
                             s_src]
          = (Returned [c], h)
          /\ char_start c = 100 /\ char_end c = 250 /\ found_by c = both
          /\ sources c = [keyword_search; semantic_search]
          /\ similarity_score c = s_score).
Proof.
  split; [|split; [|split]].
  - intros self m pre post c h Hpre Hc. unfold add_semantic.
    rewrite absorb_first with (c := c).
    + reflexivity.
    + intros c' Hin. specialize (Hpre c' Hin).
      rewrite <- absorbs_iff in Hpre. destruct (absorbs self m c'); congruence.
    + apply absorbs_iff. exact Hc.
  - apply calculate_overlap_ratio.
  - intros self st earlier m. apply fold_left_app.
  - intros. eexists. split; [reflexivity|]. simpl. auto.
Qed.

(** *** What one step does to the ranges *)

#[local] Arguments add_semantic : simpl never.
#[local] Arguments merge_last : simpl never.

Lemma absorbs_overlap (self : t) (m : SemanticMatch) (c : CombinedMatch loc) :
  (0 < overlap_threshold self)%Q -> absorbs self m c = true ->
  0 < overlap_length (semantic_range m) (combined_range c).
Proof.
  intros Hpos H. apply absorbs_iff in H. destruct H as [_ H].
  eapply overlap_ratio_positive; eassumption.
Qed.

Lemma merges_overlap (self : t) (last current : CombinedMatch loc) :
  (0 < overlap_threshold self)%Q -> merges self last current = true ->
  0 < overlap_length (combined_range current) (combined_range last).
Proof.
  intros Hpos H. unfold merges in H.
  rewrite Qgeb_true, calculate_overlap_ratio in H.
  eapply overlap_ratio_positive; eassumption.
Qed.

Lemma merge_last_range (last current : CombinedMatch loc) (h : store) :
  combined_range (fst (merge_last last current h))
  = (Z.min (char_start last) (char_start current),
     Z.max (char_end last) (char_end current)).
Proof. reflexivity. Qed.

Lemma add_semantic_contained (self : t) (cms : list (CombinedMatch loc))
    (h : store) (m : SemanticMatch) :
  contained (ranges cms ++ [semantic_range m])
            (ranges (fst (add_semantic self (cms, h) m))).
Proof.
  unfold add_semantic. destruct (absorb self m cms) as [cms'|] eqn:E.
  - apply absorb_Some in E. destruct E as [pre [c [post [-> [-> _]]]]].
    simpl fst. rewrite !map_app. simpl map. rewrite <- app_assoc.
    apply (contained_hull (ranges pre) (ranges post)
                          (combined_range c) (semantic_range m)).
  - simpl fst. rewrite map_app. apply contained_refl.
Qed.

Lemma add_semantic_covered (self : t) (cms : list (CombinedMatch loc))
    (h : store) (m : SemanticMatch) (x : Z) :
  (0 < overlap_threshold self)%Q ->
  covered (ranges (fst (add_semantic self (cms, h) m))) x
  <-> covered (ranges cms) x \/ sm_char_start m <= x < sm_char_end m.
Proof.
  intros Hpos. unfold add_semantic.
  destruct (absorb self m cms) as [cms'|] eqn:E.
  - apply absorb_Some in E. destruct E as [pre [c [post [-> [-> Hc]]]]].
    simpl fst. rewrite !map_app. simpl map.
    rewrite !covered_app, !covered_cons.
    pose proof (@hull_covers _ _ x (@absorbs_overlap _ _ _ Hpos Hc)) as Hh.
    simpl in Hh |- *. tauto.
  - simpl fst. rewrite map_app, covered_app. simpl map.
    rewrite covered_cons. simpl. pose proof (@covered_nil x). tauto.
Qed.

Lemma fold_add_semantic_contained (self : t) (ms : list SemanticMatch)
    (st : list (CombinedMatch loc) * store) :
  contained (ranges (fst st) ++ map semantic_range ms)
            (ranges (fst (fold_left (add_semantic self) ms st))).
Proof.
  revert st. induction ms as [|m ms IH]; intros [cms h]; simpl.
  - rewrite app_nil_r. apply contained_refl.
  - eapply contained_trans; [|apply IH].
    intros r Hin. apply in_app_or in Hin.
    destruct (add_semantic self (cms, h) m) as [cms' h'] eqn:E.
    pose proof (add_semantic_contained self cms h m) as Hstep.
    rewrite E in Hstep. simpl fst in *.
    destruct Hin as [Hin|[<-|Hin]].
    + destruct (Hstep r) as [r' [Hr' Hb]];
        [apply in_or_app; left; exact Hin|].
      exists r'. split; [apply in_or_app; left; exact Hr' | exact Hb].
    + destruct (Hstep (semantic_range m)) as [r' [Hr' Hb]];
        [apply in_or_app; right; left; reflexivity|].
      exists r'. split; [apply in_or_app; left; exact Hr' | exact Hb].
    + exists r. split; [apply in_or_app; right; exact Hin | lia].
Qed.

Lemma fold_add_semantic_covered (self : t) (ms : list SemanticMatch)
    (st : list (CombinedMatch loc) * store) (x : Z) :
  (0 < overlap_threshold self)%Q ->
  covered (ranges (fst (fold_left (add_semantic self) ms st))) x
  <-> covered (ranges (fst st)) x \/ covered (map semantic_range ms) x.
Proof.
  intros Hpos. revert st. induction ms as [|m ms IH]; intros [cms h]; simpl.
  - pose proof (@covered_nil x). tauto.
  - rewrite IH, covered_cons.
    pose proof (add_semantic_covered self cms h m x Hpos) as Hstep.
    destruct (add_semantic self (cms, h) m) as [cms' h'].
    simpl in Hstep |- *. tauto.
Qed.

Lemma final_sweep_cons (self : t) (finished rest : list (CombinedMatch loc))
    (last current : CombinedMatch loc) (h : store) :
  final_sweep self finished last (current :: rest) h
  = if merges self last current
    then final_sweep self finished (fst (merge_last last current h)) rest
                     (snd (merge_last last current h))
    else final_sweep self (finished ++ [last]) current rest h.
Proof.
  cbn [final_sweep]. destruct (merges self last current); [|reflexivity].
  destruct (merge_last last current h). reflexivity.
Qed.

Lemma final_sweep_contained (self : t) (rest finished : list (CombinedMatch loc))
    (last : CombinedMatch loc) (h : store) :
  contained (ranges (finished ++ last :: rest))
            (ranges (fst (final_sweep self finished last rest h))).
Proof.
  revert finished last h.
  induction rest as [|current rest IH]; intros finished last h.
  - apply contained_refl.
  - rewrite final_sweep_cons. destruct (merges self last current).
    + eapply contained_trans; [|apply IH].
      rewrite !map_app. cbn [map]. rewrite merge_last_range.
      eapply contained_trans;
        [|apply (contained_hull (ranges finished) (ranges rest)
                                (combined_range last)
                                (combined_range current))].
      apply contained_perm. apply Permutation_app_head.
      constructor. rewrite Permutation_app_comm. reflexivity.
    + specialize (IH (finished ++ [last]) current h).
      rewrite <- app_assoc in IH. exact IH.
Qed.

Lemma final_sweep_covered (self : t) (rest finished : list (CombinedMatch loc))
    (last : CombinedMatch loc) (h : store) (x : Z) :
  (0 < overlap_threshold self)%Q ->
  covered (ranges (fst (final_sweep self finished last rest h))) x
  <-> covered (ranges (finished ++ last :: rest)) x.
Proof.
  intros Hpos. revert finished last h.
  induction rest as [|current rest IH]; intros finished last h.
  - reflexivity.
  - rewrite final_sweep_cons. destruct (merges self last current) eqn:Hm.
    + rewrite IH. rewrite !map_app. cbn [map].
      rewrite !covered_app, !covered_cons, merge_last_range.
      pose proof (@hull_covers _ _ x (@merges_overlap _ _ _ Hpos Hm)) as Hh.
      simpl in Hh |- *. tauto.
    + rewrite IH, <- app_assoc. reflexivity.
Qed.

Lemma ranges_seed (kws : list (KeywordMatch loc)) :
  ranges (map seed kws) = map keyword_range kws.
Proof. rewrite map_map. reflexivity. Qed.

Lemma reconcile_contained (self : t) (h : store)
    (kws : list (KeywordMatch loc)) (ms : list SemanticMatch) :
  contained (map keyword_range kws ++ map semantic_range ms)
            (ranges (fst (reconcile self h kws ms))).
Proof.
  unfold reconcile.
  pose proof (fold_add_semantic_contained self ms (map seed kws, h)) as Hf.
  destruct (fold_left _ ms _) as [cms h1]. simpl fst in Hf.
  rewrite ranges_seed in Hf.
  eapply contained_trans; [exact Hf|].
  eapply contained_trans;
    [apply contained_perm, Permutation_map,
       (sort_by_perm (@char_start loc) cms)|].
  unfold _final_dedup_pass.
  destruct (Py.sort_by _ cms) as [|first rest]; [apply contained_refl|].
  apply (final_sweep_contained self rest [] first h1).
Qed.

Lemma reconcile_covered (self : t) (h : store)
    (kws : list (KeywordMatch loc)) (ms : list SemanticMatch) (x : Z) :
  (0 < overlap_threshold self)%Q ->
  covered (ranges (fst (reconcile self h kws ms))) x
  <-> covered (map keyword_range kws ++ map semantic_range ms) x.
Proof.
  intros Hpos. unfold reconcile.
  pose proof (fold_add_semantic_covered self ms (map seed kws, h) x Hpos)
    as Hf.
  destruct (fold_left _ ms _) as [cms h1]. simpl fst in Hf.
  rewrite ranges_seed in Hf. rewrite covered_app, <- Hf.
  rewrite (covered_perm x (Permutation_map (combined_range (L := loc))
                             (sort_by_perm (@char_start loc) cms))).
  unfold _final_dedup_pass.
  destruct (Py.sort_by _ cms) as [|first rest]; [reflexivity|].
  apply (final_sweep_covered self rest [] first h1 x Hpos).
Qed.

(** C2, as amended. For every positive overlap threshold (the default 0.5
    is one) the ranges of the spans that [deduplicate] computes cover
    exactly the characters that the ranges of the input spans cover. For
    every threshold, the range of each input span lies inside the range of
    one returned span: a merged span ranges over all the spans merged into
    it, and no covered range is dropped. [deduplicate] returns these spans
    whenever one of the two input lists is not empty. *)
Theorem C2_reconciliation_keeps_cover (self : t) (h : store)
    (kws : list (KeywordMatch loc)) (ms : list SemanticMatch) :
  let inputs := map keyword_range kws ++ map semantic_range ms in
  let final_matches := fst (reconcile self h kws ms) in
  contained inputs (ranges final_matches)
  /\ ((0 < overlap_threshold self)%Q ->
      forall x, covered (ranges final_matches) x <-> covered inputs x)
  /\ (kws <> [] \/ ms <> [] ->
      deduplicate self h kws ms
      = (Returned final_matches, snd (reconcile self h kws ms))).
Proof.
  cbv zeta. split; [|split].
  - apply reconcile_contained.
  - intros Hpos x. apply reconcile_covered. exact Hpos.
  - intros Hne. unfold deduplicate.
    pose proof (reconcile_contained self h kws ms) as Hc.
    destruct (reconcile self h kws ms) as [final h']. simpl fst in *.
    simpl snd. destruct final as [|c final]; [|reflexivity].
    exfalso.
    assert (Hex : exists r, In r (map keyword_range kws
                                  ++ map semantic_range ms)).
    { destruct Hne as [Hne|Hne].
      - destruct kws as [|k kws]; [congruence|].
        exists (keyword_range k). left. reflexivity.
      - destruct ms as [|m ms]; [congruence|].
        exists (semantic_range m). apply in_or_app. right. left.
        reflexivity. }
    destruct Hex as [r Hr]. destruct (Hc r Hr) as [r' [[] _]].
Qed.

Lemma final_sweep_length (self : t) (rest finished : list (CombinedMatch loc))
    (last : CombinedMatch loc) (h : store) :
  (1 < overlap_threshold self)%Q ->
  length (fst (final_sweep self finished last rest h))
  = (length finished + 1 + length rest)%nat.
Proof.
  intros Hthr. revert finished last h.
  induction rest as [|current rest IH]; intros finished last h.
  - simpl. rewrite length_app. simpl. lia.
  - rewrite final_sweep_cons.
    destruct (merges self last current) eqn:E.
    + exfalso. unfold merges in E.
      rewrite Qgeb_true, calculate_overlap_ratio in E.
      apply (Qlt_not_le _ _ Hthr).
      eapply Qle_trans; [exact E | apply overlap_ratio_le_1].
    + rewrite IH, length_app. simpl. lia.
Qed.

(** C6, as amended. The constructor of [CrossStoreDeduplicator] performs no
    validation: for every threshold, inside [0, 1] or not, it returns an
    instance that holds exactly the value it was given. Nothing is clamped,
    and nothing is rejected: with a threshold above 1 no overlap ratio
    meets the threshold, and the reconciliation keeps every input span
    apart. *)
Theorem C6_init_stores_any_threshold :
  (forall overlap_threshold : Q,
     __init__ overlap_threshold = Returned (mk overlap_threshold))
  /\ (forall (overlap_threshold : Q) (h : store)
             (kws : list (KeywordMatch loc)) (ms : list SemanticMatch),
        (1 < overlap_threshold)%Q ->
        length (fst (reconcile (mk overlap_threshold) h kws ms))
        = (length kws + length ms)%nat).
Proof.
  split; [reflexivity|].
  intros thr h kws ms Hthr. unfold reconcile.
  pose proof (fold_add_semantic_length (mk thr) ms (map seed kws, h) Hthr)
    as Hf.
  destruct (fold_left _ ms _) as [cms h1]. simpl fst in Hf.
  rewrite length_map in Hf.
  pose proof (Permutation_length (sort_by_perm (@char_start loc) cms)) as Hp.
  unfold _final_dedup_pass.
  destruct (Py.sort_by _ cms) as [|first rest].
  - simpl in *. lia.
  - rewrite final_sweep_length by exact Hthr. simpl in *. lia.
Qed.

(** With two empty inputs [deduplicate] raises: its overlap rate divides
    by the number of reconciled spans. *)
Example deduplicate_nothing_raises (self : t) (h : store) :
  deduplicate self h [] []
  = (Raised (Py.of_string "ZeroDivisionError"), h).
Proof. reflexivity. Qed.

(** C5: [similarity_score] is not the maximum of the scores merged into a
    span. A keyword span [0, 1000) absorbs a semantic span [0, 500) of
    score 9/10 and then a semantic span [400, 900) of score 3/10: the
    assignment in the absorbing loop overwrites the score, and the returned
    span [0, 1000) has the score 3/10. *)
Theorem C5_absorbing_overwrites_the_score :
  forall (h : store) k_id k_text k_kws k_src k_sec k_page
         a_id a_text a_query a_sector a_src
         b_id b_text b_query b_sector b_src,
  exists c,
    deduplicate (mk (1 # 2)) h
      [mkKeywordMatch k_id k_text k_kws 0 1000 k_src k_sec k_page]
      [mkSemanticMatch a_id a_text (9 # 10) a_query a_sector 0 500 a_src;
       mkSemanticMatch b_id b_text (3 # 10) b_query b_sector 400 900 b_src]
    = (Returned [c], h)
    /\ char_start c = 0 /\ char_end c = 1000
    /\ found_by c = both
    /\ similarity_score c = 3 # 10
    /\ (3 # 10 < 9 # 10)%Q.
Proof.
  intros. eexists. split; [reflexivity|]. simpl. repeat split.
Qed.

(** C9: [deduplicate] writes to a list object of its input. The seeded
    span holds the [matched_keywords] list of its keyword match, and the
    final pass extends that list in place: after reconciling the keyword
    matches [0, 100) with keywords [a] and [50, 150) with keywords [b],
    the list of the first input match is [a; b]. *)
Theorem C9_final_pass_extends_input_keywords :
  forall k_id k_text k_src k_sec k_page k_id' k_text' k_src' k_sec' k_page',
  let a := Py.of_string "a" in
  let b := Py.of_string "b" in
  let h := [[a]; [b]] in
  let first := mkKeywordMatch k_id k_text 0%nat 0 100 k_src k_sec k_page in
  let second :=
    mkKeywordMatch k_id' k_text' 1%nat 50 150 k_src' k_sec' k_page' in
  let h' := snd (deduplicate (mk (1 # 2)) h [first; second] []) in
  load h (km_matched_keywords first) = [a]
  /\ load h' (km_matched_keywords first) = [a; b]
  /\ load h' (km_matched_keywords second) = [b].
Proof.
  intros. repeat split.
Qed.

End Reconcile.

(** *** Concrete reconciliations *)

Lemma C6_witness :
  let kws := [example_keyword 0 100 0%nat] in
  let ms := [example_semantic 0 100 (9 # 10)] in
  (1 < 3 # 2)%Q
  /\ length (fst (reconcile (So := first_occurrence_order) (mk (3 # 2))
                            [[]] kws ms))
     = (length kws + length ms)%nat.
Proof.
  cbv zeta.
  assert (H : (1 < 3 # 2)%Q) by reflexivity.
  split; [exact H|].
  exact (proj2 (C6_init_stores_any_threshold (So := first_occurrence_order))
               (3 # 2) [[]] [example_keyword 0 100 0%nat]
               [example_semantic 0 100 (9 # 10)] H).
Defined.

(** C2, as stated, fails for the threshold 0: the keyword span [0, 10)
    absorbs the disjoint semantic span [20, 30), and the returned span
    [0, 30) covers the character 15, which no input span covers. *)
Lemma C2_zero_threshold_covers_the_gap :
  let kws := [example_keyword 0 10 0%nat] in
  let ms := [example_semantic 20 30 (9 # 10)] in
  exists final h',
    deduplicate (So := first_occurrence_order) (mk 0) [[]] kws ms
    = (Returned final, h')
    /\ covered (ranges final) 15
    /\ ~ covered (map keyword_range kws ++ map semantic_range ms) 15.
Proof.
  cbv zeta. eexists. eexists. split; [reflexivity|]. split.
  - eexists. split; [left; reflexivity|]. simpl. lia.
  - intros [r [[<-|[<-|[]]] Hx]]; simpl in Hx; lia.
Qed.

Lemma C2_witness :
  let self := mk (1 # 2) in
  let h := [[Py.of_string "flood"]] in
  let kws := [example_keyword 100 200 0%nat] in
  let ms := [example_semantic 150 250 (9 # 10)] in
  let inputs := map keyword_range kws ++ map semantic_range ms in
  let final_matches :=
    fst (reconcile (So := first_occurrence_order) self h kws ms) in
  (0 < overlap_threshold self)%Q
  /\ (kws <> [] \/ ms <> [])
  /\ contained inputs (ranges final_matches)
  /\ (forall x, covered (ranges final_matches) x <-> covered inputs x)
  /\ deduplicate (So := first_occurrence_order) self h kws ms
     = (Returned final_matches,
        snd (reconcile (So := first_occurrence_order) self h kws ms)).
Proof.
  cbv zeta.
  assert (Hpos : (0 < overlap_threshold (mk (1 # 2)))%Q) by reflexivity.
  assert (Hne : [example_keyword 100 200 0%nat] <> []
                \/ [example_semantic 150 250 (9 # 10)] <> [])
    by (left; discriminate).
  destruct (C2_reconciliation_keeps_cover (So := first_occurrence_order)
              (mk (1 # 2)) [[Py.of_string "flood"]]
              [example_keyword 100 200 0%nat]
              [example_semantic 150 250 (9 # 10)]) as [H1 [H2 H3]].
  split; [exact Hpos|]. split; [exact Hne|]. split; [exact H1|].
  split; [exact (H2 Hpos) | exact (H3 Hne)].
Defined.

Lemma C3_witness :
  let self := mk (1 # 2) in
  let m := example_semantic 150 250 (9 # 10) in
  let other :=
    mkCombinedMatch (Py.of_string "combined_0001") (Py.of_string "other")
                    140 240 [semantic_search] 1%nat (8 # 10) [] []
                    semantic_only in
  let c := seed (example_keyword 100 200 0%nat) in
  (forall c', In c' [other] ->
              ~ sufficient_overlap (overlap_threshold self) m c')
  /\ sufficient_overlap (overlap_threshold self) m c
  /\ add_semantic self ([other; c], [[]; []]) m
     = ([other;
         mkCombinedMatch (chunk_id c) (sm_text m) 100 250
           [keyword_search; semantic_search] 0%nat (9 # 10)
           (sm_matched_query m) (sm_sector m) both],
        [[]; []]).
Proof.
  cbv zeta.
  assert (Hpre : forall c',
            In c' [mkCombinedMatch (Py.of_string "combined_0001")
                     (Py.of_string "other") 140 240 [semantic_search]
                     1%nat (8 # 10) [] [] semantic_only] ->
            ~ sufficient_overlap (overlap_threshold (mk (1 # 2)))
                (example_semantic 150 250 (9 # 10)) c').
  { intros c' [<-|[]] [[H|[]] _]. discriminate H. }
  assert (Hc : sufficient_overlap (overlap_threshold (mk (1 # 2)))
                 (example_semantic 150 250 (9 # 10))
                 (seed (example_keyword 100 200 0%nat))).
  { split; [left; reflexivity|]. vm_compute. discriminate. }
  split; [exact Hpre|]. split; [exact Hc|].
  exact (proj1 (C3_first_sufficient_keyword_span_absorbs
                  (So := first_occurrence_order))
               (mk (1 # 2)) (example_semantic 150 250 (9 # 10))
               [mkCombinedMatch (Py.of_string "combined_0001")
                  (Py.of_string "other") 140 240 [semantic_search]
                  1%nat (8 # 10) [] [] semantic_only]
               [] (seed (example_keyword 100 200 0%nat)) [[]; []] Hpre Hc).
Defined.

End DedupFacts.

(** ** Chunking *)

Module ChunkFacts.

Import Py PyFacts SemanticSearcher Spec.

(** [split_paragraphs] recurses on the tail and on the tail of the
    tail. *)
Lemma split_paragraphs_ind (P : str -> Prop) :
  P [] ->
  (forall c, P [c]) ->
  (forall c c' rest, P rest -> P (c' :: rest) -> P (c :: c' :: rest)) ->
  forall s, P s.
Proof.
  intros Hnil Hone Hstep s.
  enough (H : P s /\ forall c, P (c :: s)) by apply H.
  induction s as [|c' rest [IH1 IH2]].
  - split; [exact Hnil | exact Hone].
  - split; [apply IH2|]. intros c. apply Hstep; [exact IH1 | apply IH2].
Qed.

Lemma split_paragraphs_step (c c' : ascii) (rest : str) :
  split_paragraphs (c :: c' :: rest)
  = if Ascii.eqb c newline && Ascii.eqb c' newline
    then [] :: split_paragraphs rest
    else push_front c (split_paragraphs (c' :: rest)).
Proof. reflexivity. Qed.

Lemma split_paragraphs_nonempty (s : str) : split_paragraphs s <> [].
Proof.
  destruct s as [|c [|c' rest]]; try discriminate.
  rewrite split_paragraphs_step.
  destruct (_ && _); [discriminate|].
  destruct (split_paragraphs (c' :: rest)); discriminate.
Qed.

Lemma total_len_cons (p : str) (ps : list str) :
  total_len (p :: ps) = len p + 2 + total_len ps.
Proof. reflexivity. Qed.

Lemma total_len_nonneg (ps : list str) : 0 <= total_len ps.
Proof.
  induction ps as [|p ps IH]; [reflexivity|].
  rewrite total_len_cons. pose proof (len_nonneg p). lia.
Qed.

Lemma total_len_push_front (c : ascii) (ps : list str) :
  ps <> [] -> total_len (push_front c ps) = total_len ps + 1.
Proof.
  destruct ps as [|p ps]; [congruence|]. intros _.
  unfold push_front. rewrite !total_len_cons, len_cons. lia.
Qed.

(** The paragraphs and their separators make up the text. *)
Lemma total_len_split (s : str) : total_len (split_paragraphs s) = len s + 2.
Proof.
  induction s as [| c | c c' rest IH1 IH2] using split_paragraphs_ind.
  - reflexivity.
  - reflexivity.
  - rewrite split_paragraphs_step.
    destruct (_ && _).
    + rewrite total_len_cons, IH1, !len_cons, len_nil. lia.
    + rewrite total_len_push_front by apply split_paragraphs_nonempty.
      rewrite IH2, !len_cons. lia.
Qed.

Lemma In_push_front (c : ascii) (ps : list str) (p : str) :
  In p ps -> exists p', In p' (push_front c ps) /\ incl p p'.
Proof.
  destruct ps as [|q ps]; [intros []|]. simpl. intros [<-|Hin].
  - exists (c :: q). split; [left; reflexivity | apply incl_tl, incl_refl].
  - exists p. split; [right; exact Hin | apply incl_refl].
Qed.

Lemma In_head_push_front (c : ascii) (ps : list str) :
  exists p', In p' (push_front c ps) /\ In c p'.
Proof.
  destruct ps as [|q ps]; simpl; eexists; (split; [left; reflexivity|]);
    left; reflexivity.
Qed.

(** A character that is not whitespace lies in one of the paragraphs. *)
Lemma split_paragraphs_keeps (s : str) (x : ascii) :
  In x s -> isspace x = false -> exists p, In p (split_paragraphs s) /\ In x p.
Proof.
  intros Hin Hx. revert Hin.
  induction s as [| c | c c' rest IH1 IH2] using split_paragraphs_ind;
    intros Hin.
  - destruct Hin.
  - exists [c]. split; [left; reflexivity | exact Hin].
  - rewrite split_paragraphs_step.
    destruct (Ascii.eqb c newline && Ascii.eqb c' newline) eqn:E.
    + apply andb_true_iff in E. destruct E as [E1 E2].
      apply Ascii.eqb_eq in E1, E2. subst c c'.
      destruct Hin as [<-|[<-|Hin]];
        try (vm_compute in Hx; discriminate Hx).
      destruct (IH1 Hin) as [p [Hp Hxp]]. exists p. split; [right|]; assumption.
    + destruct Hin as [<-|Hin].
      * apply In_head_push_front.
      * destruct (IH2 Hin) as [p [Hp Hxp]].
        destruct (In_push_front c _ _ Hp) as [p' [Hp' Hincl]].
        exists p'. split; [exact Hp' | apply Hincl; exact Hxp].
Qed.

Lemma strip_has_nonspace (s : str) :
  nonempty (strip s) = true -> exists c, In c (strip s) /\ isspace c = false.
Proof.
  pose proof (strip_head s) as H. destruct (strip s) as [|c r]; [discriminate|].
  intros _. exists c. split; [left; reflexivity | exact H].
Qed.

Lemma chunk_step_cases (chunk_size overlap : Z) (st : chunker) (p : str) :
  let para := strip p in
  (nonempty para = false
   /\ chunk_step chunk_size overlap st p
      = mkChunker (chunks st) (current_chunk st) (chunk_start st)
                  (current_pos st + 2))
  \/ (nonempty para = true /\ nonempty (current_chunk st) = true
      /\ len (current_chunk st) + len para > chunk_size
      /\ exists overlap_text pre,
           current_chunk st = pre ++ overlap_text
           /\ chunk_step chunk_size overlap st p
              = mkChunker
                  (chunks st ++ [(strip (current_chunk st), chunk_start st,
                                  current_pos st)])
                  (overlap_text ++ " "%char :: para)
                  (current_pos st - len overlap_text)
                  (current_pos st + (len para + 2)))
  \/ (nonempty para = true /\ nonempty (current_chunk st) = true
      /\ len (current_chunk st) + len para <= chunk_size
      /\ chunk_step chunk_size overlap st p
         = mkChunker (chunks st) (current_chunk st ++ " "%char :: para)
                     (chunk_start st) (current_pos st + (len para + 2)))
  \/ (nonempty para = true /\ current_chunk st = []
      /\ chunk_step chunk_size overlap st p
         = mkChunker (chunks st) para (current_pos st)
                     (current_pos st + (len para + 2))).
Proof.
  cbv zeta. unfold chunk_step.
  destruct (nonempty (strip p)) eqn:Hp; simpl negb; cbv iota; [|auto].
  right. destruct (nonempty (current_chunk st)) eqn:Hc.
  - destruct (len (current_chunk st) + len (strip p) >? chunk_size) eqn:Hgt;
      simpl andb; cbv iota.
    + left. repeat split; try lia.
      destruct (len (current_chunk st) >? overlap).
      * destruct (slice_from_suffix (current_chunk st) (- overlap))
          as [pre E].
        exists (slice_from (current_chunk st) (- overlap)), pre.
        split; [exact E | reflexivity].
      * exists (current_chunk st), []. split; reflexivity.
    + right. left. repeat split. lia.
  - rewrite andb_false_r. right. right.
    apply nonempty_false in Hc. auto.
Qed.

(** *** A short document makes one chunk *)

Lemma fold_single_chunk (chunk_size overlap : Z) (ps : list str)
    (st : chunker) (consumed : Z) :
  0 <= consumed ->
  chunks st = [] ->
  (current_chunk st = [] \/ len (current_chunk st) + 2 <= consumed) ->
  consumed + total_len ps - 2 <= chunk_size ->
  let st' := fold_left (chunk_step chunk_size overlap) ps st in
  chunks st' = []
  /\ (nonempty (current_chunk st) = true
      \/ (exists p, In p ps /\ nonempty (strip p) = true) ->
      nonempty (current_chunk st') = true).
Proof.
  cbv zeta. revert st consumed.
  induction ps as [|p ps IH]; intros st consumed Hc0 Hch Hcur Hsize.
  - simpl. split; [exact Hch|]. intros [H|[p [[] _]]]. exact H.
  - cbn [fold_left]. rewrite total_len_cons in Hsize.
    pose proof (total_len_nonneg ps) as Htot.
    pose proof (len_strip_le p) as Hstrip.
    pose proof (len_nonneg (strip p)) as Hpos.
    set (st' := chunk_step chunk_size overlap st p).
    assert (Hnext :
              chunks st' = [] ->
              (current_chunk st' = []
               \/ len (current_chunk st') + 2 <= consumed + (len p + 2)) ->
              chunks (fold_left (chunk_step chunk_size overlap) ps st') = []
              /\ (nonempty (current_chunk st') = true
                  \/ (exists q, In q ps /\ nonempty (strip q) = true) ->
                  nonempty
                    (current_chunk
                       (fold_left (chunk_step chunk_size overlap) ps st'))
                  = true)).
    { intros H1 H2. apply (IH st' (consumed + (len p + 2))); try assumption;
        lia. }
    destruct (chunk_step_cases chunk_size overlap st p)
      as [[Hp E]|[[Hp [Hne [Hgt _]]]|[[Hp [Hne [Hle E]]]|[Hp [Hnil E]]]]];
      try fold st' in E.
    + destruct Hnext as [IH1 IH2].
      * rewrite E. exact Hch.
      * rewrite E. simpl. destruct Hcur; [left; assumption | right; lia].
      * split; [exact IH1|]. intros H. apply IH2. rewrite E. simpl.
        destruct H as [H|[q [[<-|Hq] Hs]]]; [left; exact H | congruence |].
        right. exists q. split; assumption.
    + exfalso. destruct Hcur as [Hcur|Hcur].
      * rewrite Hcur in Hne. discriminate.
      * lia.
    + destruct Hnext as [IH1 IH2].
      * rewrite E. exact Hch.
      * rewrite E. simpl. right. rewrite len_app, len_cons.
        destruct Hcur as [Hcur|Hcur];
          [rewrite Hcur in Hne; discriminate | lia].
      * split; [exact IH1|]. intros _. apply IH2. rewrite E. simpl. left.
        destruct (current_chunk st); [discriminate | reflexivity].
    + destruct Hnext as [IH1 IH2].
      * rewrite E. exact Hch.
      * rewrite E. simpl. right. lia.
      * split; [exact IH1|]. intros _. apply IH2. rewrite E. simpl. left.
        exact Hp.
Qed.

Lemma short_document_one_chunk (text : str) (chunk_size overlap : Z) :
  len text <= chunk_size ->
  (exists c, In c text /\ isspace c = false) ->
  length (_create_chunks text chunk_size overlap) = 1%nat.
Proof.
  intros Hlen [c [Hin Hc]]. unfold _create_chunks.
  assert (H0 : 0 <= 0) by lia.
  assert (Hch : chunks chunker_init = []) by reflexivity.
  assert (Hcur : current_chunk chunker_init = []
                 \/ len (current_chunk chunker_init) + 2 <= 0)
    by (left; reflexivity).
  assert (Hsize : 0 + total_len (split_paragraphs text) - 2 <= chunk_size)
    by (rewrite total_len_split; lia).
  destruct (@fold_single_chunk chunk_size overlap (split_paragraphs text)
              chunker_init 0 H0 Hch Hcur Hsize) as [H1 H2].
  unfold chunker_finish. rewrite H2, H1; [reflexivity|].
  right. destruct (@split_paragraphs_keeps text c Hin Hc) as [p [Hp Hcp]].
  exists p. split; [exact Hp|]. eapply strip_nonempty; eassumption.
Qed.

(** *** The range of a chunk *)

Lemma emitted_chunk_ok (st : chunker) :
  chunker_ok st -> nonempty (current_chunk st) = true ->
  chunk_ok (strip (current_chunk st), chunk_start st, current_pos st).
Proof.
  intros [_ [_ H]] Hne. destruct (H Hne) as [H1 [H2 H3]].
  apply nonempty_len in H3.
  pose proof (len_strip_le (current_chunk st)).
  pose proof (len_nonneg (current_chunk st)).
  unfold chunk_ok. lia.
Qed.

Lemma joined_strip_nonempty (pre para : str) :
  nonempty (strip para) = true ->
  nonempty (strip (pre ++ " "%char :: para)) = true.
Proof.
  intros H. destruct (strip_split para) as [a [b [E _]]].
  destruct (strip_has_nonspace para H) as [c [Hc Hsp]].
  apply strip_nonempty with (c := c); [|exact Hsp].
  apply in_or_app. right. right. rewrite E.
  apply in_or_app. right. apply in_or_app. left. exact Hc.
Qed.

Lemma strip_strip_nonempty (p : str) :
  nonempty (strip p) = true -> nonempty (strip (strip p)) = true.
Proof.
  intros H. destruct (strip_has_nonspace p H) as [c [Hc Hsp]].
  eapply strip_nonempty; eassumption.
Qed.

Lemma chunk_step_ok (chunk_size overlap : Z) (st : chunker) (p : str) :
  chunker_ok st -> chunker_ok (chunk_step chunk_size overlap st p).
Proof.
  intros Hok. pose proof Hok as [Hall [Hpos Hcur]].
  pose proof (len_nonneg (strip p)) as Hlp.
  destruct (chunk_step_cases chunk_size overlap st p)
    as [[Hp E]|[[Hp [Hne [Hgt [ot [pre [Ecur E]]]]]]
                |[[Hp [Hne [Hle E]]]|[Hp [Hnil E]]]]];
    rewrite E; unfold chunker_ok; simpl.
  - split; [exact Hall|]. split; [lia|]. intros H.
    destruct (Hcur H) as [H1 [H2 H3]]. repeat split; try assumption; lia.
  - destruct (Hcur Hne) as [H1 [H2 H3]].
    assert (Hot : len ot <= len (current_chunk st)).
    { rewrite Ecur, len_app. pose proof (len_nonneg pre). lia. }
    pose proof (len_nonneg ot).
    split; [|split; [lia|]].
    + apply Forall_app. split; [exact Hall|]. constructor; [|constructor].
      apply emitted_chunk_ok; assumption.
    + intros _. split; [lia|]. split.
      * rewrite len_app, len_cons. lia.
      * apply joined_strip_nonempty. apply strip_strip_nonempty. exact Hp.
  - destruct (Hcur Hne) as [H1 [H2 H3]].
    split; [exact Hall|]. split; [lia|]. intros _. split; [exact H1|]. split.
    + rewrite len_app, len_cons. lia.
    + apply joined_strip_nonempty. apply strip_strip_nonempty. exact Hp.
  - split; [exact Hall|]. split; [lia|]. intros _. split; [exact Hpos|].
    split; [lia|]. apply strip_strip_nonempty. exact Hp.
Qed.


(** *** The spans of the semantic searcher *)

Lemma deduplicate_by_position_In (ms : list SemanticMatch) (m : SemanticMatch) :
  In m (_deduplicate_by_position ms) -> In m ms.
Proof.
  unfold _deduplicate_by_position. intros Hin.
  destruct (SemanticFacts.position_map_fold ms) as [_ Hall].
  apply in_map_iff in Hin. destruct Hin as [kv [<- Hkv]].
  rewrite Forall_forall in Hall.
  destruct (Hall kv Hkv) as [_ [pre [post [E _]]]].
  rewrite E. apply in_or_app. right. left. reflexivity.
Qed.

Section SearchSpans.

Context {E : Embedder}.




End SearchSpans.

End ChunkFacts.

(** ** Context windows of the keyword searcher *)

Module WindowFacts.

Import Py PyFacts KeywordSearcher Spec.







Section Sentences.

Context {Tk : NLTK} {Re : Regex} {So : SetOrder}.



End Sentences.

End WindowFacts.

(** ** Spans of the keyword searcher *)

Module LexicalFacts.

Import Py PyFacts KeywordSearcher Spec SortFacts WindowFacts.




Section Search.

Context {Tk : NLTK} {Re : Regex} {So : SetOrder}.

(** [match.start()] is an offset of the text. *)
Hypothesis regex_in_text :
  forall pattern_words text s e,
    In (s, e) (finditer_phrase pattern_words text) -> 0 <= s <= len text.









End Search.

End LexicalFacts.

(** ** Merging of overlapping keyword matches *)

Module MergeFacts.

Import Py PyFacts KeywordSearcher Spec SortFacts SemanticFacts.

Section Adjacent.

Context {A : Type} (R : A -> A -> Prop).

Lemma Sorted_snoc (l : list A) (x y : A) :
  Sorted R (l ++ [x]) -> R x y -> Sorted R ((l ++ [x]) ++ [y]).
Proof.
  intros Hs Hxy. induction l as [|a l IH]; simpl in *.
  - repeat constructor. exact Hxy.
  - inversion Hs as [|? ? Hs' Hhd]; subst. constructor; [apply IH; exact Hs'|].
    destruct l; simpl in *; inversion Hhd; subst; constructor; assumption.
Qed.

Lemma Sorted_replace_last (l : list A) (x x' : A) :
  Sorted R (l ++ [x]) -> (forall a, R a x -> R a x') -> Sorted R (l ++ [x']).
Proof.
  intros Hs Hx. induction l as [|a l IH]; simpl in *.
  - repeat constructor.
  - inversion Hs as [|? ? Hs' Hhd]; subst. constructor; [apply IH; exact Hs'|].
    destruct l; simpl in *; inversion Hhd; subst; constructor; auto.
Qed.

Lemma Sorted_adjacent (l l1 l2 : list A) (a b : A) :
  Sorted R l -> l = l1 ++ a :: b :: l2 -> R a b.
Proof.
  intros Hs ->. induction l1 as [|x l1 IH]; simpl in Hs.
  - inversion Hs as [|? ? _ Hhd]; subst. inversion Hhd; subst. assumption.
  - inversion Hs; subst. apply IH. assumption.
Qed.

End Adjacent.

Section Merge.

Context {So : SetOrder}.

Abbreviation kmatch := (KeywordMatch (list str)).

Lemma overlaps_enough_false (last current : kmatch) :
  overlaps_enough last current = false ->
  (overlap_ratio (keyword_range last) (keyword_range current) <= 1 # 2)%Q.
Proof.
  unfold overlaps_enough, overlap_ratio, overlap_length. simpl.
  destruct (Z.max (km_char_start last) (km_char_start current)
            <? Z.min (km_char_end last) (km_char_end current)) eqn:E.
  - replace (0 <? _) with true by (symmetry; apply Z.ltb_lt; lia).
    simpl. intros H. apply Qgtb_false. exact H.
  - replace (0 <? _) with false by (symmetry; apply Z.ltb_ge; lia).
    intros _. discriminate.
Qed.

Lemma merge_sweep_seeded (matches rest finished : list kmatch)
    (last : kmatch) :
  Sorted (seeded_after matches) (finished ++ [last]) ->
  StronglySorted (key_le (@km_char_start _)) (last :: rest) ->
  (forall x, In x rest -> In x matches) ->
  Sorted (seeded_after matches) (merge_sweep finished last rest).
Proof.
  revert finished last.
  induction rest as [|current rest IH]; intros finished last Hs Hsorted Hin;
    cbn [merge_sweep]; [exact Hs|].
  inversion Hsorted as [|? ? Hrest Hall]; subst.
  inversion Hall as [|? ? Hle Hall']; subst. unfold key_le in Hle.
  destruct (overlaps_enough last current) eqn:E.
  - apply IH.
    + apply Sorted_replace_last with (x := last); [exact Hs|].
      intros a [H1 [m [Hm [H2 [H3 H4]]]]]. split; [exact H1|].
      exists m. simpl. repeat split; try assumption. lia.
    + inversion Hrest; subst. constructor; assumption.
    + intros x Hx. apply Hin. right. exact Hx.
  - apply IH.
    + apply Sorted_snoc; [exact Hs|]. split; [exact Hle|].
      exists current. repeat split; try lia.
      * apply Hin. left. reflexivity.
      * apply overlaps_enough_false. exact E.
    + exact Hrest.
    + intros x Hx. apply Hin. right. exact Hx.
Qed.

(** C4, as amended. [KeywordSearcher._merge_overlapping] returns its spans
    in the order of their starts, and each returned span [b] after the
    first starts at an input match [m] (same [char_start], [char_end] at
    most that of [b]) whose overlap with the span [a] returned just before
    it is at most 0.5 of the length of [a]: a pair is merged only when the
    ratio is strictly above 0.5. So an adjacent pair whose later span was
    not widened by a merge has an overlap ratio of at most 0.5. *)
Theorem C4_merge_overlapping_adjacent_spans (matches : list kmatch) :
  forall l1 a b l2,
    _merge_overlapping matches = l1 ++ a :: b :: l2 ->
    km_char_start a <= km_char_start b
    /\ exists m,
         In m matches
         /\ km_char_start m = km_char_start b
         /\ km_char_end m <= km_char_end b
         /\ (overlap_ratio (keyword_range a) (keyword_range m) <= 1 # 2)%Q
         /\ (km_char_end m = km_char_end b ->
             (overlap_ratio (keyword_range a) (keyword_range b)
              <= 1 # 2)%Q).
Proof.
  intros l1 a b l2 E.
  assert (Hs : Sorted (seeded_after matches) (_merge_overlapping matches)).
  { unfold _merge_overlapping.
    pose proof (sort_by_sorted (@km_char_start _) matches) as Hsorted.
    pose proof (sort_by_perm (@km_char_start _) matches) as Hperm.
    destruct (sort_by _ matches) as [|first rest]; [constructor|].
    apply merge_sweep_seeded.
    - repeat constructor.
    - exact Hsorted.
    - intros x Hx. eapply Permutation_in; [symmetry; exact Hperm|].
      right. exact Hx. }
  destruct (@Sorted_adjacent _ _ _ _ _ _ _ Hs E)
    as [H1 [m [Hm [H2 [H3 H4]]]]].
  split; [exact H1|]. exists m. repeat split; try assumption.
  intros He. unfold keyword_range in *. rewrite <- H2, <- He. exact H4.
Qed.

End Merge.

End MergeFacts.

(** ** The two matchers *)

Module MatcherFacts.

Import Py PyFacts Spec.

(** C4, as stated, fails. The keyword spans [0, 100) and [50, 150)
    overlap by exactly 0.5 of the first one and are both returned. The
    spans [0, 100), [40, 60), [45, 100) are returned as [0, 100) and
    [40, 100), which overlap by 0.6: the second span was widened after it
    had been kept. The semantic searcher merges nothing: the two chunks of
    a document of two paragraphs, [0, 102) and [2, 554), overlap by 100
    characters of 102. *)
Lemma C4_residual_overlap_remains :
  ~ no_residual_overlap
      (map (@keyword_range _)
           (KeywordSearcher._merge_overlapping (So := first_occurrence_order)
              [example_match 0 100 "flood"; example_match 50 150 "storm"]))
  /\ map (@keyword_range _)
         (KeywordSearcher._merge_overlapping (So := first_occurrence_order)
            [example_match 0 100 "flood"; example_match 40 60 "storm";
             example_match 45 100 "surge"])
     = [(0, 100); (40, 100)]
  /\ (1 # 2 < overlap_ratio (0, 100)%Z (40, 100)%Z)%Q
  /\ exists spans,
       SemanticSearcher.search (E := uniform_embedder) two_paragraphs
         [(of_string "sector", of_string "query")] 10
       = Some spans
       /\ map semantic_range spans = [(0, 102); (2, 554)]
       /\ ~ no_residual_overlap (map semantic_range spans).
Proof.
  split; [|split; [|split]].
  - intros H. specialize (H [] (0, 100) (50, 150) [] eq_refl).
    vm_compute in H. discriminate H.
  - reflexivity.
  - reflexivity.
  - eexists. split; [vm_compute; reflexivity|]. split; [reflexivity|].
    intros H. specialize (H [] (0, 102) (2, 554) [] eq_refl).
    vm_compute in H. discriminate H.
Qed.

Lemma C4_witness :
  let matches := [example_match 0 100 "flood"; example_match 50 150 "storm"] in
  let a := example_match 0 100 "flood" in
  let b := example_match 50 150 "storm" in
  KeywordSearcher._merge_overlapping (So := first_occurrence_order) matches
  = [] ++ a :: b :: []
  /\ km_char_start a <= km_char_start b
  /\ exists m,
       In m matches
       /\ km_char_start m = km_char_start b
       /\ km_char_end m <= km_char_end b
       /\ (overlap_ratio (keyword_range a) (keyword_range m) <= 1 # 2)%Q
       /\ (km_char_end m = km_char_end b ->
           (overlap_ratio (keyword_range a) (keyword_range b) <= 1 # 2)%Q).
Proof.
  cbv zeta.
  assert (E : KeywordSearcher._merge_overlapping
                (So := first_occurrence_order)
                [example_match 0 100 "flood"; example_match 50 150 "storm"]
              = [] ++ example_match 0 100 "flood"
                   :: example_match 50 150 "storm" :: [])
    by reflexivity.
  split; [exact E|].
  exact (@MergeFacts.C4_merge_overlapping_adjacent_spans
           first_occurrence_order _ _ _ _ _ E).
Defined.




(** A window of [_expand_context] whose text is not the slice of its
    range: the stripped whitespace came before the text. *)
Example expand_context_leading_whitespace :
  let document := of_string "   " ++ [newline; newline] ++ of_string "flood" in
  KeywordSearcher._expand_context document 5 10 = (of_string "flood", 0, 5)
  /\ slice document 0 5 <> of_string "flood".
Proof. split; [reflexivity | discriminate]. Qed.

(** The same window, as the only span of a keyword search. *)
Example search_leading_whitespace :
  let document := of_string "   " ++ [newline; newline] ++ of_string "flood" in
  map (fun m => (km_text m, km_char_start m, km_char_end m))
      (KeywordSearcher.search (Tk := plain_nltk) (Re := literal_regex)
         (So := first_occurrence_order) [of_string "flood"] document [] 0)
  = [(of_string "flood", 0, 5)].
Proof. reflexivity. Qed.


Section Degenerate.

Context {Tk : NLTK} {Re : Regex} {So : SetOrder}.

Lemma no_positions_in_empty_text (lemmatized_keywords : KeywordSearcher.patterns) :
  word_tokenize [] = [] ->
  (forall pattern_words, finditer_phrase pattern_words [] = []) ->
  KeywordSearcher._find_keyword_positions lemmatized_keywords [] = [].
Proof.
  intros Htok Hre. unfold KeywordSearcher._find_keyword_positions.
  change (lower []) with (@nil ascii).
  induction lemmatized_keywords as [|[pattern originals] rest IH];
    [reflexivity|].
  cbn [flat_map]. rewrite IH, app_nil_r.
  unfold KeywordSearcher.pattern_positions.
  destruct (split_whitespace pattern) as [|w [|w' ws]].
  - rewrite Hre. reflexivity.
  - rewrite Htok. reflexivity.
  - rewrite Hre. reflexivity.
Qed.

End Degenerate.

(** C7, as amended. [KeywordSearcher.search] returns the empty list for
    every document when the keyword table is empty, and for the empty
    document whatever the keyword table (the tokenizer returns no word for
    the empty text, and the phrase pattern has no match in it).
    [SemanticSearcher] makes no chunk and returns no span for the empty
    document. A document of fewer than 500 characters that holds a
    character that is not whitespace makes exactly one chunk. *)
Theorem C7_degenerate_inputs :
  (forall (Tk : NLTK) (Re : Regex) (So : SetOrder) text section_name page,
     KeywordSearcher.search [] text section_name page = [])
  /\ (forall (Tk : NLTK) (Re : Regex) (So : SetOrder)
             keywords section_name page,
        word_tokenize [] = [] ->
        (forall pattern_words, finditer_phrase pattern_words [] = []) ->
        KeywordSearcher.search keywords [] section_name page = [])
  /\ SemanticSearcher._create_chunks [] 500 100 = []
  /\ (forall (E : Embedder) queries top_k,
        SemanticSearcher.search [] queries top_k = Some [])
  /\ (forall text,
        len text < 500 ->
        (exists c, In c text /\ isspace c = false) ->
        length (SemanticSearcher._create_chunks text 500 100) = 1%nat).
Proof.
  split; [|split; [|split; [|split]]].
  - reflexivity.
  - intros Tk Re So keywords section_name page Htok Hre.
    unfold KeywordSearcher.search.
    rewrite no_positions_in_empty_text by assumption. reflexivity.
  - reflexivity.
  - reflexivity.
  - intros text Hlen Hc. apply ChunkFacts.short_document_one_chunk;
      [lia | exact Hc].
Qed.

(** C7, as stated, fails: a document of one space is not empty and is
    shorter than a chunk, and it makes no chunk. *)
Lemma C7_blank_document_makes_no_chunk :
  let document := of_string " " in
  document <> [] /\ len document < 500
  /\ length (SemanticSearcher._create_chunks document 500 100) <> 1%nat.
Proof. cbv zeta. split; [|split]; [discriminate | reflexivity | discriminate]. Qed.

Lemma C7_witness :
  let document := of_string "Para A about floods." in
  (word_tokenize (NLTK := plain_nltk) [] = []
   /\ (forall pattern_words,
         finditer_phrase (Regex := literal_regex) pattern_words [] = [])
   /\ len document < 500
   /\ (exists c, In c document /\ isspace c = false))
  /\ KeywordSearcher.search (Tk := plain_nltk) (Re := literal_regex)
       (So := first_occurrence_order)
       [of_string "flood"; of_string "flooding"] [] [] 0 = []
  /\ length (SemanticSearcher._create_chunks document 500 100) = 1%nat.
Proof.
  cbv zeta.
  assert (H1 : word_tokenize (NLTK := plain_nltk) [] = []) by reflexivity.
  assert (H2 : forall pattern_words,
            finditer_phrase (Regex := literal_regex) pattern_words [] = [])
    by reflexivity.
  assert (H3 : len (of_string "Para A about floods.") < 500) by reflexivity.
  assert (H4 : exists c, In c (of_string "Para A about floods.")
                         /\ isspace c = false)
    by (exists "P"%char; split; [left; reflexivity | reflexivity]).
  destruct C7_degenerate_inputs as [_ [Hb [_ [_ Hd]]]].
  split; [auto|]. split.
  - exact (Hb plain_nltk literal_regex first_occurrence_order
              [of_string "flood"; of_string "flooding"] [] 0 H1 H2).
  - exact (Hd (of_string "Para A about floods.") H3 H4).
Defined.

End MatcherFacts.

(** * Further properties of the code *)

(** ** The overlap ratio and the reconciled list *)

Module ReconcileFacts.

Import CrossStoreDeduplicator Spec SortFacts SemanticFacts DedupFacts.

(** X1. [_calculate_overlap] is a ratio between 0 and 1: it is 0 exactly
    when the spans share no character, and 1 exactly when the first span
    is not empty and lies inside the second. *)
Theorem calculate_overlap_bounds (start1 end1 start2 end2 : Z) :
  let r := _calculate_overlap start1 end1 start2 end2 in
  (0 <= r <= 1)%Q
  /\ ((r == 0)%Q <-> Z.min end1 end2 <= Z.max start1 start2)
  /\ ((r == 1)%Q <-> start1 < end1 /\ start2 <= start1 /\ end1 <= end2).
Proof.
  cbv zeta. rewrite calculate_overlap_ratio.
  pose proof (overlap_ratio_le_1 (start1, end1) (start2, end2)) as Hle.
  unfold overlap_ratio, overlap_length in *. simpl fst in *. simpl snd in *.
  destruct (0 <? Z.min end1 end2 - Z.max start1 start2) eqn:E.
  - apply Z.ltb_lt in E.
    assert (Hd : (0 < inject_Z (end1 - start1))%Q).
    { change 0%Q with (inject_Z 0). rewrite <- Zlt_Qlt. lia. }
    assert (Hne : ~ (inject_Z (end1 - start1) == 0)%Q).
    { intros H0. rewrite H0 in Hd. exact (Qlt_irrefl _ Hd). }
    assert (Hpos : (0 < inject_Z (Z.min end1 end2 - Z.max start1 start2)
                        / inject_Z (end1 - start1))%Q).
    { apply Qlt_shift_div_l; [exact Hd|]. rewrite Qmult_0_l.
      change 0%Q with (inject_Z 0). rewrite <- Zlt_Qlt. exact E. }
    split; [split; [apply Qlt_le_weak; exact Hpos | exact Hle]|]. split.
    + split.
      * intros H. rewrite H in Hpos. exfalso. exact (Qlt_irrefl _ Hpos).
      * intros H. lia.
    + split.
      * intros H.
        assert (H1 : (inject_Z (end1 - start1)
                      == inject_Z (Z.min end1 end2 - Z.max start1 start2))%Q).
        { rewrite <- (@Qmult_div_r
                        (inject_Z (Z.min end1 end2 - Z.max start1 start2))
                        (inject_Z (end1 - start1)) Hne).
          rewrite H, Qmult_1_r. reflexivity. }
        apply (proj1 (inject_Z_injective _ _)) in H1. lia.
      * intros [H1 [H2 H3]].
        replace (Z.min end1 end2 - Z.max start1 start2) with (end1 - start1)
          by lia.
        unfold Qdiv. apply Qmult_inv_r. exact Hne.
  - apply Z.ltb_ge in E. split; [split; [apply Qle_refl | discriminate]|].
    split.
    + split; [intros _; lia | reflexivity].
    + split; [intros H; discriminate H | intros H; lia].
Qed.


Section Keys.

Context {A : Type} (key : A -> Z).

Lemma sorted_keys (l : list A) :
  StronglySorted (key_le key) l <-> StronglySorted Z.le (map key l).
Proof.
  induction l as [|x l IH]; simpl.
  - split; constructor.
  - split; intros H; inversion H as [|? ? Hs Hall]; subst; constructor.
    + apply IH. exact Hs.
    + rewrite Forall_map. exact Hall.
    + apply IH. exact Hs.
    + rewrite Forall_map in Hall. exact Hall.
Qed.

End Keys.

Lemma sorted_snoc (l : list Z) (a b : Z) :
  StronglySorted Z.le (l ++ [a]) -> a <= b ->
  StronglySorted Z.le ((l ++ [a]) ++ [b]).
Proof.
  intros Hs Hab. induction l as [|x l IH]; simpl in *.
  - repeat constructor. exact Hab.
  - inversion Hs as [|? ? Hs' Hall]; subst. constructor; [apply IH; exact Hs'|].
    apply Forall_app. split; [exact Hall|]. constructor; [|constructor].
    rewrite Forall_app in Hall. destruct Hall as [_ Ha].
    inversion Ha; subst. lia.
Qed.

Lemma keyword_not_semantic : keyword_search <> semantic_search.
Proof. discriminate. Qed.

Lemma two_elements {A : Type} (l : list A) (a b : A) :
  In a l -> In b l -> a <> b -> (2 <= length l)%nat.
Proof.
  destruct l as [|x [|y l]]; simpl; intros Ha Hb Hne.
  - destruct Ha.
  - destruct Ha as [<-|[]], Hb as [<-|[]]. congruence.
  - lia.
Qed.

Lemma merge_sources_In (a b : list Py.str) (x : Py.str) :
  In x (merge_sources a b) <-> In x a \/ In x b.
Proof.
  unfold merge_sources. revert a. induction b as [|y b IH]; intros a; simpl.
  - tauto.
  - rewrite IH. destruct (Py.str_in y a) eqn:E.
    + apply str_in_In in E. split; [tauto|].
      intros [H|[<-|H]]; tauto.
    + rewrite in_app_iff. simpl. tauto.
Qed.

Lemma seed_provenance (k : KeywordMatch loc) : provenance_ok (seed k).
Proof. left. repeat split. Qed.

Lemma provenance_sources (c : CombinedMatch loc) (s : Py.str) :
  provenance_ok c -> In s (sources c) ->
  s = keyword_search \/ s = semantic_search.
Proof.
  intros Hc Hs. unfold loc in *.
  destruct Hc as [[_ [E _]]|[[_ E]|[_ [_ [_ H]]]]].
  - rewrite E in Hs. destruct Hs as [<-|[]]. tauto.
  - rewrite E in Hs. destruct Hs as [<-|[]]. tauto.
  - apply H. exact Hs.
Qed.

Lemma absorb_into_provenance (c : CombinedMatch loc) (m : SemanticMatch) :
  provenance_ok c -> In keyword_search (sources c) ->
  provenance_ok (absorb_into c m).
Proof.
  intros Hc Hkw. right. right. unfold absorb_into. cbn [found_by sources].
  split; [reflexivity|].
  split; [apply in_or_app; left; exact Hkw|].
  split; [apply in_or_app; right; left; reflexivity|].
  intros s Hs. apply in_app_or in Hs. destruct Hs as [Hs|[<-|[]]]; [|tauto].
  eapply provenance_sources; eassumption.
Qed.

Section Invariants.

Context {So : SetOrder}.

Lemma merge_last_provenance (last current : CombinedMatch loc) (h : store) :
  provenance_ok last -> provenance_ok current ->
  provenance_ok (fst (merge_last last current h)).
Proof.
  intros Hl Hc.
  assert (Hboth : In keyword_search
                     (merge_sources (sources last) (sources current)) ->
                  In semantic_search
                     (merge_sources (sources last) (sources current)) ->
                  provenance_ok (fst (merge_last last current h))).
  { intros Hk Hs. right. right. unfold merge_last. simpl.
    pose proof (two_elements _ Hk Hs keyword_not_semantic) as Hlen.
    replace (Py.len (merge_sources (sources last) (sources current)) >? 1)
      with true by (symmetry; apply Z.gtb_lt; unfold Py.len; lia).
    repeat split; try assumption.
    intros s Hin. apply merge_sources_In in Hin.
    destruct Hin as [Hin|Hin];
      [ apply (@provenance_sources last s Hl Hin)
      | apply (@provenance_sources current s Hc Hin) ]. }
  unfold loc in *.
  destruct Hl as [[Hf [E [Hs [Hq Hsec]]]]|[[Hf E]|[Hf [Hk [Hs Hall]]]]].
  - destruct Hc as [[Hf' [E' [Hs' _]]]|[[Hf' E']|[Hf' [Hk' [Hs' Hall']]]]].
    + left. unfold merge_last. simpl. unfold loc. rewrite E, E', Hs, Hs'. simpl.
      repeat split; assumption.
    + apply Hboth; apply merge_sources_In; rewrite E, E'; simpl; tauto.
    + apply Hboth; apply merge_sources_In; rewrite E; simpl; tauto.
  - destruct Hc as [[Hf' [E' [Hs' _]]]|[[Hf' E']|[Hf' [Hk' [Hs' Hall']]]]].
    + apply Hboth; apply merge_sources_In; rewrite E, E'; simpl; tauto.
    + right. left. unfold merge_last. simpl. unfold loc. rewrite E, E'. simpl.
      split; [exact Hf | reflexivity].
    + apply Hboth; apply merge_sources_In; rewrite E; simpl; tauto.
  - apply Hboth; apply merge_sources_In; tauto.
Qed.

Lemma add_semantic_provenance (self : t) (cms : list (CombinedMatch loc))
    (h : store) (m : SemanticMatch) :
  Forall provenance_ok cms ->
  Forall provenance_ok (fst (add_semantic self (cms, h) m)).
Proof.
  intros Hall. unfold add_semantic.
  destruct (absorb self m cms) as [cms'|] eqn:E.
  - apply absorb_Some in E. destruct E as [pre [c [post [-> [-> Hc]]]]].
    simpl fst. rewrite Forall_app in Hall |- *. destruct Hall as [H1 H2].
    inversion H2; subst. split; [exact H1|]. constructor; [|assumption].
    apply absorb_into_provenance; [assumption|].
    unfold absorbs in Hc. apply andb_true_iff in Hc. apply str_in_In, Hc.
  - simpl fst. apply Forall_app. split; [exact Hall|].
    constructor; [|constructor]. right. left. split; reflexivity.
Qed.

Lemma final_sweep_provenance (self : t)
    (rest finished : list (CombinedMatch loc)) (last : CombinedMatch loc)
    (h : store) :
  Forall provenance_ok finished -> provenance_ok last ->
  Forall provenance_ok rest ->
  Forall provenance_ok (fst (final_sweep self finished last rest h)).
Proof.
  revert finished last h.
  induction rest as [|current rest IH]; intros finished last h Hf Hl Hr.
  - simpl. apply Forall_app. split; [exact Hf|]. constructor; [exact Hl | constructor].
  - rewrite final_sweep_cons. inversion Hr; subst.
    destruct (merges self last current).
    + apply IH; try assumption. apply merge_last_provenance; assumption.
    + apply IH; try assumption. apply Forall_app. split; [exact Hf|].
      constructor; [exact Hl | constructor].
Qed.

Lemma fold_add_semantic_provenance (self : t) (ms : list SemanticMatch)
    (st : list (CombinedMatch loc) * store) :
  Forall provenance_ok (fst st) ->
  Forall provenance_ok (fst (fold_left (add_semantic self) ms st)).
Proof.
  revert st. induction ms as [|m ms IH]; intros [cms h] Hst;
    cbn [fold_left]; [exact Hst|].
  apply IH. simpl fst in Hst. exact (add_semantic_provenance self h m Hst).
Qed.

Lemma reconcile_provenance_all (self : t) (h : store)
    (kws : list (KeywordMatch loc)) (ms : list SemanticMatch) :
  Forall provenance_ok (fst (reconcile self h kws ms)).
Proof.
  unfold reconcile.
  pose proof (fold_add_semantic_provenance self ms (map seed kws, h)) as Hf.
  destruct (fold_left _ ms _) as [cms h1]. simpl fst in Hf.
  assert (Hs : Forall provenance_ok (Py.sort_by (@char_start loc) cms)).
  { assert (Hc : Forall provenance_ok cms).
    { apply Hf. rewrite Forall_forall. intros c Hc.
      apply in_map_iff in Hc. destruct Hc as [k [<- _]].
      apply seed_provenance. }
    rewrite Forall_forall in Hc |- *. intros c Hin. apply Hc.
    eapply Permutation_in; [symmetry; apply sort_by_perm | exact Hin]. }
  unfold _final_dedup_pass.
  destruct (Py.sort_by _ cms) as [|first rest]; [constructor|].
  inversion Hs; subst. apply final_sweep_provenance; try assumption.
  constructor.
Qed.

(** X2. Every span that [deduplicate] returns carries a provenance tag
    that agrees with its sources: [keyword_only] with the single source
    [keyword_search] and the default score 0, query and sector;
    [semantic_only] with the single source [semantic_search]; [both] with
    both sources in its list, and no other. *)
Theorem deduplicate_provenance (self : t) (h : store)
    (kws : list (KeywordMatch loc)) (ms : list SemanticMatch) :
  match fst (deduplicate self h kws ms) with
  | Returned final => Forall provenance_ok final
  | Raised _ => True
  end.
Proof.
  unfold deduplicate.
  pose proof (reconcile_provenance_all self h kws ms) as H.
  destruct (reconcile self h kws ms) as [final h'].
  destruct (Py.nonempty final); [exact H | exact I].
Qed.

Lemma merge_last_start (last current : CombinedMatch loc) (h : store) :
  char_start (fst (merge_last last current h))
  = Z.min (char_start last) (char_start current).
Proof. reflexivity. Qed.

Lemma final_sweep_sorted (self : t)
    (rest finished : list (CombinedMatch loc)) (last : CombinedMatch loc)
    (h : store) :
  StronglySorted Z.le (map (@char_start loc) finished ++ [char_start last]) ->
  StronglySorted Z.le (char_start last :: map (@char_start loc) rest) ->
  StronglySorted Z.le
    (map (@char_start loc) (fst (final_sweep self finished last rest h))).
Proof.
  revert finished last h.
  induction rest as [|current rest IH]; intros finished last h Hf Hr.
  - simpl. rewrite map_app. exact Hf.
  - rewrite final_sweep_cons. cbn [map] in Hr.
    inversion Hr as [|? ? Hr' Hall]; subst.
    inversion Hall as [|? ? Hlc Hall']; subst.
    inversion Hr' as [|? ? Hr'' Hall'']; subst.
    destruct (merges self last current).
    + apply IH; rewrite merge_last_start, Z.min_l by exact Hlc.
      * exact Hf.
      * constructor; assumption.
    + apply IH.
      * rewrite map_app. cbn [map]. apply sorted_snoc; assumption.
      * exact Hr'.
Qed.

(** X3. The reconciled spans are in the order of their starts: no span
    starts before the one in front of it. *)
Theorem reconcile_sorted_by_start (self : t) (h : store)
    (kws : list (KeywordMatch loc)) (ms : list SemanticMatch) :
  StronglySorted (key_le (@char_start loc)) (fst (reconcile self h kws ms)).
Proof.
  unfold reconcile.
  destruct (fold_left _ ms _) as [cms h1].
  pose proof (sort_by_sorted (@char_start loc) cms) as Hs.
  apply sorted_keys. apply sorted_keys in Hs.
  unfold _final_dedup_pass.
  destruct (Py.sort_by _ cms) as [|first rest]; [constructor|].
  apply final_sweep_sorted; [repeat constructor | exact Hs].
Qed.

Lemma add_semantic_count (self : t) (cms : list (CombinedMatch loc))
    (h : store) (m : SemanticMatch) :
  (length cms <= length (fst (add_semantic self (cms, h) m)) <= length cms + 1
   /\ 1 <= length (fst (add_semantic self (cms, h) m)))%nat.
Proof.
  unfold add_semantic. destruct (absorb self m cms) as [cms'|] eqn:E.
  - apply absorb_Some in E. destruct E as [pre [c [post [-> [-> _]]]]].
    simpl fst. rewrite !length_app. simpl. lia.
  - simpl fst. rewrite length_app. simpl. lia.
Qed.

Lemma fold_add_semantic_count (self : t) (ms : list SemanticMatch)
    (st : list (CombinedMatch loc) * store) :
  (length (fst st) <= length (fst (fold_left (add_semantic self) ms st))
   <= length (fst st) + length ms)%nat
  /\ (ms <> [] ->
      1 <= length (fst (fold_left (add_semantic self) ms st)))%nat.
Proof.
  revert st. induction ms as [|m ms IH]; intros [cms h]; cbn [fold_left].
  - simpl. split; [lia | congruence].
  - destruct (IH (add_semantic self (cms, h) m)) as [IH1 _].
    pose proof (add_semantic_count self cms h m) as Hc.
    cbn [fst length]. split; [lia|]. intros _. lia.
Qed.

Lemma final_sweep_count (self : t)
    (rest finished : list (CombinedMatch loc)) (last : CombinedMatch loc)
    (h : store) :
  (length finished + 1 <= length (fst (final_sweep self finished last rest h))
   <= length finished + 1 + length rest)%nat.
Proof.
  revert finished last h.
  induction rest as [|current rest IH]; intros finished last h.
  - simpl. rewrite length_app. simpl. lia.
  - rewrite final_sweep_cons. destruct (merges self last current).
    + specialize (IH finished (fst (merge_last last current h))
                     (snd (merge_last last current h))).
      cbn [length]. lia.
    + specialize (IH (finished ++ [last]) current h).
      rewrite length_app in IH. cbn [length] in *. lia.
Qed.

Lemma reconcile_count (self : t) (h : store)
    (kws : list (KeywordMatch loc)) (ms : list SemanticMatch) :
  (length (fst (reconcile self h kws ms)) <= length kws + length ms)%nat
  /\ (kws <> [] \/ ms <> [] ->
      1 <= length (fst (reconcile self h kws ms)))%nat.
Proof.
  unfold reconcile.
  destruct (fold_add_semantic_count self ms (map seed kws, h)) as [Hc Hm].
  destruct (fold_left _ ms _) as [cms h1]. simpl fst in Hc, Hm.
  rewrite length_map in Hc.
  pose proof (Permutation_length (sort_by_perm (@char_start loc) cms)) as Hp.
  unfold _final_dedup_pass.
  destruct (Py.sort_by _ cms) as [|first rest].
  - simpl in *. split; [lia|]. intros [Hk|Hs].
    + destruct kws; [congruence | simpl in Hc; lia].
    + specialize (Hm Hs). lia.
  - pose proof (final_sweep_count self rest [] first h1) as Hf.
    simpl length in *. split; [lia|]. intros _. lia.
Qed.

(** X4. [deduplicate] raises exactly when it is given no span at all; on
    any other input it returns at least one span and at most as many as
    it was given. *)
Theorem deduplicate_outcome (self : t) (h : store)
    (kws : list (KeywordMatch loc)) (ms : list SemanticMatch) :
  (kws = [] /\ ms = []
   /\ fst (deduplicate self h kws ms)
      = Raised (Py.of_string "ZeroDivisionError"))
  \/ ((kws <> [] \/ ms <> [])
      /\ exists final,
           fst (deduplicate self h kws ms) = Returned final
           /\ (1 <= length final <= length kws + length ms)%nat).
Proof.
  destruct kws as [|k kws]; [destruct ms as [|m ms]|].
  - left. repeat split.
  - right. split; [right; discriminate|].
    destruct (reconcile_count self h [] (m :: ms)) as [Hle Hge].
    unfold deduplicate.
    destruct (reconcile self h [] (m :: ms)) as [final h'].
    simpl fst in *. destruct final as [|c final].
    + exfalso. simpl in Hge.
      assert (1 <= 0)%nat by (apply Hge; right; discriminate). lia.
    + exists (c :: final). split; [reflexivity|].
      split; [simpl; lia | exact Hle].
  - right. split; [left; discriminate|].
    destruct (reconcile_count self h (k :: kws) ms) as [Hle Hge].
    unfold deduplicate.
    destruct (reconcile self h (k :: kws) ms) as [final h'].
    simpl fst in *. destruct final as [|c final].
    + exfalso. simpl in Hge.
      assert (1 <= 0)%nat by (apply Hge; left; discriminate). lia.
    + exists (c :: final). split; [reflexivity|].
      split; [simpl; lia | exact Hle].
Qed.

End Invariants.

End ReconcileFacts.

(** ** The chunks of a document, one after the other *)

Module ChunkOrderFacts.

Import Py PyFacts SemanticSearcher Spec ChunkFacts.

(** The step that emits a chunk, with the text it carries over. *)
Lemma chunk_step_emit (chunk_size overlap : Z) (st : chunker) (p : str) :
  nonempty (strip p) = true ->
  nonempty (current_chunk st) = true ->
  len (current_chunk st) + len (strip p) > chunk_size ->
  let overlap_text :=
    if len (current_chunk st) >? overlap
    then slice_from (current_chunk st) (- overlap)
    else current_chunk st in
  chunk_step chunk_size overlap st p
  = mkChunker
      (chunks st ++ [(strip (current_chunk st), chunk_start st,
                      current_pos st)])
      (overlap_text ++ " "%char :: strip p)
      (current_pos st - len overlap_text)
      (current_pos st + (len (strip p) + 2)).
Proof.
  intros Hp Hc Hgt. cbv zeta. unfold chunk_step. rewrite Hp, Hc.
  replace (len (current_chunk st) + len (strip p) >? chunk_size) with true
    by (symmetry; apply Z.gtb_lt; lia).
  reflexivity.
Qed.

Lemma len_overlap_text (overlap : Z) (s : str) :
  0 < overlap -> nonempty s = true ->
  1 <= len (if len s >? overlap then slice_from s (- overlap) else s)
    <= overlap.
Proof.
  intros Ho Hs. apply nonempty_len in Hs.
  destruct (len s >? overlap) eqn:E.
  - apply Z.gtb_lt in E. unfold slice_from, slice_index.
    replace (- overlap <? 0) with true by (symmetry; apply Z.ltb_lt; lia).
    rewrite len_skipn. lia.
  - assert (len s <= overlap) by (destruct (Z.gtb_spec (len s) overlap); [discriminate | lia]).
    lia.
Qed.

Lemma chained_snoc (overlap : Z) (l : list chunk) (c d : chunk) :
  chained overlap (l ++ [c]) ->
  snd c - overlap <= snd (fst d) < snd c ->
  snd (fst c) < snd (fst d) ->
  snd c < snd d ->
  chained overlap ((l ++ [c]) ++ [d]).
Proof.
  intros Hl H1 H2 H3. induction l as [|x l IH].
  - simpl. repeat split; try lia.
  - destruct Hl as [Hx Hl]. specialize (IH Hl).
    split; [|exact IH].
    destruct l; exact Hx.
Qed.

(** The invariant of the loop: the chunks made so far follow one another,
    and the chunk in the making follows the last of them. *)
Lemma chunk_step_chained (chunk_size overlap : Z) (st : chunker) (p : str) :
  0 < overlap -> chunker_ok st ->
  (chained overlap (chunks st)
   /\ forall l c, chunks st = l ++ [c] ->
        nonempty (current_chunk st) = true
        /\ snd c - overlap <= chunk_start st < snd c
        /\ snd (fst c) < chunk_start st
        /\ snd c < current_pos st) ->
  let st' := chunk_step chunk_size overlap st p in
  chained overlap (chunks st')
  /\ forall l c, chunks st' = l ++ [c] ->
       nonempty (current_chunk st') = true
       /\ snd c - overlap <= chunk_start st' < snd c
       /\ snd (fst c) < chunk_start st'
       /\ snd c < current_pos st'.
Proof.
  intros Ho Hok [Hch Hlast]. cbv zeta.
  pose proof (len_nonneg (strip p)) as Hlp.
  destruct (chunk_step_cases chunk_size overlap st p)
    as [[Hp E]|[[Hp [Hne [Hgt _]]]|[[Hp [Hne [Hle E]]]|[Hp [Hnil E]]]]].
  - rewrite E. simpl. split; [exact Hch|]. intros l c Hl.
    destruct (Hlast l c Hl) as [H1 [H2 [H3 H4]]]. repeat split; try lia.
    exact H1.
  - rewrite (@chunk_step_emit chunk_size overlap st p Hp Hne Hgt).
    pose proof (@len_overlap_text overlap (current_chunk st) Ho Hne) as Hot.
    set (ot := if len (current_chunk st) >? overlap
               then slice_from (current_chunk st) (- overlap)
               else current_chunk st) in *.
    assert (Hle : len ot <= len (current_chunk st)).
    { unfold ot. destruct (_ >? _); [apply len_slice_from_le | lia]. }
    destruct Hok as [_ [_ Hcur]]. destruct (Hcur Hne) as [Hs [Hlen _]].
    simpl. split.
    + destruct (chunks st) as [|c0 l0] eqn:Ech using rev_ind.
      * simpl. auto.
      * destruct (Hlast l0 c0 eq_refl) as [_ [H2 [H3 H4]]].
        apply chained_snoc; simpl; try lia. exact Hch.
    + intros l c Hl. apply app_inj_tail in Hl. destruct Hl as [_ <-].
      simpl. split; [|lia].
      destruct ot; reflexivity.
  - rewrite E. simpl. split; [exact Hch|]. intros l c Hl.
    destruct (Hlast l c Hl) as [H1 [H2 [H3 H4]]]. repeat split; try lia.
    destruct (current_chunk st); [discriminate | reflexivity].
  - rewrite E. simpl. split; [exact Hch|]. intros l c Hl.
    destruct (Hlast l c Hl) as [H1 _]. rewrite Hnil in H1. discriminate.
Qed.

(** X5. With a positive [overlap], the chunks of [_create_chunks] follow
    one another: each chunk starts before the end of the chunk in front of
    it, by at least one and at most [overlap] characters, and after its
    start, and it ends after it. *)
Theorem create_chunks_chained (text : str) (chunk_size overlap : Z) :
  0 < overlap -> chained overlap (_create_chunks text chunk_size overlap).
Proof.
  intros Ho. unfold _create_chunks.
  assert (H : forall ps st,
            chunker_ok st ->
            (chained overlap (chunks st)
             /\ forall l c, chunks st = l ++ [c] ->
                  nonempty (current_chunk st) = true
                  /\ snd c - overlap <= chunk_start st < snd c
                  /\ snd (fst c) < chunk_start st
                  /\ snd c < current_pos st) ->
            let st' := fold_left (chunk_step chunk_size overlap) ps st in
            chunker_ok st'
            /\ chained overlap (chunks st')
            /\ forall l c, chunks st' = l ++ [c] ->
                 nonempty (current_chunk st') = true
                 /\ snd c - overlap <= chunk_start st' < snd c
                 /\ snd (fst c) < chunk_start st'
                 /\ snd c < current_pos st').
  { induction ps as [|p ps IH]; intros st Hok Hinv; cbn [fold_left].
    - cbv zeta. split; [exact Hok | exact Hinv].
    - apply IH.
      + apply chunk_step_ok. exact Hok.
      + apply chunk_step_chained; assumption. }
  destruct (H (split_paragraphs text) chunker_init) as [Hok [Hch Hlast]].
  - split; [constructor|]. split; [simpl; lia|]. discriminate.
  - split; [exact I|]. intros [|x l] c Hl; discriminate Hl.
  - set (st := fold_left _ _ _) in *. unfold chunker_finish.
    destruct (nonempty (current_chunk st)) eqn:Hne; [|exact Hch].
    destruct (chunks st) as [|c0 l0] eqn:Ech using rev_ind.
    + simpl. auto.
    + destruct (Hlast l0 c0 eq_refl) as [_ [H2 [H3 H4]]].
      apply chained_snoc; simpl; try lia. exact Hch.
Qed.

(** The offsets of the chunker stay below the length of what it has
    read. *)
Lemma fold_chunk_step_pos (chunk_size overlap : Z) (ps : list str)
    (st : chunker) :
  Forall (fun c : chunk => snd c <= current_pos st) (chunks st) ->
  let st' := fold_left (chunk_step chunk_size overlap) ps st in
  Forall (fun c : chunk => snd c <= current_pos st') (chunks st')
  /\ current_pos st' <= current_pos st + total_len ps.
Proof.
  cbv zeta. revert st. induction ps as [|p ps IH]; intros st Hall.
  - simpl. split; [exact Hall | lia].
  - cbn [fold_left]. rewrite total_len_cons.
    pose proof (len_nonneg (strip p)) as Hlp.
    pose proof (len_strip_le p) as Hle.
    set (st1 := chunk_step chunk_size overlap st p).
    assert (Hpos : current_pos st <= current_pos st1
                   /\ current_pos st1 <= current_pos st + (len p + 2)
                   /\ forall c, In c (chunks st1) ->
                        In c (chunks st) \/ snd c = current_pos st).
    { unfold st1.
      destruct (chunk_step_cases chunk_size overlap st p)
        as [[Hp E]|[[Hp [Hne [Hgt [ot [pre [_ E]]]]]]
                    |[[Hp [Hne [Hle' E]]]|[Hp [Hnil E]]]]];
        rewrite E; simpl; repeat split; try lia; try tauto.
      intros c Hc. apply in_app_or in Hc. destruct Hc as [Hc|[<-|[]]]; auto. }
    destruct Hpos as [H1 [H2 H3]].
    destruct (IH st1) as [IH1 IH2].
    + rewrite Forall_forall in Hall |- *. intros c Hc.
      destruct (H3 c Hc) as [Hin| ->]; [specialize (Hall c Hin)|]; lia.
    + split; [exact IH1 | lia].
Qed.

(** X6. No chunk ends more than two characters after the end of the
    text. *)
Theorem create_chunks_within (text : str) (chunk_size overlap : Z)
    (c : chunk) :
  In c (_create_chunks text chunk_size overlap) ->
  snd c <= len text + 2.
Proof.
  unfold _create_chunks.
  destruct (@fold_chunk_step_pos chunk_size overlap (split_paragraphs text)
              chunker_init (Forall_nil _)) as [Hall Hpos].
  set (st := fold_left _ _ _) in *.
  rewrite total_len_split in Hpos. simpl in Hpos.
  unfold chunker_finish. intros Hin.
  assert (Hc : In c (chunks st) \/ snd c = current_pos st).
  { destruct (nonempty (current_chunk st)); [|left; exact Hin].
    apply in_app_or in Hin. destruct Hin as [Hin|[<-|[]]]; auto. }
  rewrite Forall_forall in Hall.
  destruct Hc as [Hc| ->]; [specialize (Hall c Hc)|]; lia.
Qed.

(** *** What the chunks hold *)

Lemma infix_refl (q : str) : infix q q.
Proof. exists [], []. rewrite app_nil_r. reflexivity. Qed.

Lemma infix_app (q t before after : str) :
  infix q t -> infix q (before ++ t ++ after).
Proof.
  intros [b [a ->]]. exists (before ++ b), (a ++ after).
  rewrite <- !app_assoc. reflexivity.
Qed.

Lemma lstrip_infix (q t : str) :
  (exists c q', q = c :: q' /\ isspace c = false) ->
  infix q t -> infix q (lstrip t).
Proof.
  intros [c [q' [-> Hc]]] [before [after ->]].
  induction before as [|x before IH]; simpl.
  - rewrite Hc. exists [], after. reflexivity.
  - destruct (isspace x); [exact IH|].
    exists (x :: before), after. reflexivity.
Qed.

Lemma infix_rev (q t : str) : infix q t -> infix (rev q) (rev t).
Proof.
  intros [before [after ->]]. exists (rev after), (rev before).
  rewrite !rev_app_distr, <- app_assoc. reflexivity.
Qed.

Lemma tight_rev (q : str) : tight q -> tight (rev q).
Proof.
  intros [[c [q1 [E1 H1]]] [q2 [d [E2 H2]]]]. split.
  - exists d, (rev q2). rewrite E2, rev_app_distr. split; [reflexivity|exact H2].
  - exists (rev q1), c. rewrite E1. split; [reflexivity|exact H1].
Qed.

(** Stripping a text leaves what it holds between two characters that are
    not whitespace. *)
Lemma strip_infix (q t : str) : tight q -> infix q t -> infix q (strip t).
Proof.
  intros Hq Hin. unfold strip, rstrip.
  rewrite <- (rev_involutive q). apply infix_rev.
  apply lstrip_infix; [apply (tight_rev Hq)|].
  apply infix_rev. apply lstrip_infix; [apply Hq | exact Hin].
Qed.

Lemma strip_tight (p : str) : nonempty (strip p) = true -> tight (strip p).
Proof.
  intros Hne. split.
  - pose proof (strip_head p) as H. destruct (strip p) as [|c r];
      [discriminate|]. exists c, r. auto.
  - unfold strip, rstrip in *.
    pose proof (lstrip_head (rev (lstrip p))) as H.
    destruct (lstrip (rev (lstrip p))) as [|d r]; [discriminate|].
    exists (rev r), d. auto.
Qed.

Lemma tight_nonempty (q : str) : tight q -> q <> [].
Proof. intros [[c [q' [-> _]]] _]. discriminate. Qed.

(** A tight text is its own stripped text. *)
Lemma strip_tight_id (q : str) : tight q -> strip q = q.
Proof.
  intros [[c [q1 [E1 H1]]] [q2 [d [E2 H2]]]].
  unfold strip, rstrip.
  assert (Hl : lstrip q = q) by (rewrite E1; apply lstrip_fixed; exact H1).
  rewrite Hl. rewrite E2 at 1. rewrite rev_app_distr. simpl app.
  rewrite lstrip_fixed by exact H2.
  change (d :: rev q2) with ([d] ++ rev q2).
  rewrite rev_app_distr, rev_involutive. simpl. symmetry. exact E2.
Qed.

(** Two tight texts joined by a space make a tight text. *)
Lemma tight_join (a b : str) : tight a -> tight b -> tight (a ++ " "%char :: b).
Proof.
  intros [[c [a1 [E1 H1]]] _] [_ [b2 [d [E2 H2]]]]. split.
  - exists c, (a1 ++ " "%char :: b). rewrite E1. split; [reflexivity|exact H1].
  - exists (a ++ " "%char :: b2), d. rewrite E2 at 1.
    rewrite <- app_assoc. split; [reflexivity|exact H2].
Qed.

Lemma chunk_step_held (chunk_size overlap : Z) (st : chunker) (p q : str) :
  tight q -> held st q -> held (chunk_step chunk_size overlap st p) q.
Proof.
  intros Hq Hh.
  destruct (chunk_step_cases chunk_size overlap st p)
    as [[Hp E]|[[Hp [Hne [Hgt [ot [pre [_ E]]]]]]
                |[[Hp [Hne [Hle E]]]|[Hp [Hnil E]]]]];
    rewrite E; unfold held in *; simpl.
  - exact Hh.
  - left. destruct Hh as [[c [Hc Hin]]|Hin].
    + exists c. split; [apply in_or_app; left; exact Hc | exact Hin].
    + eexists. split; [apply in_or_app; right; left; reflexivity|].
      simpl. apply strip_infix; assumption.
  - destruct Hh as [Hh|Hin]; [left; exact Hh | right].
    apply (@infix_app q (current_chunk st) [] (" "%char :: strip p) Hin).
  - destruct Hh as [Hh|Hin]; [left; exact Hh | exfalso].
    rewrite Hnil in Hin. destruct Hin as [b [a Ea]].
    apply (tight_nonempty Hq). symmetry in Ea.
    apply app_eq_nil in Ea. destruct Ea as [_ Ea].
    apply app_eq_nil in Ea. apply Ea.
Qed.

Lemma chunk_step_holds (chunk_size overlap : Z) (st : chunker) (p : str) :
  nonempty (strip p) = true ->
  held (chunk_step chunk_size overlap st p) (strip p).
Proof.
  intros Hne. right.
  destruct (chunk_step_cases chunk_size overlap st p)
    as [[Hp E]|[[Hp [_ [Hgt [ot [pre [_ E]]]]]]
                |[[Hp [_ [Hle E]]]|[Hp [Hnil E]]]]];
    rewrite E; simpl.
  - congruence.
  - exists (ot ++ [" "%char]), []. rewrite <- !app_assoc, app_nil_r.
    reflexivity.
  - exists (current_chunk st ++ [" "%char]), [].
    rewrite <- !app_assoc, app_nil_r. reflexivity.
  - apply infix_refl.
Qed.

Lemma fold_chunk_step_held (chunk_size overlap : Z) (ps : list str)
    (st : chunker) (q : str) :
  tight q -> held st q ->
  held (fold_left (chunk_step chunk_size overlap) ps st) q.
Proof.
  intros Hq. revert st. induction ps as [|p ps IH]; intros st Hh;
    cbn [fold_left]; [exact Hh|].
  apply IH. apply chunk_step_held; assumption.
Qed.

(** X7. [_create_chunks] loses no paragraph: the stripped text of every
    paragraph that is not blank occurs in the text of a chunk. *)
Theorem create_chunks_keeps_paragraphs (text : str) (chunk_size overlap : Z)
    (p : str) :
  In p (split_paragraphs text) -> nonempty (strip p) = true ->
  exists c,
    In c (_create_chunks text chunk_size overlap)
    /\ infix (strip p) (fst (fst c)).
Proof.
  intros Hin Hne. pose proof (strip_tight p Hne) as Hq.
  unfold _create_chunks.
  assert (Hh : forall ps st, In p ps ->
                 held (fold_left (chunk_step chunk_size overlap) ps st)
                      (strip p)).
  { induction ps as [|p' ps IH]; intros st Hp; [destruct Hp|].
    cbn [fold_left]. destruct Hp as [->|Hp]; [|apply IH; exact Hp].
    apply fold_chunk_step_held; [exact Hq|].
    apply chunk_step_holds. exact Hne. }
  specialize (Hh (split_paragraphs text) chunker_init Hin).
  set (st := fold_left _ _ _) in *. unfold chunker_finish.
  destruct Hh as [[c [Hc Hci]]|Hcur].
  - exists c. split; [|exact Hci].
    destruct (nonempty (current_chunk st)); [apply in_or_app; left|];
      exact Hc.
  - destruct (nonempty (current_chunk st)) eqn:Hcn.
    + eexists. split; [apply in_or_app; right; left; reflexivity|].
      simpl. apply strip_infix; assumption.
    + exfalso. apply nonempty_false in Hcn. rewrite Hcn in Hcur.
      destruct Hcur as [b [a Ea]]. apply (tight_nonempty Hq).
      symmetry in Ea. apply app_eq_nil in Ea. destruct Ea as [_ Ea].
      apply app_eq_nil in Ea. apply Ea.
Qed.

(** *** An overlap of 0 *)

(** [s[-0:]] is the whole of [s]. *)
Lemma slice_from_0 {A : Type} (s : list A) : slice_from s (- 0) = s.
Proof.
  unfold slice_from, slice_index. simpl Z.opp.
  pose proof (len_nonneg s).
  replace (0 <? 0) with false by reflexivity.
  rewrite Z.min_l by lia. reflexivity.
Qed.

Lemma cumulative_snoc (l : list chunk) (c d : chunk) :
  cumulative (l ++ [c]) ->
  (exists more, fst (fst d) = fst (fst c) ++ " "%char :: more) ->
  cumulative ((l ++ [c]) ++ [d]).
Proof.
  intros Hl Hd. induction l as [|x l IH].
  - simpl. auto.
  - destruct Hl as [Hx Hl]. specialize (IH Hl).
    split; [|exact IH].
    destruct l; exact Hx.
Qed.

Lemma chunk_step_cumulative (chunk_size : Z) (st : chunker) (p : str) :
  cumulative (chunks st) ->
  (current_chunk st = [] \/ tight (current_chunk st)) ->
  (forall l c, chunks st = l ++ [c] ->
     exists more, current_chunk st = fst (fst c) ++ " "%char :: more) ->
  let st' := chunk_step chunk_size 0 st p in
  cumulative (chunks st')
  /\ (current_chunk st' = [] \/ tight (current_chunk st'))
  /\ forall l c, chunks st' = l ++ [c] ->
       exists more, current_chunk st' = fst (fst c) ++ " "%char :: more.
Proof.
  intros Hch Hcur Hlast. cbv zeta.
  assert (Ht : nonempty (current_chunk st) = true -> tight (current_chunk st)).
  { intros Hne. destruct Hcur as [Hcur|Hcur]; [|exact Hcur].
    rewrite Hcur in Hne. discriminate. }
  destruct (chunk_step_cases chunk_size 0 st p)
    as [[Hp E]|[[Hp [Hne [Hgt _]]]|[[Hp [Hne [Hle E]]]|[Hp [Hnil E]]]]].
  - rewrite E. simpl. auto.
  - rewrite (@chunk_step_emit chunk_size 0 st p Hp Hne Hgt).
    replace (len (current_chunk st) >? 0) with true
      by (symmetry; apply Z.gtb_lt; apply nonempty_len; exact Hne).
    rewrite slice_from_0, (strip_tight_id (Ht Hne)). simpl.
    split; [|split].
    + destruct (chunks st) as [|c0 l0] eqn:Ech using rev_ind.
      * simpl. auto.
      * apply cumulative_snoc; [exact Hch|]. simpl.
        apply (Hlast l0 c0 eq_refl).
    + right. apply tight_join; [exact (Ht Hne) | apply strip_tight; exact Hp].
    + intros l c Hl. apply app_inj_tail in Hl. destruct Hl as [_ <-].
      simpl. eexists. reflexivity.
  - rewrite E. simpl. split; [exact Hch|]. split.
    + right. apply tight_join; [exact (Ht Hne) | apply strip_tight; exact Hp].
    + intros l c Hl. destruct (Hlast l c Hl) as [more Em].
      exists (more ++ " "%char :: strip p). rewrite Em at 1.
      rewrite <- app_assoc. reflexivity.
  - rewrite E. simpl. split; [exact Hch|]. split.
    + right. apply strip_tight. exact Hp.
    + intros l c Hl. destruct (Hlast l c Hl) as [more Em].
      rewrite Hnil in Em. destruct (fst (fst c)); discriminate Em.
Qed.

(** X8. An [overlap] of 0 does not switch the overlap off: the slice
    [current_chunk[-0:]] is the whole chunk, so each chunk begins with the
    whole text of the chunk in front of it. *)
Theorem create_chunks_overlap_0_cumulative (text : str) (chunk_size : Z) :
  cumulative (_create_chunks text chunk_size 0).
Proof.
  unfold _create_chunks.
  assert (H : forall ps st,
            cumulative (chunks st) ->
            (current_chunk st = [] \/ tight (current_chunk st)) ->
            (forall l c, chunks st = l ++ [c] ->
               exists more,
                 current_chunk st = fst (fst c) ++ " "%char :: more) ->
            let st' := fold_left (chunk_step chunk_size 0) ps st in
            cumulative (chunks st')
            /\ (current_chunk st' = [] \/ tight (current_chunk st'))
            /\ forall l c, chunks st' = l ++ [c] ->
                 exists more,
                   current_chunk st' = fst (fst c) ++ " "%char :: more).
  { induction ps as [|p ps IH]; intros st H1 H2 H3; cbn [fold_left].
    - cbv zeta. auto.
    - destruct (@chunk_step_cumulative chunk_size st p H1 H2 H3)
        as [H1' [H2' H3']].
      apply IH; assumption. }
  destruct (H (split_paragraphs text) chunker_init) as [Hch [Hcur Hlast]].
  - exact I.
  - left. reflexivity.
  - intros [|x l] c Hl; discriminate Hl.
  - set (st := fold_left _ _ _) in *. unfold chunker_finish.
    destruct (nonempty (current_chunk st)) eqn:Hne; [|exact Hch].
    assert (Ht : tight (current_chunk st)).
    { destruct Hcur as [Hcur|Hcur]; [|exact Hcur].
      rewrite Hcur in Hne. discriminate. }
    rewrite (strip_tight_id Ht).
    destruct (chunks st) as [|c0 l0] eqn:Ech using rev_ind.
    + simpl. auto.
    + apply cumulative_snoc; [exact Hch|]. simpl.
      apply (Hlast l0 c0 eq_refl).
Qed.

Lemma create_chunks_chained_witness :
  0 < 100 /\ chained 100 (_create_chunks two_paragraphs 500 100).
Proof.
  assert (H : 0 < 100) by lia.
  split; [exact H|].
  exact (@create_chunks_chained two_paragraphs 500 100 H).
Defined.

Lemma create_chunks_within_witness :
  let c : chunk := (repeat "a"%char 100, 0, 102) in
  In c (_create_chunks two_paragraphs 500 100)
  /\ snd c <= len two_paragraphs + 2.
Proof.
  cbv zeta.
  assert (H : In (repeat "a"%char 100, 0, 102)
                 (_create_chunks two_paragraphs 500 100))
    by (vm_compute; left; reflexivity).
  split; [exact H|].
  exact (@create_chunks_within two_paragraphs 500 100 _ H).
Defined.

Lemma create_chunks_keeps_paragraphs_witness :
  let p := repeat "b"%char 450 in
  In p (split_paragraphs two_paragraphs)
  /\ nonempty (strip p) = true
  /\ exists c,
       In c (_create_chunks two_paragraphs 500 100)
       /\ infix (strip p) (fst (fst c)).
Proof.
  cbv zeta.
  assert (H1 : In (repeat "b"%char 450) (split_paragraphs two_paragraphs))
    by (vm_compute; right; left; reflexivity).
  assert (H2 : nonempty (strip (repeat "b"%char 450)) = true)
    by (vm_compute; reflexivity).
  split; [exact H1|]. split; [exact H2|].
  exact (@create_chunks_keeps_paragraphs two_paragraphs 500 100 _ H1 H2).
Defined.

End ChunkOrderFacts.

(** ** Identifiers of the spans *)

Module IdentifierFacts.

Import Py PyFacts Spec SortFacts SemanticFacts.

Lemma of_uint_D0 (d : Decimal.uint) :
  Nat.of_uint (Decimal.D0 d) = Nat.of_uint d.
Proof.
  rewrite <- (DecimalNat.Unsigned.of_uint_norm (Decimal.D0 d)).
  rewrite <- (DecimalNat.Unsigned.of_uint_norm d). reflexivity.
Qed.

Lemma decode_zeros (k : nat) (l : str) :
  option_map Nat.of_uint
    (NilEmpty.uint_of_string
       (String.string_of_list_ascii (repeat "0"%char k ++ l)))
  = option_map Nat.of_uint
      (NilEmpty.uint_of_string (String.string_of_list_ascii l)).
Proof.
  induction k as [|k IH]; [reflexivity|].
  cbn [repeat app String.string_of_list_ascii NilEmpty.uint_of_string].
  rewrite <- IH.
  destruct (NilEmpty.uint_of_string _) as [d|]; [|reflexivity].
  simpl. rewrite of_uint_D0. reflexivity.
Qed.

(** The number can be read back from [f"{n:04d}"]. *)
Lemma format_04d_decode (n : nat) :
  option_map Nat.of_uint
    (NilEmpty.uint_of_string (String.string_of_list_ascii (format_04d n)))
  = Some n.
Proof.
  unfold format_04d, of_string. rewrite decode_zeros.
  rewrite String.string_of_list_ascii_of_string.
  pose proof (DecimalNat.Unsigned.of_to n) as Hn.
  destruct (Nat.to_uint n) as [| | | | | | | | | |] eqn:E;
    try (unfold NilZero.string_of_uint; rewrite NilEmpty.usu; simpl;
         rewrite Hn; reflexivity).
  simpl in Hn. subst n. reflexivity.
Qed.

Lemma format_04d_inj (n m : nat) : format_04d n = format_04d m -> n = m.
Proof.
  intros H. pose proof (format_04d_decode n) as Hn.
  rewrite H, format_04d_decode in Hn. congruence.
Qed.

Lemma str_of_nat_inj (n m : nat) : str_of_nat n = str_of_nat m -> n = m.
Proof.
  intros H. apply format_04d_inj. unfold format_04d.
  change (of_string (NilZero.string_of_uint (Nat.to_uint n)))
    with (str_of_nat n).
  change (of_string (NilZero.string_of_uint (Nat.to_uint m)))
    with (str_of_nat m).
  rewrite H. reflexivity.
Qed.

Lemma numbered_inj (prefix : str) (n m : nat) :
  prefix ++ format_04d n = prefix ++ format_04d m -> n = m.
Proof. intros H. apply app_inv_head in H. apply format_04d_inj. exact H. Qed.

Lemma numbered_NoDup (prefix : str) (n : nat) :
  NoDup (map (fun i => prefix ++ format_04d i) (seq 0 n)).
Proof.
  apply Finite.Injective_map_NoDup; [|apply seq_NoDup].
  intros i j. apply numbered_inj.
Qed.

Lemma subseq_NoDup {A : Type} (l l' : list A) :
  subseq l l' -> NoDup l' -> NoDup l.
Proof.
  induction 1 as [|x l l' Hs IH|x l l' Hs IH]; intros Hnd.
  - constructor.
  - inversion Hnd; subst. apply IH. assumption.
  - inversion Hnd as [|? ? Hx Hnd']; subst. constructor; [|apply IH; exact Hnd'].
    intros Hin. apply Hx. eapply subseq_In; eassumption.
Qed.

Lemma subseq_app_keep {A : Type} (acc l l' : list A) :
  subseq l l' -> subseq (acc ++ l) (acc ++ l').
Proof. intros H. induction acc; simpl; [exact H | constructor; assumption]. Qed.

(** A list that takes distinct elements of [l] has distinct images, when
    [l] has. *)
Lemma NoDup_map_within {A B : Type} (f : A -> B) (l l' : list A) :
  NoDup (map f l) -> NoDup l' -> (forall x, In x l' -> In x l) ->
  NoDup (map f l').
Proof.
  intros Hl Hl' Hin.
  assert (Hinj : forall x y, In x l -> In y l -> f x = f y -> x = y).
  { clear l' Hl' Hin. induction l as [|a l IH]; intros x y Hx Hy E;
      [destruct Hx|].
    simpl in Hl. inversion Hl as [|? ? Ha Hl']; subst.
    destruct Hx as [<-|Hx], Hy as [<-|Hy].
    - reflexivity.
    - exfalso. apply Ha. rewrite E. apply in_map. exact Hy.
    - exfalso. apply Ha. rewrite <- E. apply in_map. exact Hx.
    - apply IH; assumption. }
  induction Hl' as [|x l' Hx Hnd IH]; simpl; constructor.
  - intros Hfx. apply in_map_iff in Hfx. destruct Hfx as [y [E Hy]].
    assert (y = x).
    { apply Hinj; [apply Hin; right; exact Hy | apply Hin; left; reflexivity
                   | exact E]. }
    subst y. contradiction.
  - apply IH. intros y Hy. apply Hin. right. exact Hy.
Qed.

Lemma numbered_snoc (prefix : str) (ids : list str) :
  numbered prefix ids ->
  numbered prefix (ids ++ [prefix ++ format_04d (length ids)]).
Proof.
  unfold numbered. intros H. rewrite length_app. simpl length.
  rewrite Nat.add_1_r, seq_S, map_app. simpl. rewrite <- H. reflexivity.
Qed.

Lemma numbered_distinct (prefix : str) (ids : list str) :
  numbered prefix ids -> NoDup ids.
Proof. intros H. rewrite H. apply numbered_NoDup. Qed.

(** *** Positions of the deduplicated matches *)

Lemma deduplicate_by_position_positions (ms : list SemanticMatch) :
  map SemanticSearcher.position (SemanticSearcher._deduplicate_by_position ms)
  = first_occurrences (map SemanticSearcher.position ms).
Proof.
  unfold SemanticSearcher._deduplicate_by_position.
  destruct (position_map_fold ms) as [Hkeys Hall].
  rewrite <- Hkeys, map_map. apply map_ext_in.
  intros kv Hin. rewrite Forall_forall in Hall.
  symmetry. apply (Hall kv Hin).
Qed.

Lemma deduplicate_by_position_NoDup (ms : list SemanticMatch) :
  NoDup (map SemanticSearcher.position
             (SemanticSearcher._deduplicate_by_position ms)).
Proof.
  rewrite deduplicate_by_position_positions. apply first_occurrences_NoDup.
Qed.

Lemma fold_position_map_distinct (l : list SemanticMatch)
    (pm : list (Z * Z * SemanticMatch)) :
  NoDup (map fst pm ++ map SemanticSearcher.position l) ->
  fold_left (fun pm m => SemanticSearcher.position_map_update m pm) l pm
  = pm ++ map (fun m => (SemanticSearcher.position m, m)) l.
Proof.
  revert pm. induction l as [|m l IH]; intros pm Hnd; cbn [fold_left map].
  - rewrite app_nil_r. reflexivity.
  - cbn [map] in Hnd.
    rewrite position_map_update_absent.
    + rewrite IH.
      * rewrite <- app_assoc. reflexivity.
      * rewrite map_app. cbn [map fst]. rewrite <- app_assoc. exact Hnd.
    + apply NoDup_remove_2 in Hnd. intros Hin. apply Hnd.
      apply in_or_app. left. exact Hin.
Qed.

Lemma first_occurrences_length (ks : list (Z * Z)) :
  (length (first_occurrences ks) <= length ks)%nat.
Proof.
  induction ks as [|k ks IH]; simpl; [lia|].
  pose proof (filter_length_le
                (fun k' => negb (SemanticSearcher.position_eqb k k'))
                (first_occurrences ks)).
  lia.
Qed.

(** X9. [_deduplicate_by_position] returns matches at distinct
    positions, not more than it was given, and a second pass changes
    nothing. *)
Theorem deduplicate_by_position_idempotent (ms : list SemanticMatch) :
  let kept := SemanticSearcher._deduplicate_by_position ms in
  SemanticSearcher._deduplicate_by_position kept = kept
  /\ NoDup (map SemanticSearcher.position kept)
  /\ (length kept <= length ms)%nat.
Proof.
  cbv zeta. pose proof (deduplicate_by_position_NoDup ms) as Hnd.
  split; [|split; [exact Hnd|]].
  - generalize dependent (SemanticSearcher._deduplicate_by_position ms).
    intros kept Hnd. unfold SemanticSearcher._deduplicate_by_position.
    rewrite fold_position_map_distinct by exact Hnd.
    simpl. rewrite map_map. simpl. apply map_id.
  - rewrite <- (length_map SemanticSearcher.position).
    rewrite deduplicate_by_position_positions.
    rewrite <- (length_map SemanticSearcher.position ms).
    apply first_occurrences_length.
Qed.

(** *** The semantic searcher *)

Section Semantic.

Import SemanticSearcher.

Context {E : Embedder}.

Lemma add_match_numbered (chs : list chunk) (sims : list Q)
    (sector query : str) (acc : option (list SemanticMatch)) (idx : nat) :
  (forall ms, acc = Some ms ->
     numbered (of_string "semantic_") (map sm_chunk_id ms)) ->
  forall ms, add_match chs sims sector query acc idx = Some ms ->
    numbered (of_string "semantic_") (map sm_chunk_id ms).
Proof.
  intros Hacc ms. unfold add_match.
  destruct acc as [ms0|]; [|discriminate].
  destruct (nth_error sims idx) as [score|]; [|discriminate].
  destruct (nth_error chs idx) as [[[t s] e]|]; [|discriminate].
  intros H. injection H as <-. rewrite map_app. simpl map.
  rewrite <- (length_map sm_chunk_id ms0).
  apply numbered_snoc. apply Hacc. reflexivity.
Qed.

Lemma add_query_numbered (chs : list chunk) (top_k : Z)
    (acc : option (list SemanticMatch)) (query_info : str * str) :
  (forall ms, acc = Some ms ->
     numbered (of_string "semantic_") (map sm_chunk_id ms)) ->
  forall ms, add_query chs top_k acc query_info = Some ms ->
    numbered (of_string "semantic_") (map sm_chunk_id ms).
Proof.
  unfold add_query. destruct query_info as [sector query].
  set (sims := similarities query _).
  generalize (slice_to (argsort_descending sims) top_k). intros indices.
  revert acc. induction indices as [|idx indices IH]; intros acc Hacc;
    cbn [fold_left]; [exact Hacc|].
  apply IH. apply add_match_numbered. exact Hacc.
Qed.

(** X10. The spans that [SemanticSearcher.search] returns have distinct
    [chunk_id]s. *)
Theorem semantic_search_ids_distinct (text : str)
    (queries : list (str * str)) (top_k : Z) :
  match search text queries top_k with
  | Some spans => NoDup (map sm_chunk_id spans)
  | None => True
  end.
Proof.
  unfold search. destruct (negb (nonempty _)); [constructor|].
  assert (H : forall qs acc,
            (forall ms, acc = Some ms ->
               numbered (of_string "semantic_") (map sm_chunk_id ms)) ->
            forall ms,
              fold_left (add_query (_create_chunks text 500 100) top_k)
                        qs acc = Some ms ->
              numbered (of_string "semantic_") (map sm_chunk_id ms)).
  { induction qs as [|q qs IH]; intros acc Hacc; cbn [fold_left];
      [exact Hacc|].
    apply IH. apply add_query_numbered. exact Hacc. }
  specialize (H queries (Some [])).
  destruct (fold_left _ queries (Some [])) as [ms|]; [|exact I].
  simpl option_map. cbv iota.
  apply NoDup_map_within with (l := ms).
  - apply numbered_distinct with (prefix := of_string "semantic_").
    apply H; [|reflexivity].
    intros ms0 E0. injection E0 as <-. reflexivity.
  - apply (NoDup_map_inv position).
    apply deduplicate_by_position_NoDup.
  - intros m. apply ChunkFacts.deduplicate_by_position_In.
Qed.

End Semantic.

(** *** The keyword searcher *)

Section Keyword.

Import KeywordSearcher.

Context {Tk : NLTK} {Re : Regex} {So : SetOrder}.

Lemma add_position_numbered (text section_name : str) (page_number : Z)
    (st : list (KeywordMatch (list str)) * list Z)
    (item : Z * Z * list str) :
  numbered (of_string "keyword_") (map (@km_chunk_id _) (fst st)) ->
  numbered (of_string "keyword_")
    (map (@km_chunk_id _)
         (fst (add_position text section_name page_number st item))).
Proof.
  intros Hst. unfold add_position.
  destruct st as [matches seen]. destruct item as [[start end_] keywords].
  destruct (existsb (Z.eqb start) seen); [exact Hst|].
  destruct (_extract_context text start end_) as [[t s] e].
  simpl fst in *. rewrite map_app. simpl map.
  rewrite <- (length_map (@km_chunk_id _) matches).
  apply numbered_snoc. exact Hst.
Qed.

Lemma merge_sweep_ids (rest finished : list (KeywordMatch (list str)))
    (last : KeywordMatch (list str)) :
  subseq (map (@km_chunk_id _) (merge_sweep finished last rest))
         (map (@km_chunk_id _) (finished ++ last :: rest)).
Proof.
  revert finished last.
  induction rest as [|current rest IH]; intros finished last;
    cbn [merge_sweep].
  - apply subseq_refl.
  - destruct (overlaps_enough last current).
    + eapply subseq_trans; [apply IH|].
      rewrite !map_app. apply subseq_app_keep. cbn [map].
      constructor 3. constructor 2. apply subseq_refl.
    + specialize (IH (finished ++ [last]) current).
      rewrite <- app_assoc in IH. exact IH.
Qed.

(** X11. The spans that [KeywordSearcher.search] returns have distinct
    [chunk_id]s: the matches are numbered before [_merge_overlapping],
    which keeps the identifier of the first span of each group. *)
Theorem keyword_search_ids_distinct (keywords : list str)
    (text section_name : str) (page_number : Z) :
  NoDup (map (@km_chunk_id _)
             (search keywords text section_name page_number)).
Proof.
  unfold search. destruct (negb (nonempty _)); [constructor|].
  set (items := fold_left _ _ []).
  assert (H : forall its st,
            numbered (of_string "keyword_") (map (@km_chunk_id _) (fst st)) ->
            numbered (of_string "keyword_")
              (map (@km_chunk_id _)
                   (fst (fold_left
                           (add_position text section_name page_number)
                           its st)))).
  { induction its as [|it its IH]; intros st Hst; cbn [fold_left];
      [exact Hst|].
    apply IH. apply add_position_numbered. exact Hst. }
  specialize (H items ([], []) eq_refl).
  apply numbered_distinct in H.
  set (matches := fst (fold_left _ items ([], []))) in *.
  unfold _merge_overlapping.
  pose proof (sort_by_perm (@km_char_start _) matches) as Hperm.
  destruct (sort_by _ matches) as [|first rest]; [constructor|].
  eapply subseq_NoDup; [apply merge_sweep_ids|].
  simpl app. eapply Permutation_NoDup; [|exact H].
  apply Permutation_map. exact Hperm.
Qed.

End Keyword.

(** *** The reconciled spans *)

Section Reconciled.

Import CrossStoreDeduplicator DedupFacts.

Context {So : SetOrder}.

Lemma startswith_app (prefix rest : str) :
  startswith (prefix ++ rest) prefix = true.
Proof.
  induction prefix as [|c prefix IH]; simpl; [destruct rest; reflexivity|].
  rewrite Ascii.eqb_refl. exact IH.
Qed.

Lemma absorb_into_id (c : CombinedMatch loc) (m : SemanticMatch) :
  chunk_id (absorb_into c m) = chunk_id c.
Proof. reflexivity. Qed.

(** The identifiers of the list that the loop over the semantic matches
    builds: those of the keyword matches, then [combined_] identifiers
    numbered by positions in the list. *)
Lemma add_semantic_ids (self : t) (kw_ids : list str)
    (cms : list (CombinedMatch loc)) (h : store) (m : SemanticMatch) :
  (forall id, In id kw_ids -> startswith id (of_string "combined_") = false) ->
  (NoDup (map (@chunk_id _) cms)
   /\ forall c, In c cms ->
        In (chunk_id c) kw_ids
        \/ exists i, (i < length cms)%nat
                     /\ chunk_id c = of_string "combined_" ++ format_04d i) ->
  let cms' := fst (add_semantic self (cms, h) m) in
  NoDup (map (@chunk_id _) cms')
  /\ forall c, In c cms' ->
       In (chunk_id c) kw_ids
       \/ exists i, (i < length cms')%nat
                    /\ chunk_id c = of_string "combined_" ++ format_04d i.
Proof.
  intros Hkw [Hnd Hids]. cbv zeta. unfold add_semantic.
  destruct (absorb self m cms) as [cms'|] eqn:Ea.
  - apply absorb_Some in Ea. destruct Ea as [pre [c [post [-> [-> _]]]]].
    simpl fst.
    assert (Hmap : map (@chunk_id _) (pre ++ absorb_into c m :: post)
                   = map (@chunk_id _) (pre ++ c :: post)).
    { rewrite !map_app. reflexivity. }
    split; [rewrite Hmap; exact Hnd|].
    intros c' Hc'.
    assert (Hlen : length (pre ++ absorb_into c m :: post)
                   = length (pre ++ c :: post)).
    { rewrite !length_app. reflexivity. }
    rewrite Hlen.
    apply in_app_or in Hc'. destruct Hc' as [Hc'|[<-|Hc']].
    + apply Hids. apply in_or_app. left. exact Hc'.
    + rewrite absorb_into_id. apply Hids. apply in_or_app. right. left.
      reflexivity.
    + apply Hids. apply in_or_app. right. right. exact Hc'.
  - simpl fst. split.
    + rewrite map_app. cbn [map].
      apply NoDup_app; [exact Hnd | repeat constructor; intros [] |].
      intros id Hin [E2|[]]. cbn [chunk_id] in E2. subst id.
      apply in_map_iff in Hin. destruct Hin as [c [Ec Hc]].
      change (chunk_id c = of_string "combined_" ++ format_04d (length cms))
        in Ec.
      destruct (Hids c Hc) as [Hk|[i [Hi Ei]]].
      * rewrite Ec in Hk. apply Hkw in Hk.
        rewrite startswith_app in Hk. discriminate.
      * rewrite Ec in Ei. apply numbered_inj in Ei. lia.
    + intros c Hc. rewrite length_app. cbn [length].
      apply in_app_or in Hc. destruct Hc as [Hc|[<-|[]]].
      * destruct (Hids c Hc) as [Hk|[i [Hi Ei]]]; [left; exact Hk|].
        right. exists i. split; [lia | exact Ei].
      * right. exists (length cms). split; [lia | reflexivity].
Qed.

Lemma final_sweep_ids (self : t)
    (rest finished : list (CombinedMatch loc)) (last : CombinedMatch loc)
    (h : store) :
  subseq (map (@chunk_id _) (fst (final_sweep self finished last rest h)))
         (map (@chunk_id _) (finished ++ last :: rest)).
Proof.
  revert finished last h.
  induction rest as [|current rest IH]; intros finished last h.
  - apply subseq_refl.
  - rewrite final_sweep_cons. destruct (merges self last current).
    + eapply subseq_trans; [apply IH|].
      rewrite !map_app. apply subseq_app_keep. cbn [map].
      constructor 3. constructor 2. apply subseq_refl.
    + specialize (IH (finished ++ [last]) current h).
      rewrite <- app_assoc in IH. exact IH.
Qed.

(** X12. The reconciled spans have distinct [chunk_id]s when the keyword
    spans have, and none of their identifiers begins with [combined_]
    (the identifiers of [KeywordSearcher.search] begin with
    [keyword_]). *)
Theorem reconcile_ids_distinct (self : t) (h : store)
    (kws : list (KeywordMatch loc)) (ms : list SemanticMatch) :
  NoDup (map (@km_chunk_id _) kws) ->
  (forall k, In k kws ->
     startswith (km_chunk_id k) (of_string "combined_") = false) ->
  NoDup (map (@chunk_id _) (fst (reconcile self h kws ms))).
Proof.
  intros Hnd Hkw. unfold reconcile.
  set (kw_ids := map (@km_chunk_id _) kws).
  assert (Hpre : forall id, In id kw_ids ->
                   startswith id (of_string "combined_") = false).
  { intros id Hid. apply in_map_iff in Hid. destruct Hid as [k [<- Hk]].
    apply Hkw. exact Hk. }
  assert (H : forall l st,
            (NoDup (map (@chunk_id _) (fst st))
             /\ forall c, In c (fst st) ->
                  In (chunk_id c) kw_ids
                  \/ exists i, (i < length (fst st))%nat
                       /\ chunk_id c
                          = of_string "combined_" ++ format_04d i) ->
            NoDup (map (@chunk_id _)
                       (fst (fold_left (add_semantic self) l st)))).
  { induction l as [|m l IH]; intros [cms h0] Hst; cbn [fold_left];
      [apply Hst|].
    apply IH. apply (@add_semantic_ids self kw_ids cms h0 m Hpre Hst). }
  specialize (H ms (map seed kws, h)).
  destruct (fold_left _ ms _) as [cms h1]. simpl fst in H.
  assert (Hc : NoDup (map (@chunk_id _) cms)).
  { apply H. split.
    - rewrite map_map. exact Hnd.
    - intros c Hc. left. apply in_map_iff in Hc. destruct Hc as [k [<- Hk]].
      apply (in_map (@km_chunk_id _) kws k Hk). }
  unfold _final_dedup_pass.
  pose proof (sort_by_perm (@char_start loc) cms) as Hperm.
  destruct (sort_by _ cms) as [|first rest]; [constructor|].
  eapply subseq_NoDup; [apply final_sweep_ids|].
  simpl app. eapply Permutation_NoDup; [|exact Hc].
  apply Permutation_map. exact Hperm.
Qed.

End Reconciled.

Lemma reconcile_ids_distinct_witness :
  let kws := [example_keyword 100 200 0%nat] in
  let ms := [example_semantic 300 400 (9 # 10)] in
  NoDup (map (@km_chunk_id _) kws)
  /\ (forall k, In k kws ->
        startswith (km_chunk_id k) (of_string "combined_") = false)
  /\ NoDup (map (@chunk_id _)
                (fst (CrossStoreDeduplicator.reconcile
                        (So := first_occurrence_order)
                        (CrossStoreDeduplicator.mk (1 # 2)) [[]] kws ms))).
Proof.
  cbv zeta.
  assert (H1 : NoDup (map (@km_chunk_id _)
                          [example_keyword 100 200 0%nat])).
  { simpl. constructor; [intros [] | constructor]. }
  assert (H2 : forall k, In k [example_keyword 100 200 0%nat] ->
                 startswith (km_chunk_id k) (of_string "combined_") = false).
  { intros k [<-|[]]. vm_compute. reflexivity. }
  split; [exact H1|]. split; [exact H2|].
  exact (@reconcile_ids_distinct first_occurrence_order
           (CrossStoreDeduplicator.mk (1 # 2)) [[]]
           [example_keyword 100 200 0%nat]
           [example_semantic 300 400 (9 # 10)] H1 H2).
Defined.

End IdentifierFacts.

(** ** What the merging of keyword matches keeps *)

Module KeywordMergeFacts.

Import Py PyFacts KeywordSearcher Spec SortFacts DedupFacts.

Section Merge.

Context {So : SetOrder}.

Local Abbreviation kranges := (map (keyword_range (L := list str))).

Lemma merge_into_covers (last current : KeywordMatch (list str)) (x : Z) :
  km_char_start last <= km_char_start current ->
  overlaps_enough last current = true ->
  (fst (keyword_range (merge_into last current)) <= x
   < snd (keyword_range (merge_into last current))
   <-> (km_char_start last <= x < km_char_end last
        \/ km_char_start current <= x < km_char_end current)).
Proof.
  intros Hle Ho. unfold overlaps_enough in Ho.
  apply andb_true_iff in Ho. destruct Ho as [Ho _].
  apply Z.ltb_lt in Ho. simpl. lia.
Qed.

Lemma merge_sweep_cover (rest finished : list (KeywordMatch (list str)))
    (last : KeywordMatch (list str)) (x : Z) :
  StronglySorted (key_le (@km_char_start _)) (last :: rest) ->
  (covered (kranges (merge_sweep finished last rest)) x
   <-> covered (kranges (finished ++ last :: rest)) x).
Proof.
  revert finished last.
  induction rest as [|current rest IH]; intros finished last Hs;
    cbn [merge_sweep]; [reflexivity|].
  inversion Hs as [|? ? Hrest Hall]; subst.
  inversion Hall as [|? ? Hle Hall']; subst. unfold key_le in Hle.
  destruct (overlaps_enough last current) eqn:E.
  - rewrite IH.
    + rewrite !map_app. cbn [map]. rewrite !covered_app, !covered_cons.
      rewrite (@merge_into_covers last current x Hle E). simpl. tauto.
    + inversion Hrest; subst. constructor; [assumption|].
      exact Hall'.
  - rewrite IH by exact Hrest. rewrite <- app_assoc. reflexivity.
Qed.

Lemma merge_sweep_count (rest finished : list (KeywordMatch (list str)))
    (last : KeywordMatch (list str)) :
  (length finished + 1 <= length (merge_sweep finished last rest)
   <= length finished + 1 + length rest)%nat.
Proof.
  revert finished last.
  induction rest as [|current rest IH]; intros finished last;
    cbn [merge_sweep].
  - rewrite length_app. simpl. lia.
  - destruct (overlaps_enough last current).
    + specialize (IH finished (merge_into last current)). cbn [length]. lia.
    + specialize (IH (finished ++ [last]) current).
      rewrite length_app in IH. cbn [length] in *. lia.
Qed.

(** X13. [_merge_overlapping] returns at most as many spans as it is
    given, and they cover the same characters: a span is merged only into
    a span that it overlaps. *)
Theorem merge_overlapping_same_cover
    (matches : list (KeywordMatch (list str))) :
  (length (_merge_overlapping matches) <= length matches)%nat
  /\ forall x, covered (kranges (_merge_overlapping matches)) x
               <-> covered (kranges matches) x.
Proof.
  unfold _merge_overlapping.
  pose proof (sort_by_sorted (@km_char_start _) matches) as Hsorted.
  pose proof (sort_by_perm (@km_char_start _) matches) as Hperm.
  destruct (sort_by _ matches) as [|first rest].
  - apply Permutation_sym, Permutation_nil in Hperm. subst matches.
    split; [simpl; lia | reflexivity].
  - split.
    + rewrite (Permutation_length Hperm).
      pose proof (merge_sweep_count rest [] first). simpl in *. lia.
    + intros x. rewrite merge_sweep_cover by exact Hsorted.
      simpl app. symmetry. apply covered_perm.
      apply Permutation_map. exact Hperm.
Qed.

End Merge.

End KeywordMergeFacts.

(** ** The table of lemmatized patterns *)

Module PatternFacts.

Import Py PyFacts KeywordSearcher Spec.

Lemma patterns_append_cases (key keyword : str) (p : patterns) :
  (~ In key (map fst p)
   /\ patterns_append key keyword p = p ++ [(key, [keyword])])
  \/ exists p1 kws p2,
       p = p1 ++ (key, kws) :: p2
       /\ ~ In key (map fst p1)
       /\ patterns_append key keyword p
          = p1 ++ (key, kws ++ [keyword]) :: p2.
Proof.
  induction p as [|[k kws] p IH]; simpl.
  - left. split; [tauto | reflexivity].
  - destruct (str_eqb k key) eqn:E.
    + apply str_eqb_eq in E. subst k. right.
      exists [], kws, p. simpl. split; [reflexivity|]. split; [tauto|].
      reflexivity.
    + assert (Hne : k <> key).
      { intros ->. rewrite str_eqb_refl in E. discriminate. }
      destruct IH as [[Hnin ->]|[p1 [kws' [p2 [-> [Hnin ->]]]]]].
      * left. split; [|reflexivity]. intros [H|H]; tauto.
      * right. exists ((k, kws) :: p1), kws', p2. simpl.
        split; [reflexivity|]. split; [|reflexivity].
        intros [H|H]; tauto.
Qed.

Section Patterns.

Context {Tk : NLTK} {Re : Regex} {So : SetOrder}.

Lemma patterns_append_ok (keywords : list str) (keyword : str)
    (p : patterns) :
  (NoDup (map fst p)
   /\ Forall (fun e : str * list str =>
                snd e <> []
                /\ Forall (fun kw => keyword_pattern kw = fst e) (snd e)) p
   /\ Permutation (concat (map snd p)) keywords) ->
  let p' := patterns_append (keyword_pattern keyword) keyword p in
  NoDup (map fst p')
  /\ Forall (fun e : str * list str =>
               snd e <> []
               /\ Forall (fun kw => keyword_pattern kw = fst e) (snd e)) p'
  /\ Permutation (concat (map snd p')) (keywords ++ [keyword]).
Proof.
  intros [Hnd [Hall Hperm]]. cbv zeta.
  destruct (patterns_append_cases (keyword_pattern keyword) keyword p)
    as [[Hnin ->]|[p1 [kws [p2 [-> [Hnin ->]]]]]].
  - split; [|split].
    + rewrite map_app. simpl. apply NoDup_app; [exact Hnd | | ].
      * repeat constructor. intros [].
      * intros k Hk [<-|[]]. contradiction.
    + apply Forall_app. split; [exact Hall|].
      constructor; [|constructor]. simpl. split; [discriminate|].
      constructor; [reflexivity | constructor].
    + rewrite map_app, concat_app. simpl.
      apply Permutation_app; [exact Hperm | reflexivity].
  - split; [|split].
    + rewrite map_app in Hnd |- *. exact Hnd.
    + rewrite Forall_app in Hall |- *. destruct Hall as [H1 H2].
      split; [exact H1|]. inversion H2 as [|? ? [Hne Hk] H2']; subst.
      constructor; [|exact H2']. simpl in *. split.
      * intros H. apply app_eq_nil in H. destruct H; discriminate.
      * apply Forall_app. split; [exact Hk|].
        constructor; [reflexivity | constructor].
    + rewrite map_app, concat_app in Hperm |- *. simpl in *.
      rewrite <- app_assoc.
      etransitivity; [|apply Permutation_app; [exact Hperm | reflexivity]].
      rewrite <- !app_assoc.
      apply Permutation_app_head. apply Permutation_app_head.
      apply Permutation_app_comm.
Qed.

(** X14. [_create_keyword_patterns] files every keyword once, under its
    lemmatized pattern: the patterns of the table are distinct, no pattern
    has an empty list of keywords (so that every pattern has a
    representative keyword), each keyword of a list has the pattern of the
    list, and the lists together hold the keywords that were given. *)
Theorem create_keyword_patterns_partition (keywords : list str) :
  let p := _create_keyword_patterns keywords in
  NoDup (map fst p)
  /\ Forall (fun e : str * list str =>
               snd e <> []
               /\ Forall (fun kw => keyword_pattern kw = fst e) (snd e)) p
  /\ Permutation (concat (map snd p)) keywords.
Proof.
  cbv zeta. unfold _create_keyword_patterns.
  induction keywords as [|keyword keywords IH] using rev_ind.
  - simpl. split; [constructor|]. split; constructor.
  - rewrite fold_left_app. cbn [fold_left].
    apply patterns_append_ok. exact IH.
Qed.

End Patterns.

End PatternFacts.

(** ** The batches of the classification requests *)

Module BatchFacts.

Import Py PyFacts Spec IdentifierFacts.

Lemma firstn_add {A : Type} (a b : nat) (l : list A) :
  firstn (a + b) l = firstn a l ++ firstn b (skipn a l).
Proof.
  revert l. induction a as [|a IH]; intros l; [reflexivity|].
  destruct l as [|x l]; simpl.
  - rewrite firstn_nil. reflexivity.
  - rewrite IH. reflexivity.
Qed.

Lemma firstn_min_length {A : Type} (k : nat) (l : list A) :
  firstn (Nat.min k (length l)) l = firstn k l.
Proof.
  destruct (Nat.le_ge_cases k (length l)) as [H|H].
  - rewrite Nat.min_l by exact H. reflexivity.
  - rewrite Nat.min_r by exact H. rewrite firstn_all.
    symmetry. apply firstn_all2. exact H.
Qed.

(** [s[lo:lo + step]] is the next [step] elements after the first [lo]. *)
Lemma slice_window {A : Type} (s : list A) (a b : nat) :
  slice s (Z.of_nat a) (Z.of_nat a + Z.of_nat b) = firstn b (skipn a s).
Proof.
  unfold slice, slice_index, len.
  replace (Z.of_nat a <? 0) with false by (symmetry; apply Z.ltb_ge; lia).
  replace (Z.of_nat a + Z.of_nat b <? 0) with false
    by (symmetry; apply Z.ltb_ge; lia).
  destruct (Nat.le_ge_cases (length s) a) as [H|H].
  - rewrite (skipn_all2 s) by lia.
    rewrite (skipn_all2 s) by exact H. rewrite !firstn_nil. reflexivity.
  - replace (Z.to_nat (Z.min (Z.of_nat a) (Z.of_nat (length s)))) with a
      by lia.
    rewrite <- (firstn_min_length b (skipn a s)).
    rewrite <- (firstn_min_length (Z.to_nat _) (skipn a s)).
    f_equal. rewrite length_skipn. lia.
Qed.

Lemma concat_windows {A : Type} (s : list A) (b c : nat) :
  concat (map (fun k => firstn b (skipn (k * b) s)) (seq 0 c))
  = firstn (c * b) s.
Proof.
  induction c as [|c IH]; [reflexivity|].
  rewrite seq_S, map_app, concat_app, IH. simpl.
  rewrite app_nil_r, <- firstn_add. f_equal. lia.
Qed.

Lemma range_len_positive (stop step : Z) :
  0 <= stop -> 0 < step ->
  range_len stop step = (stop + step - 1) / step
  /\ (range_len stop step - 1) * step < stop <= range_len stop step * step.
Proof.
  intros Hstop Hstep. unfold range_len.
  replace (0 <? step) with true by (symmetry; apply Z.ltb_lt; lia).
  destruct (0 <? stop) eqn:E.
  - apply Z.ltb_lt in E.
    replace (stop + step - 1) with (stop - 1 + 1 * step) by lia.
    rewrite Z.div_add by lia. split; [reflexivity|].
    pose proof (Z.mul_div_le (stop - 1) step Hstep).
    pose proof (Z.mul_succ_div_gt (stop - 1) step Hstep).
    nia.
  - apply Z.ltb_ge in E. assert (stop = 0) by lia. subst stop.
    rewrite Z.div_small by lia. lia.
Qed.

Section Batches.

Import BedrockBatchClassifier.

Context {A : Type}.

Lemma batches_positive (chunks : list A) (batch_size : Z) :
  0 < batch_size ->
  batches chunks batch_size
  = Returned
      (map (fun k => firstn (Z.to_nat batch_size)
                            (skipn (k * Z.to_nat batch_size) chunks))
           (seq 0 (Z.to_nat ((len chunks + batch_size - 1) / batch_size)))).
Proof.
  intros Hb. unfold batches, range_from_0.
  replace (batch_size =? 0) with false by (symmetry; apply Z.eqb_neq; lia).
  destruct (range_len_positive (len_nonneg chunks) Hb) as [-> _].
  f_equal. rewrite map_map. apply map_ext. intros k.
  rewrite <- slice_window. f_equal; lia.
Qed.

Lemma batches_concat (chunks : list A) (batch_size : Z) :
  0 < batch_size ->
  concat
    (map (fun k => firstn (Z.to_nat batch_size)
                          (skipn (k * Z.to_nat batch_size) chunks))
         (seq 0 (Z.to_nat ((len chunks + batch_size - 1) / batch_size))))
  = chunks.
Proof.
  intros Hb.
  destruct (range_len_positive (len_nonneg chunks) Hb) as [Hlen Hbound].
  rewrite Hlen in Hbound.
  assert (Hcnt : 0 <= (len chunks + batch_size - 1) / batch_size).
  { apply Z.div_pos; pose proof (len_nonneg chunks); lia. }
  rewrite concat_windows. apply firstn_all2. unfold len in *. nia.
Qed.

(** X15. For a positive [batch_size], the batches of
    [prepare_batch_input] are the chunks, in their order, cut into
    [ceil(len(chunks) / batch_size)] batches: the batch of index [k] has
    [batch_size] chunks, or those that are left after [k * batch_size],
    and at least one. *)
Theorem batches_partition (chunks : list A) (batch_size : Z) :
  0 < batch_size ->
  exists bs,
    batches chunks batch_size = Returned bs
    /\ concat bs = chunks
    /\ len bs = (len chunks + batch_size - 1) / batch_size
    /\ forall k b, nth_error bs k = Some b ->
         len b = Z.min batch_size (len chunks - Z.of_nat k * batch_size)
         /\ 1 <= len b.
Proof.
  intros Hb. eexists. split; [apply batches_positive; exact Hb|].
  destruct (range_len_positive (len_nonneg chunks) Hb) as [Hlen Hbound].
  rewrite Hlen in Hbound.
  set (cnt := (len chunks + batch_size - 1) / batch_size) in *.
  assert (Hcnt : 0 <= cnt) by (apply Z.div_pos; pose proof (len_nonneg chunks); lia).
  split; [|split].
  - apply batches_concat. exact Hb.
  - unfold len. rewrite length_map, length_seq. lia.
  - intros k b Hk. rewrite nth_error_map in Hk.
    destruct (nth_error (seq 0 (Z.to_nat cnt)) k) as [k'|] eqn:Ek;
      [|discriminate].
    assert (Hlt : (k < Z.to_nat cnt)%nat).
    { rewrite <- (length_seq (Z.to_nat cnt) 0).
      apply (proj1 (nth_error_Some _ _)). rewrite Ek. discriminate. }
    assert (k' = k).
    { apply nth_error_nth with (d := 0%nat) in Ek.
      rewrite seq_nth in Ek by exact Hlt. lia. }
    subst k'. simpl in Hk. injection Hk as <-.
    rewrite len_firstn, len_skipn. unfold len in *. nia.
Qed.

(** X16. [prepare_batch_input] sends every chunk, each in one batch,
    exactly when [batch_size] is positive; a [batch_size] of 0 raises, and
    a negative one makes no batch at all. *)
Theorem batches_cover_iff (chunks : list A) (batch_size : Z) :
  (exists bs, batches chunks batch_size = Returned bs /\ concat bs = chunks)
  <-> 0 < batch_size \/ (batch_size < 0 /\ chunks = []).
Proof.
  split.
  - intros [bs [E Hc]]. unfold batches, range_from_0 in E.
    destruct (batch_size =? 0) eqn:E0; [discriminate|].
    apply Z.eqb_neq in E0.
    destruct (Z.lt_ge_cases 0 batch_size) as [Hpos|Hneg]; [left; exact Hpos|].
    right. split; [lia|].
    unfold range_len in E.
    replace (0 <? batch_size) with false in E
      by (symmetry; apply Z.ltb_ge; lia).
    replace (len chunks <? 0) with false in E
      by (symmetry; apply Z.ltb_ge; apply len_nonneg).
    injection E as <-. symmetry. exact Hc.
  - intros [Hpos|[Hneg ->]].
    + eexists. split; [apply batches_positive; exact Hpos|].
      apply batches_concat. exact Hpos.
    + exists []. split; [|reflexivity].
      unfold batches, range_from_0, range_len.
      replace (batch_size =? 0) with false
        by (symmetry; apply Z.eqb_neq; lia).
      replace (0 <? batch_size) with false by (symmetry; apply Z.ltb_ge; lia).
      reflexivity.
Qed.

End Batches.

Lemma batches_partition_witness :
  0 < 2
  /\ exists bs,
       BedrockBatchClassifier.batches [1; 2; 3]%nat 2 = Returned bs
       /\ concat bs = [1; 2; 3]%nat
       /\ len bs = (len [1; 2; 3]%nat + 2 - 1) / 2
       /\ forall k b, nth_error bs k = Some b ->
            len b = Z.min 2 (len [1; 2; 3]%nat - Z.of_nat k * 2)
            /\ 1 <= len b.
Proof.
  assert (H : 0 < 2) by lia.
  split; [exact H|].
  exact (@batches_partition nat [1; 2; 3]%nat 2 H).
Defined.

End BatchFacts.

(** ** The chunk that a classification is attached to *)

Module ResultsFacts.

Import Py PyFacts Spec IdentifierFacts BatchFacts.

Lemma record_id_inj (i j : nat) :
  BedrockBatchClassifier.record_id i = BedrockBatchClassifier.record_id j -> i = j.
Proof.
  unfold BedrockBatchClassifier.record_id. intros H.
  apply app_inv_head in H. apply str_of_nat_inj. exact H.
Qed.

Lemma combine_app_same {A B : Type} (l1 l2 : list A) (r1 r2 : list B) :
  length l1 = length r1 ->
  combine (l1 ++ l2) (r1 ++ r2) = combine l1 r1 ++ combine l2 r2.
Proof.
  revert r1. induction l1 as [|x l1 IH]; intros [|y r1] H; simpl in *;
    try discriminate; [reflexivity|].
  rewrite IH by lia. reflexivity.
Qed.

Section Dict.

Context {V : Type}.

Lemma dict_set_absent (key : str) (value : V) (d : list (str * V)) :
  ~ In key (map fst d) -> dict_set key value d = d ++ [(key, value)].
Proof.
  induction d as [|[k v] d IH]; simpl; intros H; [reflexivity|].
  destruct (str_eqb k key) eqn:E.
  - apply str_eqb_eq in E. tauto.
  - rewrite IH by tauto. reflexivity.
Qed.

Lemma dict_get_app (key : str) (d1 d2 : list (str * V)) :
  dict_get key (d1 ++ d2)
  = match dict_get key d1 with
    | Some v => Some v
    | None => dict_get key d2
    end.
Proof.
  induction d1 as [|[k v] d1 IH]; simpl; [reflexivity|].
  destruct (str_eqb k key); [reflexivity | exact IH].
Qed.

End Dict.

Section Mapping.

Import BedrockBatchClassifier ResultsProcessing.

Context {A : Type}.

(** The dict after [i] chunks: the record ids [batch_0], ..., in the
    order of the chunks. *)
Lemma batch_to_original_fold (rest done : list A) :
  fold_left
    (fun st chunk =>
       let '(d, i) := st in
       (dict_set (of_string "batch_" ++ str_of_nat i) chunk d, S i))
    rest
    (combine (map record_id (seq 0 (length done))) done, length done)
  = (combine (map record_id (seq 0 (length (done ++ rest)))) (done ++ rest),
     length (done ++ rest)).
Proof.
  revert done. induction rest as [|c rest IH]; intros done.
  - rewrite app_nil_r. reflexivity.
  - cbn [fold_left].
    replace (done ++ c :: rest) with ((done ++ [c]) ++ rest)
      by (rewrite <- app_assoc; reflexivity).
    rewrite <- IH. f_equal. f_equal.
    + rewrite dict_set_absent.
      * rewrite length_app. simpl length. rewrite Nat.add_1_r, seq_S, map_app.
        rewrite combine_app_same by (rewrite length_map, length_seq; reflexivity).
        reflexivity.
      * intros Hin. apply in_map_iff in Hin. destruct Hin as [[k v] [E Hin]].
        simpl in E. apply in_combine_l in Hin. apply in_map_iff in Hin.
        destruct Hin as [j [Ej Hj]]. apply in_seq in Hj.
        rewrite <- Ej in E. apply record_id_inj in E. lia.
    + rewrite length_app. simpl. lia.
Qed.

Lemma batch_to_original_eq (all_chunks : list A) :
  batch_to_original all_chunks
  = combine (map record_id (seq 0 (length all_chunks))) all_chunks.
Proof.
  unfold batch_to_original.
  pose proof (batch_to_original_fold all_chunks []) as H.
  cbn [length seq map combine app] in H. rewrite H. reflexivity.
Qed.

Lemma dict_get_numbered (l : list A) (start k : nat) :
  dict_get (record_id k) (combine (map record_id (seq start (length l))) l)
  = if (k <? start)%nat then None else nth_error l (k - start).
Proof.
  revert start. induction l as [|c l IH]; intros start;
    cbn [length seq map combine dict_get].
  - destruct (k <? start)%nat; [reflexivity|]. destruct (k - start)%nat;
      reflexivity.
  - destruct (str_eqb (record_id start) (record_id k)) eqn:E.
    + apply str_eqb_eq in E. apply record_id_inj in E. subst start.
      rewrite Nat.ltb_irrefl, Nat.sub_diag. reflexivity.
    + assert (Hne : start <> k).
      { intros ->. rewrite str_eqb_refl in E. discriminate. }
      rewrite IH. destruct (Nat.ltb_spec k (S start)), (Nat.ltb_spec k start);
        try lia; try reflexivity.
      replace (k - start)%nat with (S (k - S start)) by lia. reflexivity.
Qed.

Lemma original_chunk_kth (all_chunks : list A) (k : nat) :
  original_chunk all_chunks (record_id k) = nth_error all_chunks k.
Proof.
  unfold original_chunk. rewrite batch_to_original_eq, dict_get_numbered.
  simpl. rewrite Nat.sub_0_r. reflexivity.
Qed.

Lemma nth_error_skipn_NoDup (l : list A) (a k : nat) (c : A) :
  NoDup l -> nth_error l k = Some c -> In c (skipn a l) -> (a <= k)%nat.
Proof.
  intros Hnd Hk Hin. destruct (Nat.le_gt_cases a k) as [H|H]; [exact H|].
  exfalso. rewrite <- (firstn_skipn a l) in Hnd.
  assert (Hf : In c (firstn a l)).
  { apply nth_error_In with (n := k). rewrite nth_error_firstn.
    destruct (Nat.ltb_spec k a); [exact Hk | lia]. }
  revert Hf Hin Hnd. generalize (firstn a l), (skipn a l). intros l1 l2 H1 H2 Hnd.
  apply in_split in H1. destruct H1 as [p [q ->]].
  rewrite <- app_assoc in Hnd. simpl in Hnd.
  apply NoDup_remove_2 in Hnd. apply Hnd.
  apply in_or_app. right. apply in_or_app. right. exact H2.
Qed.

Lemma dict_get_In {V : Type} (key : str) (d : list (str * V)) (v : V) :
  dict_get key d = Some v -> In (key, v) d.
Proof.
  induction d as [|[k w] d IH]; simpl; [discriminate|].
  destruct (str_eqb k key) eqn:E.
  - apply str_eqb_eq in E. subst k. intros H. injection H as <-.
    left. reflexivity.
  - intros H. right. apply IH. exact H.
Qed.

(** X17. [run_results_processing] finds an original chunk for the ids
    [batch_0], [batch_1], ... up to the number of chunks, and for no other
    id; the chunk it finds for [batch_k] is the chunk of index [k]. *)
Theorem original_chunk_by_index (all_chunks : list A) (chunk_id : str)
    (c : A) :
  original_chunk all_chunks chunk_id = Some c
  <-> exists k, chunk_id = record_id k /\ nth_error all_chunks k = Some c.
Proof.
  split.
  - intros H. pose proof H as Hin. unfold original_chunk in Hin.
    rewrite batch_to_original_eq in Hin. apply dict_get_In in Hin.
    apply in_combine_l in Hin. apply in_map_iff in Hin.
    destruct Hin as [k [<- _]]. exists k. split; [reflexivity|].
    rewrite original_chunk_kth in H. exact H.
  - intros [k [-> Hk]]. rewrite original_chunk_kth. exact Hk.
Qed.

(** X18. [run_results_processing] attaches to the classification of
    record [batch_k] the chunk of index [k]. For distinct chunks and a
    [batch_size] above 1, that chunk is not among the chunks that
    [prepare_batch_input] has put in the request [batch_k], for every [k]
    but 0: the request holds the chunks from index [k * batch_size] on. *)
Theorem original_chunk_outside_its_batch (all_chunks : list A)
    (batch_size : Z) (k : nat) (reqs : list (str * list A)) (batch : list A) :
  1 < batch_size -> (0 < k)%nat -> NoDup all_chunks ->
  requests all_chunks batch_size = Returned reqs ->
  In (record_id k, batch) reqs ->
  exists c,
    original_chunk all_chunks (record_id k) = Some c
    /\ nth_error all_chunks k = Some c
    /\ ~ In c batch.
Proof.
  intros Hb Hk Hnd Hreq Hin.
  unfold requests in Hreq.
  rewrite batches_positive in Hreq by lia.
  injection Hreq as <-. rewrite length_map, length_seq in Hin.
  set (cnt := Z.to_nat ((len all_chunks + batch_size - 1) / batch_size)) in *.
  assert (Hbatch : (k < cnt)%nat
                   /\ batch = firstn (Z.to_nat batch_size)
                                     (skipn (k * Z.to_nat batch_size)
                                            all_chunks)).
  { revert Hin. generalize cnt. intros n.
    rewrite <- (map_id (seq 0 n)) at 1.
    rewrite <- map_map with (f := fun i => i) (g := record_id).
    generalize (seq_NoDup n 0). pose proof (fun i => proj1 (in_seq n 0 i)) as Hs.
    revert Hs. generalize (seq 0 n). intros l Hs _ Hin.
    induction l as [|i l IH]; [destruct Hin|].
    simpl in Hin. destruct Hin as [E|Hin].
    - injection E as E <-. apply str_of_nat_inj in E. subst i.
      split; [|reflexivity]. specialize (Hs k (or_introl eq_refl)). lia.
    - apply IH; [|exact Hin]. intros j Hj. apply Hs. right. exact Hj. }
  destruct Hbatch as [Hlt ->].
  destruct (range_len_positive (len_nonneg all_chunks) (Z.lt_trans _ _ _ Z.lt_0_1 Hb))
    as [Hlen Hbound].
  rewrite Hlen in Hbound. unfold cnt in Hlt.
  set (q := (len all_chunks + batch_size - 1) / batch_size) in *.
  assert (Hkq : Z.of_nat k <= q - 1) by lia.
  assert (Hkb : Z.of_nat k * batch_size < len all_chunks) by nia.
  assert (Hkn : (k < length all_chunks)%nat) by (unfold len in Hkb; nia).
  destruct (nth_error all_chunks k) as [c|] eqn:Ec.
  - exists c. split; [rewrite original_chunk_kth; exact Ec|].
    split; [reflexivity|]. intros Hc.
    assert (Hs : In c (skipn (k * Z.to_nat batch_size) all_chunks)).
    { revert Hc. generalize (skipn (k * Z.to_nat batch_size) all_chunks).
      intros l Hc. rewrite <- (firstn_skipn (Z.to_nat batch_size) l).
      apply in_or_app. left. exact Hc. }
    pose proof (@nth_error_skipn_NoDup all_chunks _ k c Hnd Ec Hs). nia.
  - apply nth_error_None in Ec. lia.
Qed.

End Mapping.

Lemma original_chunk_outside_its_batch_witness :
  let all_chunks := [10; 20; 30; 40]%nat in
  let reqs := [(BedrockBatchClassifier.record_id 0, [10; 20]%nat);
               (BedrockBatchClassifier.record_id 1, [30; 40]%nat)] in
  1 < 2 /\ (0 < 1)%nat /\ NoDup all_chunks
  /\ BedrockBatchClassifier.requests all_chunks 2 = Returned reqs
  /\ In (BedrockBatchClassifier.record_id 1, [30; 40]%nat) reqs
  /\ exists c,
       ResultsProcessing.original_chunk all_chunks
         (BedrockBatchClassifier.record_id 1) = Some c
       /\ nth_error all_chunks 1 = Some c
       /\ ~ In c [30; 40]%nat.
Proof.
  cbv zeta.
  assert (H1 : 1 < 2) by lia.
  assert (H2 : (0 < 1)%nat) by lia.
  assert (H3 : NoDup [10; 20; 30; 40]%nat).
  { repeat constructor; simpl; intros H; repeat destruct H as [H|H];
      try discriminate H; exact H. }
  assert (H4 : BedrockBatchClassifier.requests [10; 20; 30; 40]%nat 2
               = Returned [(BedrockBatchClassifier.record_id 0, [10; 20]%nat);
                           (BedrockBatchClassifier.record_id 1, [30; 40]%nat)])
    by reflexivity.
  assert (H5 : In (BedrockBatchClassifier.record_id 1, [30; 40]%nat)
                  [(BedrockBatchClassifier.record_id 0, [10; 20]%nat);
                   (BedrockBatchClassifier.record_id 1, [30; 40]%nat)])
    by (right; left; reflexivity).
  repeat (split; [assumption|]).
  exact (@original_chunk_outside_its_batch nat [10; 20; 30; 40]%nat 2 1%nat
           _ _ H1 H2 H3 H4 H5).
Defined.

End ResultsFacts.

(** ** The padding of the activity requests *)

Module PaddingFacts.

Import Py PyFacts Spec IdentifierFacts ActivityClassifier.

Lemma contains_unfold (s sub : str) :
  contains s sub
  = startswith s sub
    || match s with
       | [] => false
       | _ :: r => contains r sub
       end.
Proof. destruct s; reflexivity. Qed.

(** A string holds each of its parts. *)
Lemma contains_app (pre sub post : str) :
  contains (pre ++ sub ++ post) sub = true.
Proof.
  induction pre as [|c pre IH].
  - simpl app. rewrite contains_unfold, startswith_app. reflexivity.
  - simpl app. rewrite contains_unfold, IH. apply orb_true_r.
Qed.

Lemma uint_no_underscore (d : Decimal.uint) :
  Forall (fun c => c <> "_"%char)
         (String.list_ascii_of_string (NilEmpty.string_of_uint d)).
Proof.
  induction d; simpl; constructor; try discriminate; assumption.
Qed.

Lemma str_of_nat_no_underscore (n : nat) :
  Forall (fun c => c <> "_"%char) (str_of_nat n).
Proof.
  unfold str_of_nat, of_string, NilZero.string_of_uint.
  destruct (Nat.to_uint n) eqn:E; try (rewrite <- E; apply uint_no_underscore).
  repeat constructor. discriminate.
Qed.

(** Two texts that end with the same character, followed by texts without
    that character, are cut at the same place. *)
Lemma split_at_last {A : Type} (c : A) (x1 x2 s1 s2 : list A) :
  x1 ++ c :: s1 = x2 ++ c :: s2 ->
  Forall (fun a => a <> c) s1 -> Forall (fun a => a <> c) s2 ->
  x1 = x2 /\ s1 = s2.
Proof.
  intros E H1 H2.
  assert (Hrev : forall (p1 p2 q1 q2 : list A),
            p1 ++ c :: q1 = p2 ++ c :: q2 ->
            Forall (fun a => a <> c) p1 -> Forall (fun a => a <> c) p2 ->
            p1 = p2 /\ q1 = q2).
  { induction p1 as [|a p1 IH]; intros [|b p2] q1 q2 Ep Hp1 Hp2; simpl in Ep.
    - injection Ep as ->. auto.
    - injection Ep as <- _. inversion Hp2; subst. congruence.
    - injection Ep as -> _. inversion Hp1; subst. congruence.
    - injection Ep as -> Ep. inversion Hp1; subst. inversion Hp2; subst.
      destruct (IH p2 q1 q2 Ep) as [-> ->]; auto. }
  apply (f_equal (@rev A)) in E.
  rewrite !rev_app_distr in E. simpl in E. rewrite <- !app_assoc in E.
  simpl in E.
  destruct (Hrev (rev s1) (rev s2) (rev x1) (rev x2) E) as [Es Ex];
    try (apply Forall_rev; assumption).
  split.
  - rewrite <- (rev_involutive x1), Ex. apply rev_involutive.
  - rewrite <- (rev_involutive s1), Es. apply rev_involutive.
Qed.

Section Padding.

Context {P : Type}.

Lemma duplicate_marked (first : result P) (excerpts : list (result P))
    (i : nat) :
  contains (r_chunk_id (duplicate first excerpts i))
           (of_string "_ACTIVITY_DUP_") = true.
Proof. unfold duplicate. cbn [r_chunk_id]. apply contains_app. Qed.

Lemma duplicate_of_original (first : result P) (rest : list (result P))
    (i : nat) :
  exists o,
    In o (first :: rest)
    /\ r_text (duplicate first (first :: rest) i) = r_text o
    /\ r_other (duplicate first (first :: rest) i) = r_other o.
Proof.
  unfold duplicate. cbn [r_text r_other].
  eexists. split; [|split; reflexivity].
  apply nth_In. apply Nat.mod_upper_bound. discriminate.
Qed.

(** X19. [prepare_activity_input] raises on an empty list of excerpts
    (the padding divides by its length). Otherwise it makes a request for
    each excerpt, in the order given, and pads them to 100 records when
    they are fewer: every padding record repeats the text and the other
    entries of an excerpt. *)
Theorem excerpts_to_process_outcome (extracted_excerpts : list (result P)) :
  match excerpts_to_process extracted_excerpts with
  | Raised e =>
      extracted_excerpts = [] /\ e = of_string "ZeroDivisionError"
  | Returned l =>
      extracted_excerpts <> []
      /\ len l = Z.max 100 (len extracted_excerpts)
      /\ firstn (length extracted_excerpts) l = extracted_excerpts
      /\ Forall (fun r => exists o,
                   In o extracted_excerpts
                   /\ r_text r = r_text o /\ r_other r = r_other o) l
  end.
Proof.
  unfold excerpts_to_process, MIN_BATCH_SIZE.
  destruct (len extracted_excerpts <? 100) eqn:E.
  - apply Z.ltb_lt in E. destruct extracted_excerpts as [|first rest].
    + split; reflexivity.
    + split; [discriminate|]. split; [|split].
      * rewrite len_app. unfold len in *.
        rewrite length_map, length_seq. lia.
      * rewrite firstn_app, Nat.sub_diag, firstn_all, firstn_O.
        apply app_nil_r.
      * apply Forall_app. split.
        -- rewrite Forall_forall. intros r Hr. exists r. auto.
        -- rewrite Forall_forall. intros r Hr. apply in_map_iff in Hr.
           destruct Hr as [i [<- _]]. apply duplicate_of_original.
  - apply Z.ltb_ge in E. split; [|split; [|split]].
    + intros ->. unfold len in E. simpl in E. lia.
    + lia.
    + apply firstn_all.
    + rewrite Forall_forall. intros r Hr. exists r. auto.
Qed.

(** X20. The filter of [download_and_parse_results] undoes the padding:
    of the records that [prepare_activity_input] has made, it keeps the
    excerpts that were given, when none of their ids holds the mark
    [_ACTIVITY_DUP_]. *)
Theorem original_activities_undo_padding
    (extracted_excerpts l : list (result P)) :
  Forall (fun e => contains (r_chunk_id e) (of_string "_ACTIVITY_DUP_")
                   = false) extracted_excerpts ->
  excerpts_to_process extracted_excerpts = Returned l ->
  original_activities l = extracted_excerpts.
Proof.
  intros Hids E.
  assert (Hkeep : original_activities extracted_excerpts
                  = extracted_excerpts).
  { unfold original_activities. clear E.
    induction Hids as [|e es He Hes IH]; cbn [filter]; [reflexivity|].
    rewrite He. cbn [negb]. rewrite IH. reflexivity. }
  unfold excerpts_to_process in E.
  destruct (len extracted_excerpts <? MIN_BATCH_SIZE).
  - destruct extracted_excerpts as [|first rest]; [discriminate|].
    revert E. generalize (seq 0 (Z.to_nat (MIN_BATCH_SIZE
                                           - len (first :: rest)))).
    intros idx E.
    assert (El : l = (first :: rest)
                     ++ map (duplicate first (first :: rest)) idx)
      by congruence.
    subst l. clear E. unfold original_activities in *.
    rewrite filter_app, Hkeep.
    replace (filter _ (map _ idx)) with (@nil (result P));
      [apply app_nil_r|].
    symmetry. induction idx as [|i idx IH]; cbn [map filter];
      [reflexivity|].
    rewrite duplicate_marked. cbn [negb]. exact IH.
  - injection E as <-. exact Hkeep.
Qed.

Lemma duplicate_id_inj (first : result P) (excerpts : list (result P))
    (i j : nat) :
  r_chunk_id (duplicate first excerpts i)
  = r_chunk_id (duplicate first excerpts j) ->
  i = j.
Proof.
  unfold duplicate. cbn [r_chunk_id]. intros E.
  change (of_string "_ACTIVITY_DUP_")
    with (of_string "_ACTIVITY_DUP" ++ ["_"%char]) in E.
  rewrite <- !app_assoc in E. rewrite !app_assoc in E.
  rewrite <- !app_assoc with (n := str_of_nat _) in E. simpl app in E.
  apply split_at_last in E; try apply str_of_nat_no_underscore.
  destruct E as [_ E]. apply str_of_nat_inj in E. lia.
Qed.

(** X21. The requests of [prepare_activity_input] have distinct record
    ids, when the excerpts have distinct ids and none of them holds the
    mark [_ACTIVITY_DUP_]. *)
Theorem excerpts_to_process_ids_distinct
    (extracted_excerpts l : list (result P)) :
  NoDup (map (@r_chunk_id P) extracted_excerpts) ->
  Forall (fun e => contains (r_chunk_id e) (of_string "_ACTIVITY_DUP_")
                   = false) extracted_excerpts ->
  excerpts_to_process extracted_excerpts = Returned l ->
  NoDup (map (@r_chunk_id P) l).
Proof.
  intros Hnd Hids E. unfold excerpts_to_process in E.
  destruct (len extracted_excerpts <? MIN_BATCH_SIZE).
  - destruct extracted_excerpts as [|first rest]; [discriminate|].
    revert E. generalize (seq_NoDup (Z.to_nat (MIN_BATCH_SIZE
                                              - len (first :: rest))) 0).
    generalize (seq 0 (Z.to_nat (MIN_BATCH_SIZE - len (first :: rest)))).
    intros idx Hidx E.
    assert (El : l = (first :: rest)
                     ++ map (duplicate first (first :: rest)) idx)
      by congruence.
    subst l. clear E. rewrite map_app. apply NoDup_app.
    + exact Hnd.
    + rewrite map_map.
      apply Finite.Injective_map_NoDup; [|exact Hidx].
      intros i j. apply duplicate_id_inj.
    + intros id Hin Hdup. rewrite map_map in Hdup.
      apply in_map_iff in Hin. destruct Hin as [e [<- He]].
      apply in_map_iff in Hdup. destruct Hdup as [i [Ei _]].
      rewrite Forall_forall in Hids. specialize (Hids e He).
      rewrite <- Ei, duplicate_marked in Hids. discriminate.
  - injection E as <-. exact Hnd.
Qed.

End Padding.

Lemma original_activities_undo_padding_witness :
  let first := example_record "chunk_1" "alpha" in
  let padded :=
    [first] ++ map (duplicate first [first]) (seq 0 99) in
  Forall (fun e => contains (r_chunk_id e) (of_string "_ACTIVITY_DUP_")
                   = false) [first]
  /\ excerpts_to_process [first] = Returned padded
  /\ original_activities padded = [first].
Proof.
  cbv zeta.
  assert (H1 : Forall (fun e : result unit =>
                         contains (r_chunk_id e)
                                  (of_string "_ACTIVITY_DUP_") = false)
                      [example_record "chunk_1" "alpha"]).
  { constructor; [vm_compute; reflexivity | constructor]. }
  assert (H2 : excerpts_to_process [example_record "chunk_1" "alpha"]
               = Returned
                   ([example_record "chunk_1" "alpha"]
                    ++ map (duplicate (example_record "chunk_1" "alpha")
                                      [example_record "chunk_1" "alpha"])
                           (seq 0 99)))
    by reflexivity.
  split; [exact H1|]. split; [exact H2|].
  exact (@original_activities_undo_padding unit _ _ H1 H2).
Defined.

Lemma excerpts_to_process_ids_distinct_witness :
  let first := example_record "chunk_1" "alpha" in
  let padded :=
    [first] ++ map (duplicate first [first]) (seq 0 99) in
  NoDup (map (@r_chunk_id unit) [first])
  /\ Forall (fun e => contains (r_chunk_id e) (of_string "_ACTIVITY_DUP_")
                      = false) [first]
  /\ excerpts_to_process [first] = Returned padded
  /\ NoDup (map (@r_chunk_id unit) padded).
Proof.
  cbv zeta.
  assert (H0 : NoDup (map (@r_chunk_id unit)
                          [example_record "chunk_1" "alpha"])).
  { simpl. constructor; [intros [] | constructor]. }
  assert (H1 : Forall (fun e : result unit =>
                         contains (r_chunk_id e)
                                  (of_string "_ACTIVITY_DUP_") = false)
                      [example_record "chunk_1" "alpha"]).
  { constructor; [vm_compute; reflexivity | constructor]. }
  assert (H2 : excerpts_to_process [example_record "chunk_1" "alpha"]
               = Returned
                   ([example_record "chunk_1" "alpha"]
                    ++ map (duplicate (example_record "chunk_1" "alpha")
                                      [example_record "chunk_1" "alpha"])
                           (seq 0 99)))
    by reflexivity.
  split; [exact H0|]. split; [exact H1|]. split; [exact H2|].
  exact (@excerpts_to_process_ids_distinct unit _ _ H0 H1 H2).
Defined.

End PaddingFacts.

(** ** The summaries of a document *)

Module SummaryFacts.

Import Py PyFacts Spec.

Lemma str_eqb_sym (a b : str) : str_eqb a b = str_eqb b a.
Proof.
  destruct (str_eqb a b) eqn:E1, (str_eqb b a) eqn:E2; try reflexivity.
  - apply str_eqb_eq in E1. subst b. rewrite str_eqb_refl in E2.
    discriminate.
  - apply str_eqb_eq in E2. subst b. rewrite str_eqb_refl in E1.
    discriminate.
Qed.

Lemma count_add_cases (key : str) (d : list (str * Z)) :
  (~ In key (map fst d) /\ count_add key d = d ++ [(key, 1)])
  \/ exists d1 n d2,
       d = d1 ++ (key, n) :: d2
       /\ ~ In key (map fst d1)
       /\ count_add key d = d1 ++ (key, n + 1) :: d2.
Proof.
  induction d as [|[k n] d IH]; simpl.
  - left. split; [tauto | reflexivity].
  - destruct (str_eqb k key) eqn:E.
    + apply str_eqb_eq in E. subst k. right.
      exists [], n, d. simpl. split; [reflexivity|]. split; [tauto|].
      reflexivity.
    + assert (Hne : k <> key).
      { intros ->. rewrite str_eqb_refl in E. discriminate. }
      destruct IH as [[Hnin ->]|[d1 [n' [d2 [-> [Hnin ->]]]]]].
      * left. split; [|reflexivity]. intros [H|H]; tauto.
      * right. exists ((k, n) :: d1), n', d2. simpl.
        split; [reflexivity|]. split; [|reflexivity].
        intros [H|H]; tauto.
Qed.

Lemma count_total_app (d1 d2 : list (str * Z)) :
  count_total (d1 ++ d2) = count_total d1 + count_total d2.
Proof.
  induction d1 as [|kv d1 IH]; simpl; [reflexivity|].
  unfold count_total in *. simpl. rewrite IH. lia.
Qed.

Lemma count_add_total (key : str) (d : list (str * Z)) :
  count_total (count_add key d) = count_total d + 1.
Proof.
  destruct (count_add_cases key d)
    as [[_ ->]|[d1 [n [d2 [-> [_ ->]]]]]];
    rewrite !count_total_app; unfold count_total; simpl; lia.
Qed.

Lemma count_add_keys (key : str) (d : list (str * Z)) :
  NoDup (map fst d) -> NoDup (map fst (count_add key d)).
Proof.
  intros Hnd.
  destruct (count_add_cases key d)
    as [[Hnin ->]|[d1 [n [d2 [-> [_ ->]]]]]].
  - rewrite map_app. simpl. apply NoDup_app; [exact Hnd | |].
    + repeat constructor. intros [].
    + intros k Hk [<-|[]]. contradiction.
  - rewrite map_app in Hnd |- *. exact Hnd.
Qed.

Lemma count_add_get (key s : str) (d : list (str * Z)) :
  dict_get s (count_add key d)
  = if str_eqb key s
    then Some (match dict_get s d with Some m => m + 1 | None => 1 end)
    else dict_get s d.
Proof.
  induction d as [|[k n] d IH]; simpl.
  - rewrite (str_eqb_sym key s).
    destruct (str_eqb s key); reflexivity.
  - destruct (str_eqb k key) eqn:E; simpl.
    + apply str_eqb_eq in E. subst k.
      destruct (str_eqb key s); reflexivity.
    + destruct (str_eqb k s) eqn:Es.
      * apply str_eqb_eq in Es. subst k. rewrite (str_eqb_sym key s), E.
        reflexivity.
      * exact IH.
Qed.

Lemma occurrences_cons (s k : str) (l : list str) :
  occurrences s (k :: l)
  = (if str_eqb s k then 1 else 0) + occurrences s l.
Proof.
  unfold occurrences. simpl. destruct (str_eqb s k); [rewrite len_cons|];
    lia.
Qed.

Lemma occurrences_nonneg (s : str) (l : list str) : 0 <= occurrences s l.
Proof. apply len_nonneg. Qed.

(** The dict of counts of a list of keys. *)
Lemma fold_count_add (l : list str) (d : list (str * Z)) :
  let counts := fold_left (fun d k => count_add k d) l d in
  (NoDup (map fst d) -> NoDup (map fst counts))
  /\ count_total counts = count_total d + len l
  /\ forall s,
       dict_get s counts
       = match dict_get s d with
         | Some m => Some (m + occurrences s l)
         | None => counted (occurrences s l)
         end.
Proof.
  cbv zeta. revert d. induction l as [|k l IH]; intros d; cbn [fold_left].
  - split; [auto|]. split; [rewrite len_nil; lia|].
    intros s. destruct (dict_get s d); [f_equal; unfold occurrences; simpl|];
      reflexivity || (rewrite len_nil; lia).
  - destruct (IH (count_add k d)) as [H1 [H2 H3]].
    split; [|split].
    + intros Hnd. apply H1. apply count_add_keys. exact Hnd.
    + rewrite H2, count_add_total, len_cons. lia.
    + intros s. rewrite H3, count_add_get, occurrences_cons.
      rewrite (str_eqb_sym k s).
      pose proof (occurrences_nonneg s l) as Hn.
      destruct (str_eqb s k).
      * destruct (dict_get s d); [f_equal; lia|].
        unfold counted.
        replace (1 + occurrences s l =? 0) with false
          by (symmetry; apply Z.eqb_neq; lia).
        reflexivity.
      * destruct (dict_get s d); reflexivity.
Qed.

(** X22. The sector counts of [process_pad_semantic_search] add up to the
    number of matches: the dict has one entry for each sector that
    occurs, which holds the number of matches of the sector. *)
Theorem count_sectors_totals (ms : list SemanticMatch) :
  let counts := SemanticSearch.count_sectors ms in
  NoDup (map fst counts)
  /\ count_total counts = len ms
  /\ forall s, dict_get s counts
               = counted (occurrences s (map sm_sector ms)).
Proof.
  cbv zeta. unfold SemanticSearch.count_sectors.
  assert (E : forall d,
            fold_left (fun counts m => count_add (sm_sector m) counts) ms d
            = fold_left (fun d k => count_add k d) (map sm_sector ms) d).
  { induction ms as [|m ms IH]; intros d; simpl; [reflexivity | apply IH]. }
  rewrite E. destruct (fold_count_add (map sm_sector ms) []) as [H1 [H2 H3]].
  split; [apply H1; constructor|]. split.
  - rewrite H2. unfold len. rewrite length_map. reflexivity.
  - intros s. rewrite H3. reflexivity.
Qed.

(** *** [process_pad] *)





Section ProcessPad.

Import KeywordSearch.

Context {Tk : NLTK} {Re : Regex} {So : SetOrder}.


End ProcessPad.

End SummaryFacts.

(** ** The statistics of the reconciliation of a document *)

Module StatisticsFacts.

Import Py PyFacts Spec CrossStoreDeduplicator ReconcileFacts Deduplication.

Lemma provenance_counts (l : list (CombinedMatch loc)) :
  Forall provenance_ok l ->
  len l = count_found_by keyword_only l + count_found_by semantic_only l
          + count_found_by both l.
Proof.
  unfold count_found_by.
  induction 1 as [|c l Hc Hl IH]; [reflexivity|].
  rewrite len_cons, IH. cbn [filter].
  destruct Hc as [[Hf _]|[[Hf _]|[Hf _]]]; unfold loc in *; rewrite Hf.
  - change (str_eqb keyword_only keyword_only) with true.
    change (str_eqb keyword_only semantic_only) with false.
    change (str_eqb keyword_only both) with false.
    cbv iota. rewrite len_cons. lia.
  - change (str_eqb semantic_only keyword_only) with false.
    change (str_eqb semantic_only semantic_only) with true.
    change (str_eqb semantic_only both) with false.
    cbv iota. rewrite len_cons. lia.
  - change (str_eqb both keyword_only) with false.
    change (str_eqb both semantic_only) with false.
    change (str_eqb both both) with true.
    cbv iota. rewrite len_cons. lia.
Qed.

Section ProcessPad.

Context {So : SetOrder}.

(** X24. [process_pad_with_deduplication] raises exactly when the
    document has no keyword and no semantic match. Otherwise the three
    provenance counts of its result add up to [total_matches], which is
    the number of reconciled spans: at least one, and not more than the
    matches given. *)
Theorem process_pad_statistics (h : store)
    (keyword_results : pad_matches (KeywordMatch loc))
    (semantic_results : pad_matches SemanticMatch) :
  match fst (process_pad_with_deduplication h keyword_results
                                            semantic_results) with
  | Raised e =>
      pm_matches keyword_results = [] /\ pm_matches semantic_results = []
  | Returned r =>
      total_matches r = len (matches r)
      /\ total_matches r
         = found_by_keyword_only r + found_by_semantic_only r
           + found_by_both r
      /\ 1 <= total_matches r
         <= len (pm_matches keyword_results)
            + len (pm_matches semantic_results)
      /\ file_name r = pm_file_name keyword_results
      /\ project_id r = pm_project_id keyword_results
  end.
Proof.
  unfold process_pad_with_deduplication, __init__, deduplicate.
  pose proof (reconcile_provenance_all (mk (1 # 2)) h
                (pm_matches keyword_results) (pm_matches semantic_results))
    as Hprov.
  destruct (reconcile_count (mk (1 # 2)) h (pm_matches keyword_results)
                            (pm_matches semantic_results)) as [Hle Hge].
  destruct (reconcile _ h _ _) as [final h']. simpl fst in *.
  destruct final as [|c final]; cbn [nonempty fst].
  - destruct (pm_matches keyword_results) as [|k ks].
    + destruct (pm_matches semantic_results) as [|m ms]; [auto|].
      exfalso. assert (1 <= 0)%nat by (apply Hge; right; discriminate). lia.
    + exfalso. assert (1 <= 0)%nat by (apply Hge; left; discriminate). lia.
  - cbn [total_matches matches found_by_keyword_only found_by_semantic_only
         found_by_both file_name project_id].
    split; [reflexivity|]. split; [apply provenance_counts; exact Hprov|].
    split; [|split; reflexivity].
    unfold len in *. simpl length in *. lia.
Qed.

End ProcessPad.

End StatisticsFacts.

(** ** The lemma of a word *)

Module LemmaFacts.

Import Py PyFacts KeywordSearcher Spec.

Lemma min_by_len_least (l : list str) (best : str) :
  In (min_by_len best l) (best :: l)
  /\ Forall (fun x => len (min_by_len best l) <= len x) (best :: l).
Proof.
  revert best. induction l as [|x l IH]; intros best; simpl.
  - split; [left; reflexivity|]. constructor; [lia | constructor].
  - destruct (len x <? len best) eqn:E.
    + apply Z.ltb_lt in E. destruct (IH x) as [Hin Hall].
      split; [right; exact Hin|].
      inversion Hall as [|? ? Hx Hl]; subst.
      constructor; [lia|]. constructor; assumption.
    + apply Z.ltb_ge in E. destruct (IH best) as [Hin Hall].
      split; [destruct Hin as [Hin|Hin]; [left | right; right]; exact Hin|].
      inversion Hall as [|? ? Hb Hl]; subst.
      constructor; [exact Hb|]. constructor; [lia | exact Hl].
Qed.

Lemma distinct_In (l : list str) (x : str) : In x (distinct l) <-> In x l.
Proof.
  induction l as [|a l IH]; simpl; [tauto|].
  rewrite filter_In, IH, negb_true_iff.
  destruct (str_eqb a x) eqn:E.
  - apply str_eqb_eq in E. subst a. split; [intros [H|[_ H]]; auto|].
    intros _. left. reflexivity.
  - split; [tauto|]. intros [->|H]; [|tauto].
    rewrite str_eqb_refl in E. discriminate.
Qed.

Section Lemma.

Context {Tk : NLTK} {So : SetOrder}.

(** X25. [_lemmatize_word] returns a shortest one of the three lemmas of
    the word, lowered and stripped, whatever the order in which the set
    of the lemmas is read. *)
Theorem lemmatize_word_shortest (word0 : str) :
  (forall l x, In x (list_of_set l) <-> In x l) ->
  let word := strip (lower word0) in
  (exists p, _lemmatize_word word0 = lemmatize word p)
  /\ forall p, len (_lemmatize_word word0) <= len (lemmatize word p).
Proof.
  intros Hset. cbv zeta. unfold _lemmatize_word.
  set (word := strip (lower word0)).
  set (lemmas := [lemmatize word pos_n; lemmatize word pos_v;
                  lemmatize word pos_a]).
  assert (Hall : forall p, In (lemmatize word p) (list_of_set lemmas)).
  { intros p. apply Hset. destruct p; simpl; auto. }
  destruct (list_of_set lemmas) as [|a l] eqn:E.
  - destruct (Hall pos_n).
  - destruct (min_by_len_least l a) as [Hin Hmin]. split.
    + assert (H : In (min_by_len a l) lemmas).
      { apply Hset. rewrite E. exact Hin. }
      destruct H as [H|[H|[H|[]]]]; eexists; symmetry; exact H.
    + intros p. rewrite Forall_forall in Hmin. apply Hmin. apply Hall.
Qed.

End Lemma.

Lemma lemmatize_word_shortest_witness :
  (forall l x, In x (list_of_set (SetOrder := first_occurrence_order) l)
               <-> In x l)
  /\ (exists p,
        _lemmatize_word (Tk := plain_nltk) (So := first_occurrence_order)
                        (of_string " Floods ")
        = lemmatize (NLTK := plain_nltk) (of_string "floods") p)
  /\ forall p,
       len (_lemmatize_word (Tk := plain_nltk) (So := first_occurrence_order)
                            (of_string " Floods "))
       <= len (lemmatize (NLTK := plain_nltk) (of_string "floods") p).
Proof.
  split; [exact distinct_In|].
  exact (@lemmatize_word_shortest plain_nltk first_occurrence_order
           (of_string " Floods ") distinct_In).
Defined.

End LemmaFacts.

(** ** What the deduplication of excerpts drops *)

Module ExcerptCoverFacts.

Import Py PyFacts ActivityClassifier Spec SortFacts SemanticFacts ExcerptFacts.

Section Dedup.

Context {P : Type} {Sm : SequenceMatcher}.

Variable similarity_threshold : Q.

Local Abbreviation keep := (keep_unique (P := P) similarity_threshold).

Lemma is_duplicate_true (r : result P) (l : list (result P)) :
  is_duplicate similarity_threshold r l = true ->
  exists u,
    In u l
    /\ (similarity_threshold <= ratio (normalized r) (normalized u))%Q.
Proof.
  induction l as [|u l IH]; simpl; [discriminate|].
  destruct (Qgeb _ _) eqn:E.
  - intros _. exists u. split; [left; reflexivity|].
    apply Qgeb_true. exact E.
  - intros H. destruct (IH H) as [v [Hv Hr]]. exists v. auto.
Qed.

(** The sweep keeps what it has already kept. *)
Lemma sweep_keeps_kept (l acc : list (result P)) (x : result P) :
  In x acc -> In x (fold_left keep l acc).
Proof.
  revert acc. induction l as [|r l IH]; intros acc Hx; simpl; [exact Hx|].
  apply IH. unfold keep_unique.
  destruct (is_duplicate _ r acc); [exact Hx|].
  apply in_or_app. left. exact Hx.
Qed.

Lemma sweep_complete (key : result P -> Z) (l acc : list (result P)) :
  StronglySorted (key_le key) l ->
  (forall a r, In a acc -> In r l -> key a <= key r) ->
  forall r, In r l ->
    In r (fold_left keep l acc)
    \/ exists u,
         In u (fold_left keep l acc)
         /\ (similarity_threshold
             <= ratio (normalized r) (normalized u))%Q
         /\ key u <= key r.
Proof.
  revert acc. induction l as [|x l IH]; intros acc Hs Hacc r Hr;
    [destruct Hr|].
  inversion Hs as [|? ? Hs' Hall]; subst. rewrite Forall_forall in Hall.
  cbn [fold_left]. destruct Hr as [<-|Hr].
  - unfold keep_unique. destruct (is_duplicate _ x acc) eqn:E.
    + right. destruct (is_duplicate_true _ _ E) as [u [Hu Hratio]].
      exists u. split; [apply sweep_keeps_kept; exact Hu|].
      split; [exact Hratio|]. apply Hacc; [exact Hu | left; reflexivity].
    + left. apply sweep_keeps_kept. apply in_or_app. right. left.
      reflexivity.
  - apply IH; [exact Hs' | | exact Hr].
    intros a r' Ha Hr'. unfold keep_unique in Ha.
    destruct (is_duplicate _ x acc).
    + apply Hacc; [exact Ha | right; exact Hr'].
    + apply in_app_or in Ha. destruct Ha as [Ha|[<-|[]]].
      * apply Hacc; [exact Ha | right; exact Hr'].
      * apply Hall. exact Hr'.
Qed.

(** X26. [deduplicate_excerpts] returns records of its input whose text
    is not blank, and it drops no such record without keeping a similar
    one: a record that is not returned reaches the threshold against a
    returned record whose text is at least as long. *)
Theorem deduplicate_excerpts_complete (results : list (result P)) :
  let kept := deduplicate_excerpts results similarity_threshold in
  (forall u, In u kept -> In u results /\ has_text u = true)
  /\ forall r, In r results -> has_text r = true ->
       In r kept
       \/ exists u,
            In u kept
            /\ (similarity_threshold
                <= ratio (normalized r) (normalized u))%Q
            /\ len (text_of r) <= len (text_of u).
Proof.
  cbv zeta. unfold deduplicate_excerpts.
  set (key := fun x : result P => - len (text_of x)).
  set (non_empty := filter has_text results).
  pose proof (sort_by_perm key non_empty) as Hperm.
  pose proof (sort_by_sorted key non_empty) as Hsorted.
  destruct (nonempty non_empty) eqn:Hne; simpl negb; cbv iota.
  - split.
    + intros u Hu.
      pose proof (sweep_subseq similarity_threshold
                               (sort_by key non_empty) []) as Hsub.
      apply (@subseq_In _ _ _ u Hsub) in Hu. simpl in Hu.
      apply Permutation_in with (l' := non_empty) in Hu;
        [|symmetry; exact Hperm].
      apply filter_In in Hu. exact Hu.
    + intros r Hr Ht.
      assert (Hin : In r (sort_by key non_empty)).
      { eapply Permutation_in; [exact Hperm|].
        apply filter_In. split; assumption. }
      destruct (@sweep_complete key (sort_by key non_empty) [] Hsorted
                  (fun a r' (Ha : In a []) _ => match Ha with end) r Hin)
        as [H|[u [Hu [Hratio Hkey]]]]; [left; exact H|].
      right. exists u. split; [exact Hu|]. split; [exact Hratio|].
      unfold key in Hkey. lia.
  - apply nonempty_false in Hne. split; [intros u []|].
    intros r Hr Ht. exfalso.
    assert (Hin : In r non_empty) by (apply filter_In; split; assumption).
    rewrite Hne in Hin. destruct Hin.
Qed.

End Dedup.

End ExcerptCoverFacts.

(** ** The spans of the semantic searcher and the chunks *)

Module SemanticSpanFacts.

Import Py PyFacts SemanticSearcher Spec SemanticFacts ChunkFacts
       IdentifierFacts.

Lemma In_slice_to {A : Type} (l : list A) (k : Z) (x : A) :
  In x (slice_to l k) -> In x l.
Proof.
  unfold slice_to. intros H.
  rewrite <- (firstn_skipn (Z.to_nat (slice_index (len l) k)) l).
  apply in_or_app. left. exact H.
Qed.

Section Search.

Context {E : Embedder}.

(** The matches collected so far, unless the search raised, come from the
    chunks. *)
Lemma add_match_from_chunks (chs : list chunk) (sims : list Q)
    (sector query : str) (acc : option (list SemanticMatch)) (idx : nat) :
  (forall ms, acc = Some ms ->
     Forall (fun m => In (sm_text m, sm_char_start m, sm_char_end m) chs)
            ms) ->
  forall ms, add_match chs sims sector query acc idx = Some ms ->
    Forall (fun m => In (sm_text m, sm_char_start m, sm_char_end m) chs) ms.
Proof.
  intros Hacc ms. unfold add_match.
  destruct acc as [ms0|]; [|discriminate].
  destruct (nth_error sims idx) as [score|]; [|discriminate].
  destruct (nth_error chs idx) as [[[t s] e]|] eqn:En; [|discriminate].
  intros H. injection H as <-. apply Forall_app.
  split; [apply Hacc; reflexivity|]. constructor; [|constructor].
  simpl. apply nth_error_In in En. exact En.
Qed.

Lemma add_query_from_chunks (chs : list chunk) (top_k : Z)
    (acc : option (list SemanticMatch)) (query_info : str * str) :
  (forall ms, acc = Some ms ->
     Forall (fun m => In (sm_text m, sm_char_start m, sm_char_end m) chs)
            ms) ->
  forall ms, add_query chs top_k acc query_info = Some ms ->
    Forall (fun m => In (sm_text m, sm_char_start m, sm_char_end m) chs) ms.
Proof.
  unfold add_query. destruct query_info as [sector query].
  set (sims := similarities query _).
  generalize (slice_to (argsort_descending sims) top_k). intros indices.
  revert acc. induction indices as [|idx indices IH]; intros acc Hacc;
    cbn [fold_left]; [exact Hacc|].
  apply IH. apply add_match_from_chunks. exact Hacc.
Qed.

(** X27. [SemanticSearcher.search] returns chunks of the document, each
    at most once: the text and the range of a span are those of a chunk,
    and there are not more spans than chunks. *)
Theorem semantic_search_spans_are_chunks (text : str)
    (queries : list (str * str)) (top_k : Z) :
  match search text queries top_k with
  | Some spans =>
      Forall (fun m => In (sm_text m, sm_char_start m, sm_char_end m)
                          (_create_chunks text 500 100)) spans
      /\ (length spans <= length (_create_chunks text 500 100))%nat
  | None => True
  end.
Proof.
  unfold search. set (chs := _create_chunks text 500 100).
  destruct (negb (nonempty chs)); [split; [constructor | simpl; lia]|].
  assert (H : forall qs acc,
            (forall ms, acc = Some ms ->
               Forall (fun m => In (sm_text m, sm_char_start m,
                                    sm_char_end m) chs) ms) ->
            forall ms,
              fold_left (add_query chs top_k) qs acc = Some ms ->
              Forall (fun m => In (sm_text m, sm_char_start m,
                                   sm_char_end m) chs) ms).
  { induction qs as [|q qs IH]; intros acc Hacc; cbn [fold_left];
      [exact Hacc|].
    apply IH. apply add_query_from_chunks. exact Hacc. }
  specialize (H queries (Some [])).
  destruct (fold_left _ queries (Some [])) as [ms|]; [|exact I].
  simpl option_map. cbv iota.
  assert (Hms : Forall (fun m => In (sm_text m, sm_char_start m,
                                     sm_char_end m) chs) ms).
  { apply H; [|reflexivity]. intros ms0 E0. injection E0 as <-.
    constructor. }
  assert (Hkept : Forall (fun m => In (sm_text m, sm_char_start m,
                                       sm_char_end m) chs)
                         (_deduplicate_by_position ms)).
  { rewrite Forall_forall in Hms |- *. intros m Hm. apply Hms.
    apply deduplicate_by_position_In. exact Hm. }
  split; [exact Hkept|].
  rewrite <- (length_map position (_deduplicate_by_position ms)).
  rewrite <- (length_map (fun c : chunk => (snd (fst c), snd c)) chs).
  apply NoDup_incl_length; [apply deduplicate_by_position_NoDup|].
  intros p Hp. apply in_map_iff in Hp. destruct Hp as [m [<- Hm]].
  rewrite Forall_forall in Hkept. specialize (Hkept m Hm).
  apply in_map_iff. eexists. split; [|exact Hkept]. reflexivity.
Qed.

Lemma add_match_returns (chs : list chunk) (sims : list Q)
    (sector query : str) (ms : list SemanticMatch) (idx : nat) :
  (idx < length sims)%nat -> length sims = length chs ->
  exists ms', add_match chs sims sector query (Some ms) idx = Some ms'.
Proof.
  intros Hidx Hlen. unfold add_match.
  destruct (nth_error sims idx) as [score|] eqn:Es.
  - destruct (nth_error chs idx) as [[[t s] e]|] eqn:Ec.
    + eexists. reflexivity.
    + apply nth_error_None in Ec. lia.
  - apply nth_error_None in Es. lia.
Qed.

(** X28. [SemanticSearcher.search] raises no [IndexError] when the
    embedding model scores every chunk and the sort returns indices of
    its scores: it returns a list of spans. *)
Theorem semantic_search_returns (text : str) (queries : list (str * str))
    (top_k : Z) :
  (forall query texts, length (similarities query texts) = length texts) ->
  (forall sims i, In i (argsort_descending sims) ->
                  (i < length sims)%nat) ->
  exists spans, search text queries top_k = Some spans.
Proof.
  intros Hsims Hsort. unfold search.
  set (chs := _create_chunks text 500 100).
  destruct (negb (nonempty chs)); [eexists; reflexivity|].
  assert (Hq : forall q ms,
            exists ms', add_query chs top_k (Some ms) q = Some ms').
  { intros [sector query] ms. unfold add_query.
    set (sims := similarities query _).
    assert (Hlen : length sims = length chs).
    { unfold sims. rewrite Hsims, length_map. reflexivity. }
    assert (Hidx : forall i,
              In i (slice_to (argsort_descending sims) top_k) ->
              (i < length sims)%nat).
    { intros i Hi. apply Hsort. eapply In_slice_to. exact Hi. }
    revert Hidx ms.
    generalize (slice_to (argsort_descending sims) top_k). intros indices.
    induction indices as [|idx indices IH]; intros Hidx ms; cbn [fold_left].
    - eexists. reflexivity.
    - destruct (@add_match_returns chs sims sector query ms idx
                  (Hidx idx (or_introl eq_refl)) Hlen) as [ms' ->].
      apply IH. intros i Hi. apply Hidx. right. exact Hi. }
  assert (H : forall qs ms,
            exists ms',
              fold_left (add_query chs top_k) qs (Some ms) = Some ms').
  { induction qs as [|q qs IH]; intros ms; cbn [fold_left].
    - eexists. reflexivity.
    - destruct (Hq q ms) as [ms' ->]. apply IH. }
  destruct (H queries []) as [ms ->]. eexists. reflexivity.
Qed.

End Search.

Lemma semantic_search_returns_witness :
  (forall query texts,
     length (similarities (Embedder := uniform_embedder) query texts)
     = length texts)
  /\ (forall sims i,
        In i (argsort_descending (Embedder := uniform_embedder) sims) ->
        (i < length sims)%nat)
  /\ exists spans,
       search (E := uniform_embedder) two_paragraphs
              [(of_string "sector", of_string "query")] 10
       = Some spans.
Proof.
  assert (H1 : forall query texts,
            length (similarities (Embedder := uniform_embedder) query texts)
            = length texts).
  { intros query texts. simpl. apply length_map. }
  assert (H2 : forall sims i,
            In i (argsort_descending (Embedder := uniform_embedder) sims) ->
            (i < length sims)%nat).
  { intros sims i Hi. simpl in Hi. apply in_seq in Hi. lia. }
  split; [exact H1|]. split; [exact H2|].
  exact (@semantic_search_returns uniform_embedder two_paragraphs
           [(of_string "sector", of_string "query")] 10 H1 H2).
Defined.

End SemanticSpanFacts.

(** ** The keywords that a span lists *)

Module KeywordListFacts.

Import Py PyFacts KeywordSearcher Spec SortFacts PatternFacts LemmaFacts.

Section Search.

Context {Tk : NLTK} {Re : Regex} {So : SetOrder}.

(** Iterating over a set yields its elements. *)
Hypothesis set_elements :
  forall l x, In x (list_of_set l) <-> In x l.

Variable keywords : list str.

Local Abbreviation listed :=
  (fun kws : list str => kws <> [] /\ incl kws keywords).

Lemma list_of_set_listed (kws : list str) :
  listed kws -> listed (list_of_set kws).
Proof.
  intros [Hne Hincl]. split.
  - destruct kws as [|x kws]; [congruence|].
    intros E. assert (H : In x (list_of_set (x :: kws)))
      by (apply set_elements; left; reflexivity).
    rewrite E in H. destruct H.
  - intros x Hx. apply Hincl. apply set_elements. exact Hx.
Qed.

Lemma representative_in_keywords (entry : str * list str) :
  In entry (_create_keyword_patterns keywords) ->
  In (hd [] (snd entry)) keywords.
Proof.
  intros Hin.
  assert (H : NoDup (map fst (_create_keyword_patterns keywords))
              /\ Forall (fun e : str * list str =>
                           snd e <> []
                           /\ Forall (fun kw => keyword_pattern kw = fst e)
                                     (snd e))
                        (_create_keyword_patterns keywords)
              /\ Permutation
                   (concat (map snd (_create_keyword_patterns keywords)))
                   keywords).
  { unfold _create_keyword_patterns. clear Hin.
    induction keywords as [|keyword kws IH] using rev_ind.
    - simpl. split; [constructor|]. split; constructor.
    - rewrite fold_left_app. cbn [fold_left].
      apply patterns_append_ok. exact IH. }
  destruct H as [_ [Hall Hperm]]. rewrite Forall_forall in Hall.
  destruct (Hall entry Hin) as [Hne _].
  eapply Permutation_in; [exact Hperm|].
  apply in_concat. exists (snd entry). split; [apply in_map; exact Hin|].
  destruct (snd entry); [congruence | left; reflexivity].
Qed.

Lemma scan_words_keyword (text_lower pattern representative : str)
    (words seen : list str) :
  Forall (fun p => snd p = representative)
         (scan_words text_lower pattern representative seen words).
Proof.
  revert seen. induction words as [|word words IH]; intros seen;
    cbn [scan_words]; [constructor|].
  apply Forall_app. split; [|apply IH].
  destruct (str_eqb (_lemmatize_word word) pattern); [|constructor].
  destruct (find text_lower word (sum_len_plus_1 seen) =? -1);
    constructor; [reflexivity | constructor].
Qed.

Lemma find_keyword_positions_keywords (text : str) :
  Forall (fun p => In (snd p) keywords)
         (_find_keyword_positions (_create_keyword_patterns keywords) text).
Proof.
  unfold _find_keyword_positions.
  assert (H : forall table,
            incl table (_create_keyword_patterns keywords) ->
            Forall (fun p : Z * Z * str => In (snd p) keywords)
                   (flat_map (pattern_positions (lower text)) table)).
  { induction table as [|entry table IH]; intros Hincl; cbn [flat_map];
      [constructor|].
    apply Forall_app. split.
    - pose proof (representative_in_keywords entry
                    (Hincl entry (or_introl eq_refl))) as Hrep.
      destruct entry as [pattern originals]. unfold pattern_positions.
      simpl snd in Hrep.
      assert (Hre : forall ws,
                Forall (fun p : Z * Z * str => In (snd p) keywords)
                       (map (fun se : Z * Z =>
                               (fst se, snd se, hd [] originals))
                            (finditer_phrase ws (lower text)))).
      { intros ws. rewrite Forall_forall. intros p Hp.
        apply in_map_iff in Hp. destruct Hp as [se [<- _]]. exact Hrep. }
      destruct (split_whitespace pattern) as [|w [|w' ws]];
        [apply Hre | | apply Hre].
      eapply Forall_impl; [|apply scan_words_keyword].
      intros p Hp. rewrite Hp. exact Hrep.
    - apply IH. intros e He. apply Hincl. right. exact He. }
  apply H. apply incl_refl.
Qed.

Lemma position_keywords_add_listed (key : Z * Z) (keyword : str)
    (d : list (Z * Z * list str)) :
  In keyword keywords ->
  Forall (fun item => listed (snd item)) d ->
  Forall (fun item => listed (snd item))
         (position_keywords_add key keyword d).
Proof.
  intros Hkw. induction 1 as [|[k kws] d Hk Hd IH];
    cbn [position_keywords_add].
  - constructor; [|constructor]. simpl. split; [discriminate|].
    intros x [<-|[]]. exact Hkw.
  - destruct ((fst k =? fst key) && (snd k =? snd key)).
    + constructor; [|exact Hd]. simpl in *. destruct Hk as [Hne Hincl].
      split.
      * intros E. apply app_eq_nil in E. destruct E. discriminate.
      * intros x Hx. apply in_app_or in Hx.
        destruct Hx as [Hx|[<-|[]]]; [apply Hincl; exact Hx | exact Hkw].
    + constructor; assumption.
Qed.

Lemma add_position_listed (text section_name : str) (page_number : Z)
    (st : list (KeywordMatch (list str)) * list Z)
    (item : Z * Z * list str) :
  listed (snd item) ->
  Forall (fun m => listed (km_matched_keywords m)) (fst st) ->
  Forall (fun m => listed (km_matched_keywords m))
         (fst (add_position text section_name page_number st item)).
Proof.
  destruct st as [matches seen]. destruct item as [[start end_] kws].
  simpl fst. simpl snd. intros Hitem Hall. unfold add_position.
  destruct (existsb (Z.eqb start) seen); [exact Hall|].
  destruct (_extract_context text start end_) as [[t s] e]. simpl fst.
  apply Forall_app. split; [exact Hall|]. constructor; [|constructor].
  cbn [km_matched_keywords]. apply list_of_set_listed. exact Hitem.
Qed.

Lemma merge_sweep_listed (rest finished : list (KeywordMatch (list str)))
    (last : KeywordMatch (list str)) :
  Forall (fun m => listed (km_matched_keywords m)) finished ->
  listed (km_matched_keywords last) ->
  Forall (fun m => listed (km_matched_keywords m)) rest ->
  Forall (fun m => listed (km_matched_keywords m))
         (merge_sweep finished last rest).
Proof.
  revert finished last.
  induction rest as [|current rest IH]; intros finished last Hfin Hlast Hrest;
    cbn [merge_sweep].
  - apply Forall_app. split; [exact Hfin|].
    constructor; [exact Hlast | constructor].
  - inversion Hrest as [|? ? Hcur Hrest']; subst.
    destruct (overlaps_enough last current).
    + apply IH; try assumption. cbn [merge_into km_matched_keywords].
      apply list_of_set_listed. destruct Hlast as [Hne Hl].
      destruct Hcur as [_ Hc]. split.
      * intros E. apply app_eq_nil in E. tauto.
      * apply incl_app; assumption.
    + apply IH; try assumption. apply Forall_app. split; [exact Hfin|].
      constructor; [exact Hlast | constructor].
Qed.

(** X29. Every span that [KeywordSearcher.search] returns lists at least
    one keyword, and only keywords of the table of the searcher, when
    iterating over a set yields its elements. *)
Theorem keyword_search_lists_keywords (text section_name : str)
    (page_number : Z) :
  Forall (fun m => km_matched_keywords m <> []
                   /\ incl (km_matched_keywords m) keywords)
         (search keywords text section_name page_number).
Proof.
  unfold search.
  pose proof (find_keyword_positions_keywords text) as Hpos.
  destruct (negb (nonempty _)); [constructor|].
  set (positions := _find_keyword_positions _ text) in *.
  assert (Hd : forall ps d,
            Forall (fun p : Z * Z * str => In (snd p) keywords) ps ->
            Forall (fun item : Z * Z * list str => listed (snd item)) d ->
            Forall (fun item : Z * Z * list str => listed (snd item))
                   (fold_left
                      (fun d p => position_keywords_add
                                    (fst (fst p), snd (fst p)) (snd p) d)
                      ps d)).
  { induction ps as [|p ps IH]; intros d Hps Hdd; simpl; [exact Hdd|].
    inversion Hps; subst. apply IH; [assumption|].
    apply position_keywords_add_listed; assumption. }
  specialize (Hd positions [] Hpos (Forall_nil _)).
  set (d := fold_left _ positions []) in *.
  assert (Hm : forall items st,
            Forall (fun item : Z * Z * list str => listed (snd item)) items ->
            Forall (fun m => listed (km_matched_keywords m)) (fst st) ->
            Forall (fun m => listed (km_matched_keywords m))
                   (fst (fold_left
                           (add_position text section_name page_number)
                           items st))).
  { induction items as [|item items IH]; intros st Hitems Hst; simpl;
      [exact Hst|].
    inversion Hitems; subst. apply IH; [assumption|].
    apply add_position_listed; assumption. }
  specialize (Hm d ([], []) Hd (Forall_nil _)).
  set (matches := fst (fold_left _ d ([], []))) in *.
  unfold _merge_overlapping.
  assert (Hs : Forall (fun m => listed (km_matched_keywords m))
                      (sort_by (@km_char_start _) matches)).
  { rewrite Forall_forall in Hm |- *. intros x Hx. apply Hm.
    eapply Permutation_in; [symmetry; apply sort_by_perm | exact Hx]. }
  destruct (sort_by _ matches) as [|first rest]; [constructor|].
  inversion Hs; subst. apply merge_sweep_listed; try assumption.
  constructor.
Qed.

End Search.

Lemma keyword_search_lists_keywords_witness :
  let keywords := [of_string "flood"] in
  (forall l x, In x (list_of_set (SetOrder := first_occurrence_order) l)
               <-> In x l)
  /\ Forall (fun m => km_matched_keywords m <> []
                      /\ incl (km_matched_keywords m) keywords)
            (search (Tk := plain_nltk) (Re := literal_regex)
                    (So := first_occurrence_order)
                    keywords (of_string "the flood") [] 0).
Proof.
  cbv zeta. split; [exact distinct_In|].
  exact (@keyword_search_lists_keywords plain_nltk literal_regex
           first_occurrence_order distinct_In [of_string "flood"]
           (of_string "the flood") [] 0).
Defined.

End KeywordListFacts.
